(** * deploylist: the deploy-record store and its HTTP routes

    A shallow embedding of [src/lib/db.ts] (the Redis-only persistence
    layer), [src/lib/redis.ts], [src/lib/types.ts] (the first declarations
    of [src/unnamed/part_001]) and the [/api/deploy] route handlers (the
    [GET] and [POST] functions that close [src/app/youpik/page.tsx]),
    followed by the properties of the written specification that concern
    them.

    Conventions.
    - Instants are [Z] milliseconds since the epoch; [Date.now()] is an
      explicit argument [now], [randomUUID()] an explicit argument [uuid].
    - A JavaScript [number] is [JS.number]: NaN, the two infinities, or an
      exact rational (binary rounding is not modelled).
    - Strings are [string]; a character stands for one UTF-16 code unit
      below 256.
    - [new Date(s)], [toISOString] and [Number(s)] are builtins of the
      engine: the code is embedded over arbitrary such functions
      (Section variables), and run on concrete ones in the examples. *)

From Stdlib Require Import ZArith QArith Qround Lia.
From Stdlib Require Import Strings.String Strings.Ascii.
From stdpp Require Import gmap strings list sorting pretty.

Local Open Scope Z_scope.

(** ** JavaScript values and builtins *)

Module JS.

(** A call either returns or throws an [Error] with a message. *)
Inductive result (A : Type) : Type :=
| Ok (a : A)
| Throw (message : string).
Arguments Ok {A} a.
Arguments Throw {A} message.

Definition bind {A B} (m : result A) (k : A → result B) : result B :=
  match m with
  | Ok a => k a
  | Throw e => Throw e
  end.

(** The [number] type. *)
Inductive number : Type :=
| NaN
| NegInfinity
| Finite (q : Q)
| PosInfinity.

Definition of_Z (z : Z) : number := Finite (inject_Z z).

(** [a <= b] on numbers; false as soon as one side is NaN. *)
Definition number_leb (a b : number) : bool :=
  match a, b with
  | NaN, _ | _, NaN => false
  | NegInfinity, _ => true
  | _, PosInfinity => true
  | Finite p, Finite q => Qle_bool p q
  | _, _ => false
  end.

Definition number_le (a b : number) : Prop := number_leb a b = true.

(** ToBoolean on a number: NaN and zero are falsy. *)
Definition number_truthy (n : number) : bool :=
  match n with
  | NaN => false
  | Finite q => negb (Qeq_bool q 0)
  | _ => true
  end.

(** [a || b] on numbers. *)
Definition number_or (a b : number) : number :=
  if number_truthy a then a else b.

Definition is_NaN (n : number) : bool :=
  match n with NaN => true | _ => false end.

Definition Math_min (a b : number) : number :=
  if is_NaN a || is_NaN b then NaN
  else if number_leb a b then a else b.

Definition Math_max (a b : number) : number :=
  if is_NaN a || is_NaN b then NaN
  else if number_leb a b then b else a.

(** Rounding towards zero, as ToIntegerOrInfinity does on finite values. *)
Definition truncate (q : Q) : Z := Z.quot (Qnum q) (Z.pos (Qden q)).

(** [l.slice(0, end)]: a negative [end] counts from the end of the array. *)
Definition slice0 {A} (l : list A) (end_ : number) : list A :=
  match end_ with
  | NaN | NegInfinity => []
  | PosInfinity => l
  | Finite q =>
      let len := Z.of_nat (length l) in
      let k := truncate q in
      let final := if k <? 0 then Z.max (len + k) 0 else Z.min k len in
      take (Z.to_nat final) l
  end.

(** White space removed by [String.prototype.trim]: WhiteSpace and
    LineTerminator of the standard.  A character of a [string] is a code
    unit below 256; among those the white space is TAB, LF, VT, FF, CR,
    SP and NBSP (the others, from U+1680 on, are not characters here). *)
Definition is_white (c : ascii) : bool :=
  let n := nat_of_ascii c in
  ((9 <=? n)%nat && (n <=? 13)%nat) || (n =? 32)%nat || (n =? 160)%nat.

Fixpoint trim_start (s : string) : string :=
  match s with
  | String c s' => if is_white c then trim_start s' else s
  | EmptyString => EmptyString
  end.

Definition trim (s : string) : string :=
  String.rev (trim_start (String.rev (trim_start s))).

(** [s.split(",")] for a one-character separator. *)
Fixpoint split_go (sep : ascii) (cur : string) (s : string) : list string :=
  match s with
  | EmptyString => [String.rev cur]
  | String c s' =>
      if Ascii.eqb c sep then String.rev cur :: split_go sep EmptyString s'
      else split_go sep (String c cur) s'
  end.

Definition split (sep : ascii) (s : string) : list string :=
  split_go sep EmptyString s.

(** ToBoolean on a string. *)
Definition string_truthy (s : string) : bool :=
  negb (String.eqb s "").

(** The values a parsed JSON body holds in a field: absent, null, a
    boolean, a number whose value is an integer, or a string.  Nested
    arrays and objects and fractional numbers are left out. *)
Inductive value : Type :=
| Undefined
| Null
| Bool (b : bool)
| Num (n : Z)
| Str (s : string).

#[global] Instance value_eq_dec : EqDecision value.
Proof. solve_decision. Defined.

(** ToBoolean. *)
Definition truthy (v : value) : bool :=
  match v with
  | Undefined | Null => false
  | Bool b => b
  | Num n => negb (n =? 0)
  | Str s => string_truthy s
  end.

(** [String(v)].  [NumberToString] is Number::toString of the engine on a
    number whose value is an integer: every digit up to 2^53, then the
    shortest digits that denote the number, with an exponent from 10^21. *)
Definition String_ (NumberToString : Z → string) (v : value) : string :=
  match v with
  | Undefined => "undefined"
  | Null => "null"
  | Bool true => "true"
  | Bool false => "false"
  | Num n => NumberToString n
  | Str s => s
  end.

(** An object read by property name: [o[k]] is [undefined] when absent. *)
Definition get (o : gmap string value) (k : string) : value :=
  default Undefined (o !! k).

(** [Array.prototype.sort(comparefn)]: a merge sort that puts [a] before
    [b] when [comparefn(a, b) <= 0].  Where [comparefn] is not a
    consistent order the standard leaves the resulting order to the
    engine; what is used of the result is that it is a permutation. *)
Definition sorts_before {A} (comparefn : A → A → Z) (a b : A) : Prop :=
  comparefn a b ≤ 0.

#[global] Instance sorts_before_dec {A} (comparefn : A → A → Z) :
  RelDecision (sorts_before comparefn).
Proof. intros a b. unfold sorts_before. apply _. Defined.

Definition Array_sort {A} (comparefn : A → A → Z) (l : list A) : list A :=
  merge_sort (sorts_before comparefn) l.

(** [Array.prototype.sort()] on strings: ascending code-unit order, with
    every [undefined] moved to the end. *)
Definition Array_sort_default (l : list (option string)) : list (option string) :=
  (Some <$> merge_sort String.le (omap id l)) ++ filter (λ o, o = None) l.

(** A value as [JSON.parse] yields it, or [undefined].  A number is given
    by what [String] prints for it, which tells numbers apart as
    SameValueZero does.  An array or an object is given by its identity
    [ref] (two parses never yield the same object), by what [String]
    prints for it and by the JSON text [JSON.stringify] writes for it. *)
Inductive parsed : Type :=
| PUndefined
| PNull
| PBool (b : bool)
| PNumber (image : string)
| PString (s : string)
| PObject (ref : nat) (image json : string).

(** Equality as a [Set] decides it (SameValueZero). *)
#[global] Instance parsed_eq_dec : EqDecision parsed.
Proof. solve_decision. Defined.

(** [String(v)]. *)
Definition String_parsed (v : parsed) : string :=
  match v with
  | PUndefined => "undefined"
  | PNull => "null"
  | PBool true => "true"
  | PBool false => "false"
  | PNumber image => image
  | PString s => s
  | PObject _ image _ => image
  end.

(** A property that holds a string or is absent, as a value. *)
Definition of_name (name : option string) : parsed :=
  match name with
  | Some s => PString s
  | None => PUndefined
  end.

Definition parsed_le (a b : parsed) : Prop :=
  String.le (String_parsed a) (String_parsed b).

#[global] Instance parsed_le_dec : RelDecision parsed_le.
Proof. intros a b. unfold parsed_le. apply _. Defined.

(** [Array.prototype.sort()] on any values: ascending code-unit order of
    what [String] prints for them, with every [undefined] moved to the
    end. *)
Definition Array_sort_parsed (l : list parsed) : list parsed :=
  merge_sort parsed_le (filter (λ v, v ≠ PUndefined) l)
  ++ filter (λ v, v = PUndefined) l.

(** [Array.from(new Set(l))]: first occurrences, in order. *)
Definition Set_values {A} `{EqDecision A} (l : list A) : list A :=
  foldl (λ acc x, if decide (x ∈ acc) then acc else acc ++ [x]) [] l.

(** [new Map()] as the insertion-ordered association list it is:
    [set] on a present key replaces the value in place, on a fresh key
    appends. *)
Fixpoint Map_set {K V} `{EqDecision K} (k : K) (v : V) (m : list (K * V))
  : list (K * V) :=
  match m with
  | [] => [(k, v)]
  | (k', v') :: m' =>
      if decide (k = k') then (k, v) :: m' else (k', v') :: Map_set k v m'
  end.

Definition Map_values {K V} (m : list (K * V)) : list V := snd <$> m.

Fixpoint Map_get {K V} `{EqDecision K} (k : K) (m : list (K * V)) : option V :=
  match m with
  | [] => None
  | (k', v') :: m' => if decide (k = k') then Some v' else Map_get k m'
  end.

End JS.

Import JS.

Notation "'let*' x ':=' m 'in' k" := (JS.bind m (λ x, k))
  (at level 10, x name, m at level 100, k at level 200, only parsing).

(** ** [src/lib/types.ts] *)

(** [DeployStatus]: the four values the type admits.  The type is erased
    at run time, where the [status] property holds whatever value it was
    given. *)
Definition DeployStatus : list value :=
  [Str "success"; Str "failed"; Str "running"; Str "canceled"].

(** [DeployRecord] as it exists at run time.  The read path casts parsed
    JSON to this type after testing [id] and [deployedAt] only, so every
    property may be [undefined] ([None]).  A property that is present is
    taken to be the string the write path stores: a record in which, say,
    [id] is a number passes the same test and is left out here. *)
Record DeployRecord : Type := mkDeployRecord {
  id : option string;
  title : option string;
  projectName : option string;
  operator : option string;
  environment : option string;
  branch : option string;
  commit : option string;
  note : option string;
  deployedAt : option string;
  status : value;
}.

#[global] Instance DeployRecord_eq_dec : EqDecision DeployRecord.
Proof. solve_decision. Defined.

(** [CreateDeployPayload], as the route builds it. *)
Record CreateDeployPayload : Type := mkCreateDeployPayload {
  payload_title : string;
  payload_projectName : string;
  payload_operator : string;
  payload_environment : string;
  payload_branch : string;
  payload_commit : string;
  payload_note : option string;
  payload_deployedAt : option string;
  payload_status : value;
}.

(** ** JSON texts and values read back from the store *)

(** A JSON text is kept as what [JSON.parse] makes of it: the record of an
    object, some other value, or a syntax error.  [JSON.stringify] of a
    record is the text that parses back to it. *)
Inductive json_text : Type :=
| JsonRecord (o : DeployRecord)
| JsonOther
| JsonInvalid.

Definition JSON_stringify (r : DeployRecord) : json_text := JsonRecord r.

(** What a read hands to [coerceRecord], by [typeof]: null or undefined,
    a string, an object (the client may already have parsed the text), or
    anything else. *)
Inductive raw : Type :=
| RawNull
| RawString (s : json_text)
| RawObject (o : DeployRecord)
| RawOther.

(** ** [src/lib/redis.ts] and the Redis server *)

Definition DEPLOY_KEY : string := "deploy_records".
Definition PROJECT_SET_KEY : string := "deploy_projects".
Definition DEPLOY_ZSET_KEY : string := "deploy_records_z".
Definition DEPLOY_RECORD_PREFIX : string := "deploy_record:".

Module Redis.

(** A reply that the code treats as an array, with the two other shapes
    it guards against. *)
Inductive reply (A : Type) : Type :=
| ReplyNull
| ReplyArray (l : list A)
| ReplyOther.
Arguments ReplyNull {A}.
Arguments ReplyArray {A} l.
Arguments ReplyOther {A}.

(** The read commands of the client, each of which may throw.  The client
    parses what it reads as JSON and hands over the value, or the text
    itself when it is not JSON: [smembers] answers with values, not with
    the texts the set holds. *)
Record Reader : Type := mkReader {
  zrange : string → Z → Z → bool → result (reply string);
  mget : list string → result (reply raw);
  lrange : string → Z → Z → result (reply raw);
  smembers : string → result (reply parsed);
}.

(** The server: a key space of typed entries.  A string entry carries the
    instant at which it expires, if any. *)
Inductive entry : Type :=
| EString (v : raw) (expires : option Z)
| EZset (members : gmap string Z)
| EList (items : list raw)
| ESet (members : gset string).

Abbreviation Store := (gmap string entry).

(** The entry under a key at the instant [now]: an expired string is gone. *)
Definition find (st : Store) (now : Z) (key : string) : option entry :=
  match st !! key with
  | Some (EString v (Some t)) => if now <? t then Some (EString v (Some t)) else None
  | o => o
  end.

Inductive command : Type :=
| SET | ZADD | ZREMRANGEBYSCORE | LPUSH | LTRIM | SADD
| ZRANGE | MGET | LRANGE | SMEMBERS.

(** What a command may meet (network failure, quota, ...): it does not
    reach the server, or the server runs it and the reply does not arrive.
    Either way the call throws. *)
Inductive fault : Type :=
| Refused (e : string)
| ReplyLost (e : string).

Definition message (f : fault) : string :=
  match f with
  | Refused e => e
  | ReplyLost e => e
  end.

(** A configured client: [fails c] is the fault a command meets, if any,
    and [deserialize c] is what the client makes of the text of a set
    member ([JSON.parse], or the text itself when that throws); the
    identity of an object is settled by [connect]. *)
Record Client : Type := mkClient {
  fails : command → option fault;
  deserialize : string → parsed;
}.

Definition is_digit (c : ascii) : bool :=
  let n := nat_of_ascii c in (48 <=? n)%nat && (n <=? 57)%nat.

Fixpoint all_digits (s : string) : bool :=
  match s with
  | EmptyString => true
  | String c s' => is_digit c && all_digits s'
  end.

(** A numeral that [JSON.parse] reads as a number which [String] prints
    back as the same text: one to fifteen digits, no leading zero. *)
Definition is_numeral (s : string) : bool :=
  match s with
  | EmptyString => false
  | String "0" EmptyString => true
  | String c s' =>
      is_digit c && negb (Ascii.eqb c "0") && all_digits s'
      && (String.length s <=? 15)%nat
  end.

(** The text of an empty array: the brackets with JSON white space
    between them. *)
Fixpoint closes_array (s : string) : bool :=
  match s with
  | EmptyString => false
  | String "]" EmptyString => true
  | String c s' =>
      let n := nat_of_ascii c in
      ((n =? 32) || (n =? 9) || (n =? 10) || (n =? 13))%nat && closes_array s'
  end.

Definition is_empty_array (s : string) : bool :=
  match s with
  | String "[" s' => closes_array s'
  | _ => false
  end.

(** The deserialization of the samples.  It is what the client does on
    [true], [false] and [null], on the numerals of [is_numeral], on the
    texts of an empty array, and on every text that begins with none of
    the characters a JSON text begins with (white space, a quote, a
    bracket, a brace, a minus sign, a digit, [t], [f], [n]), which is not
    JSON and is kept as it is; the samples hold no other text. *)
Definition deserialize_sample (s : string) : parsed :=
  if String.eqb s "true" then PBool true
  else if String.eqb s "false" then PBool false
  else if String.eqb s "null" then PNull
  else if is_numeral s then PNumber s
  else if is_empty_array s then PObject 0 "" "[]"
  else PString s.

Definition reliable : Client :=
  {| fails := λ _, None; deserialize := deserialize_sample |}.

Definition WRONGTYPE : string :=
  "WRONGTYPE Operation against a key holding the wrong kind of value".

(** Commands that change the store return the outcome and the new store. *)
Definition M (A : Type) : Type := Store → result A * Store.

Definition ret {A} (a : A) : M A := λ st, (Ok a, st).

Definition throw {A} (e : string) : M A := λ st, (Throw e, st).

Definition bind {A B} (m : M A) (k : A → M B) : M B :=
  λ st, match m st with
        | (Ok a, st') => k a st'
        | (Throw e, st') => (Throw e, st')
        end.

(** A command that changes the store, with the fault it may meet: one
    that is refused leaves the store as it is, one whose reply is lost has
    changed it. *)
Definition guarded {A} (c : Client) (cmd : command) (m : M A) : M A :=
  match fails c cmd with
  | Some (Refused e) => throw e
  | Some (ReplyLost e) => λ st, (Throw e, (m st).2)
  | None => m
  end.

(** SET key value EX seconds *)
Definition set (c : Client) (now : Z) (key : string) (v : json_text) (ex : Z)
  : M unit :=
  guarded c SET
    (λ st, (Ok (), <[key := EString (RawString v) (Some (now + ex * 1000))]> st)).

(** ZADD key score member; a score that is NaN is refused by the server. *)
Definition zadd (c : Client) (now : Z) (key : string) (score : option Z)
  (member : string) : M unit :=
  guarded c ZADD
    (λ st, match score with
           | None => (Throw "ERR value is not a valid float", st)
           | Some sc =>
               match find st now key with
               | None => (Ok (), <[key := EZset {[member := sc]}]> st)
               | Some (EZset z) => (Ok (), <[key := EZset (<[member := sc]> z)]> st)
               | Some _ => (Throw WRONGTYPE, st)
               end
           end).

(** ZREMRANGEBYSCORE key min max *)
Definition zremrangebyscore (c : Client) (now : Z) (key : string) (lo : Z)
  (hi : option Z) : M unit :=
  guarded c ZREMRANGEBYSCORE
    (λ st, match hi with
           | None => (Throw "ERR min or max is not a float", st)
           | Some hi =>
               match find st now key with
               | None => (Ok (), st)
               | Some (EZset z) =>
                   let z' := filter (λ kv, ¬ (lo ≤ kv.2 ≤ hi)) z in
                   (Ok (), if decide (z' = ∅) then delete key st
                           else <[key := EZset z']> st)
               | Some _ => (Throw WRONGTYPE, st)
               end
           end).

(** LPUSH key value *)
Definition lpush (c : Client) (now : Z) (key : string) (v : json_text) : M unit :=
  guarded c LPUSH
    (λ st, match find st now key with
           | None => (Ok (), <[key := EList [RawString v]]> st)
           | Some (EList l) => (Ok (), <[key := EList (RawString v :: l)]> st)
           | Some _ => (Throw WRONGTYPE, st)
           end).

(** The elements of [l] at the indices [start..stop], both inclusive,
    negative indices counting from the end. *)
Definition range {A} (l : list A) (start stop : Z) : list A :=
  let len := Z.of_nat (length l) in
  let start := if start <? 0 then Z.max (len + start) 0 else start in
  let stop := if stop <? 0 then len + stop else stop in
  take (Z.to_nat (stop + 1 - start)) (drop (Z.to_nat start) l).

(** LTRIM key start stop *)
Definition ltrim (c : Client) (now : Z) (key : string) (start stop : Z)
  : M unit :=
  guarded c LTRIM
    (λ st, match find st now key with
           | None => (Ok (), st)
           | Some (EList l) =>
               let l' := range l start stop in
               (Ok (), if decide (l' = []) then delete key st
                       else <[key := EList l']> st)
           | Some _ => (Throw WRONGTYPE, st)
           end).

(** SADD key member *)
Definition sadd (c : Client) (now : Z) (key : string) (member : string)
  : M unit :=
  guarded c SADD
    (λ st, match find st now key with
           | None => (Ok (), <[key := ESet {[member]}]> st)
           | Some (ESet s) => (Ok (), <[key := ESet ({[member]} ∪ s)]> st)
           | Some _ => (Throw WRONGTYPE, st)
           end).

(** The order of a sorted set: by score, then by member. *)
Definition zset_le (a b : string * Z) : Prop :=
  a.2 < b.2 ∨ (a.2 = b.2 ∧ String.le a.1 b.1).

#[global] Instance zset_le_dec : RelDecision zset_le.
Proof. intros a b. unfold zset_le. apply _. Defined.

Definition zset_members (z : gmap string Z) (rev : bool) : list string :=
  let asc := merge_sort zset_le (map_to_list z) in
  fst <$> (if rev then reverse asc else asc).

(** A value the client has parsed is a fresh object, if it is one. *)
Definition at_ref (i : nat) (v : parsed) : parsed :=
  match v with
  | PObject _ image json => PObject i image json
  | _ => v
  end.

(** The read commands, answered from a store at the instant [now]. *)
Definition connect (c : Client) (st : Store) (now : Z) : Reader := {|
  zrange key start stop rev :=
    match fails c ZRANGE with
    | Some f => Throw (message f)
    | None =>
        match find st now key with
        | None => Ok (ReplyArray [])
        | Some (EZset z) => Ok (ReplyArray (range (zset_members z rev) start stop))
        | Some _ => Throw WRONGTYPE
        end
    end;
  mget keys :=
    match fails c MGET with
    | Some f => Throw (message f)
    | None =>
        Ok (ReplyArray
              ((λ k, match find st now k with
                     | Some (EString v _) => v
                     | _ => RawNull
                     end) <$> keys))
    end;
  lrange key start stop :=
    match fails c LRANGE with
    | Some f => Throw (message f)
    | None =>
        match find st now key with
        | None => Ok (ReplyArray [])
        | Some (EList l) => Ok (ReplyArray (range l start stop))
        | Some _ => Throw WRONGTYPE
        end
    end;
  smembers key :=
    match fails c SMEMBERS with
    | Some f => Throw (message f)
    | None =>
        match find st now key with
        | None => Ok (ReplyArray [])
        | Some (ESet s) =>
            Ok (ReplyArray (imap (λ i text, at_ref i (deserialize c text)) (elements s)))
        | Some _ => Throw WRONGTYPE
        end
    end;
|}.

End Redis.

(** ** [src/lib/db.ts] *)

Module Db.

Definition MAX_ITEMS : Z := 200.

Definition THIRTY_DAYS_MS : Z := 30 * 24 * 60 * 60 * 1000.

Definition NOT_CONFIGURED : string :=
  "Redis 未配置：请设置 UPSTASH_REDIS_REST_URL 与 UPSTASH_REDIS_REST_TOKEN".

(** [parsed && parsed.id && parsed.deployedAt] *)
Definition has_id_and_date (o : DeployRecord) : bool :=
  match id o, deployedAt o with
  | Some i, Some d => string_truthy i && string_truthy d
  | _, _ => false
  end.

(** [coerceRecord]; [None] is its [null], also returned from the [catch]
    when [JSON.parse] throws. *)
Definition coerceRecord (r : raw) : option DeployRecord :=
  match r with
  | RawNull => None
  | RawString s =>
      match s with
      | JsonRecord parsed => if has_id_and_date parsed then Some parsed else None
      | JsonOther => None
      | JsonInvalid => None
      end
  | RawObject obj => if has_id_and_date obj then Some obj else None
  | RawOther => None
  end.

(** [(x ?? []).map(...)]: a reply that is neither null nor an array has no
    [map], and the call throws a TypeError. *)
Definition array_or_empty {A} (r : Redis.reply A) : result (list A) :=
  match r with
  | Redis.ReplyNull => Ok []
  | Redis.ReplyArray l => Ok l
  | Redis.ReplyOther => Throw "map is not a function"
  end.

Section WithDate.

(** [new Date(s).getTime()], [None] for NaN, and [new Date(t).toISOString()]. *)
Variable Date_parse : string → option Z.
Variable toISOString : Z → string.

(** [new Date(x).getTime()] for a property that may be undefined. *)
Definition getTime (x : option string) : option Z :=
  match x with
  | Some s => Date_parse s
  | None => None
  end.

Definition resolveDeployedAt (now : Z) (input : option string) : string :=
  let raw := trim (default "" input) in
  if negb (string_truthy raw) then toISOString now
  else
    match Date_parse raw with
    | None => toISOString now
    | Some dt => toISOString dt
    end.

Definition record_key (id : string) : string := DEPLOY_RECORD_PREFIX +:+ id.

Definition addDeployRecord (redis : option Redis.Client) (now : Z) (uuid : string)
  (payload : CreateDeployPayload) : Redis.M DeployRecord :=
  match redis with
  | None => Redis.throw NOT_CONFIGURED
  | Some redis =>
      let record := {|
        id := Some uuid;
        title := Some (payload_title payload);
        projectName := Some (payload_projectName payload);
        operator := Some (payload_operator payload);
        environment := Some (payload_environment payload);
        branch := Some (payload_branch payload);
        commit := Some (payload_commit payload);
        note := payload_note payload;
        deployedAt := Some (resolveDeployedAt now (payload_deployedAt payload));
        status := payload_status payload;
      |} in
      let key := record_key uuid in
      let score := getTime (deployedAt record) in
      Redis.bind (Redis.set redis now key (JSON_stringify record)
                    (THIRTY_DAYS_MS / 1000)) (λ _,
      Redis.bind (Redis.zadd redis now DEPLOY_ZSET_KEY score uuid) (λ _,
      Redis.bind (Redis.zremrangebyscore redis now DEPLOY_ZSET_KEY 0
                    ((λ score, score - THIRTY_DAYS_MS - 1) <$> score)) (λ _,
      Redis.bind (Redis.lpush redis now DEPLOY_KEY (JSON_stringify record)) (λ _,
      Redis.bind (Redis.ltrim redis now DEPLOY_KEY 0 (MAX_ITEMS - 1)) (λ _,
      Redis.bind (Redis.sadd redis now PROJECT_SET_KEY (payload_projectName payload)) (λ _,
      Redis.ret record))))))
  end.

(** Lines 76-79: the records behind the newest [MAX_ITEMS] index entries. *)
Definition readZset (redis : Redis.Reader) : result (list DeployRecord) :=
  let* ids := Redis.zrange redis DEPLOY_ZSET_KEY 0 (MAX_ITEMS - 1) true in
  let* ids := array_or_empty ids in
  let zsetKeys := record_key <$> ids in
  let* zsetValues := (if bool_decide (zsetKeys = []) then Ok (Redis.ReplyArray [])
                else Redis.mget redis zsetKeys) in
  let* zsetValues := array_or_empty zsetValues in
  Ok (omap coerceRecord zsetValues).

(** Lines 81-82: the records of the legacy list. *)
Definition readList (redis : Redis.Reader) : result (list DeployRecord) :=
  let* listItems := Redis.lrange redis DEPLOY_KEY 0 (MAX_ITEMS - 1) in
  let* listItems := array_or_empty listItems in
  Ok (omap coerceRecord listItems).

(** [new Date(r.deployedAt).getTime() >= min] *)
Definition recent (min : Z) (r : DeployRecord) : bool :=
  match getTime (deployedAt r) with
  | Some t => min <=? t
  | None => false
  end.

(** [normalized.has(x.projectName)] *)
Definition has_project (normalized : list string) (x : DeployRecord) : bool :=
  match projectName x with
  | Some p => bool_decide (p ∈ normalized)
  | None => false
  end.

(** [a.deployedAt < b.deployedAt] *)
Definition date_lt (a b : DeployRecord) : bool :=
  match deployedAt a, deployedAt b with
  | Some x, Some y => String.ltb x y
  | _, _ => false
  end.

(** [(a, b) => (a.deployedAt < b.deployedAt ? 1 : -1)] *)
Definition newest_first (a b : DeployRecord) : Z :=
  if date_lt a b then 1 else -1.

(** Lines 84-86: the two sources keyed by id, the index written last. *)
Definition mergeById (fromList fromZset : list DeployRecord)
  : list (option string * DeployRecord) :=
  let byId := foldl (λ byId r, Map_set (id r) r byId) [] fromList in
  foldl (λ byId r, Map_set (id r) r byId) byId fromZset.

(** Lines 87-92; [None] when the list is empty and control leaves the
    [try] block without returning. *)
Definition selectLatest (min : Z) (limit : number) (projectNames : option (list string))
  (byId : list (option string * DeployRecord)) : option (list DeployRecord) :=
  let list := filter (λ r, recent min r) (Map_values byId) in
  let normalized :=
    match projectNames with
    | Some names => if bool_decide (names = []) then None else Some (Set_values names)
    | None => None
    end in
  let list :=
    match normalized with
    | Some normalized => filter (λ x, has_project normalized x) list
    | None => list
    end in
  let list := Array_sort newest_first list in
  if bool_decide (list = []) then None else Some (slice0 list limit).

Definition getLatestDeployRecords (redis : option Redis.Reader) (now : Z)
  (limit : number) (projectNames : option (list string))
  : result (list DeployRecord) :=
  let min := now - THIRTY_DAYS_MS in
  match redis with
  | None => Throw NOT_CONFIGURED
  | Some redis =>
      let try :=
        let* fromZset := readZset redis in
        let* fromList := readList redis in
        Ok (selectLatest min limit projectNames (mergeById fromList fromZset)) in
      match try with
      | Ok (Some list) => Ok list
      | Ok None => Ok []
      | Throw _ => Ok []
      end
  end.

Definition getAllProjects (redis : option Redis.Reader)
  : result (list parsed) :=
  match redis with
  | None => Throw NOT_CONFIGURED
  | Some redis =>
      let try :=
        let* members := Redis.smembers redis PROJECT_SET_KEY in
        let set := match members with Redis.ReplyArray l => l | _ => [] end in
        if bool_decide (set ≠ []) then
          Ok (Some (Array_sort_parsed (Set_values set)))
        else
          let* items := Redis.lrange redis DEPLOY_KEY 0 (MAX_ITEMS - 1) in
          let* items := array_or_empty items in
          let parsed := omap coerceRecord items in
          let inferred := Set_values ((λ r, of_name (projectName r)) <$> parsed) in
          if bool_decide (inferred ≠ []) then Ok (Some (Array_sort_parsed inferred))
          else Ok None in
      match try with
      | Ok (Some list) => Ok list
      | Ok None => Ok []
      | Throw _ => Ok []
      end
  end.

End WithDate.

End Db.

(** ** The [/api/deploy] route: [GET] and [POST] *)

Module DeployRoute.

Inductive Body : Type :=
| BodyError (error : string)
| BodyRecord (data : DeployRecord)
| BodyRecords (data : list DeployRecord).

Record Response : Type := mkResponse {
  code : Z;
  body : Body;
}.

(** [NextResponse.json({ error: msg }, { status: code })] with its default
    code. *)
Definition bad (msg : string) : Response :=
  {| code := 400; body := BodyError msg |}.

(** [URLSearchParams]: the pairs of the query string, in order. *)
Definition searchParams_getAll (q : list (string * string)) (name : string)
  : list string :=
  snd <$> filter (λ kv, kv.1 = name) q.

Definition searchParams_get (q : list (string * string)) (name : string)
  : option string :=
  head (searchParams_getAll q name).

Definition required : list string :=
  ["title"; "projectName"; "operator"; "environment"; "branch"; "commit"; "status"].

(** The loop over [required]: the first key whose value is falsy. *)
Fixpoint first_missing (body : gmap string value) (keys : list string)
  : option string :=
  match keys with
  | [] => None
  | key :: keys =>
      if negb (truthy (get body key)) then Some key else first_missing body keys
  end.

Section WithBuiltins.

Variable Date_parse : string → option Z.
Variable toISOString : Z → string.
(** [Number(s)] on a string. *)
Variable StringToNumber : string → number.
(** Number::toString on a number whose value is an integer. *)
Variable NumberToString : Z → string.

(** [Number(x)] where [x] is a string or null. *)
Definition Number_ (x : option string) : number :=
  match x with
  | None => of_Z 0
  | Some s => StringToNumber s
  end.

(** Line 593: [Math.max(1, Math.min(50, Number(searchParams.get("limit")) || 20))] *)
Definition GET_limit (q : list (string * string)) : number :=
  Math_max (of_Z 1)
    (Math_min (of_Z 50) (number_or (Number_ (searchParams_get q "limit")) (of_Z 20))).

Definition GET_projects (q : list (string * string)) : option (list string) :=
  let multi := searchParams_getAll q "projectName" in
  let csv := searchParams_get q "projects" in
  if bool_decide (multi ≠ []) then Some multi
  else
    match csv with
    | Some csv =>
        if string_truthy csv
        then Some (filter (λ s, string_truthy s) (trim <$> split "," csv))
        else None
    | None => None
    end.

(** [GET]; a throw of the query is not caught by the handler. *)
Definition GET (redis : option Redis.Reader) (now : Z) (q : list (string * string))
  : result Response :=
  let limit := GET_limit q in
  let projects := GET_projects q in
  let* data := Db.getLatestDeployRecords Date_parse redis now limit projects in
  Ok {| code := 200; body := BodyRecords data |}.

(** The time value of [new Date(v)]. *)
Definition Date_of (v : value) : option Z :=
  match v with
  | Str s => Date_parse s
  | Num n => if Z.abs n <=? 8640000000000000 then Some n else None
  | Bool b => Some (if b then 1 else 0)
  | Null => Some 0
  | Undefined => None
  end.

(** [new Date(v).toISOString()], a RangeError on an invalid date. *)
Definition Date_toISOString (v : value) : result string :=
  match Date_of v with
  | Some t => Ok (toISOString t)
  | None => Throw "Invalid time value"
  end.

(** [(e as Error).message || "invalid json"] *)
Definition message_or (e : string) : string :=
  if string_truthy e then e else "invalid json".

(** [POST]; [req_json] is the outcome of [await req.json()], an object
    or the error of a body that is not JSON. *)
Definition POST (redis : option Redis.Client) (now : Z) (uuid : string)
  (req_json : result (gmap string value)) (st : Redis.Store)
  : Response * Redis.Store :=
  match req_json with
  | Throw e => (bad (message_or e), st)
  | Ok body =>
      match first_missing body required with
      | Some key => (bad ("missing field: " +:+ key), st)
      | None =>
          let deployedAt :=
            if truthy (get body "deployedAt")
            then let* s := Date_toISOString (get body "deployedAt") in Ok (Some s)
            else Ok None in
          match deployedAt with
          | Throw e => (bad (message_or e), st)
          | Ok deployedAt =>
              let payload := {|
                payload_title := String_ NumberToString (get body "title");
                payload_projectName := String_ NumberToString (get body "projectName");
                payload_operator := String_ NumberToString (get body "operator");
                payload_environment := String_ NumberToString (get body "environment");
                payload_branch := String_ NumberToString (get body "branch");
                payload_commit := String_ NumberToString (get body "commit");
                payload_note :=
                  if truthy (get body "note") then Some (String_ NumberToString (get body "note"))
                  else None;
                payload_deployedAt := deployedAt;
                payload_status := get body "status";
              |} in
              match Db.addDeployRecord Date_parse toISOString redis now uuid payload st with
              | (Ok saved, st') => ({| code := 200; body := BodyRecord saved |}, st')
              | (Throw e, st') => (bad (message_or e), st')
              end
          end
      end
  end.

End WithBuiltins.

End DeployRoute.

(** ** The [/api/projects] route *)

Module ProjectsRoute.

Record Response (A : Type) : Type := mkResponse {
  code : Z;
  data : list A;
}.
Arguments mkResponse {A} code data.
Arguments code {A} r.
Arguments data {A} r.

(** [src/app/api/projects/route.ts]; a throw of [getAllProjects] is not
    caught by the handler. *)
Definition GET (redis : option Redis.Reader) : result (Response parsed) :=
  let* data := Db.getAllProjects redis in
  Ok {| code := 200; data := data |}.

Section Legacy.

Variable Date_parse : string → option Z.
Variable StringToNumber : string → number.

(** The earlier handler of the route ([src/unnamed/part_004], and without
    the cache headers [src/unnamed/part_005]): the project names of the
    latest records. *)
Definition legacy_limit (q : list (string * string)) : number :=
  Math_max (of_Z 1)
    (Math_min (of_Z 1000)
       (number_or (DeployRoute.Number_ StringToNumber
                     (DeployRoute.searchParams_get q "limit")) (of_Z 200))).

Definition legacy_GET (redis : option Redis.Reader) (now : Z)
  (q : list (string * string)) : result (Response (option string)) :=
  let limit := legacy_limit q in
  let* records := Db.getLatestDeployRecords Date_parse redis now limit None in
  let projects := Array_sort_default (Set_values (projectName <$> records)) in
  Ok {| code := 200; data := projects |}.

End Legacy.

End ProjectsRoute.

(** ** [clearAllData] and the [/api/clean] route *)

Module Clean.

(** The two commands [clearAllData] sends, with the error each may meet. *)
Inductive command : Type := KEYS | DEL.

Record Client : Type := mkClient {
  fails : command → option Redis.fault;
}.

Definition reliable : Client := {| fails := λ _, None |}.

(** KEYS "*": the keys that hold an entry at the instant [now]. *)
Definition keys (c : Client) (now : Z) : Redis.M (list string) :=
  match fails c KEYS with
  | Some f => Redis.throw (Redis.message f)
  | None =>
      λ st, (Ok (filter (λ k, is_Some (Redis.find st now k)) (map_to_list st).*1), st)
  end.

(** DEL key ...: the keys are removed one after the other, and those that
    held an entry are counted. *)
Definition del_one (now : Z) (acc : Z * Redis.Store) (key : string)
  : Z * Redis.Store :=
  match Redis.find acc.2 now key with
  | Some _ => (acc.1 + 1, delete key acc.2)
  | None => acc
  end.

Definition del (c : Client) (now : Z) (ks : list string) : Redis.M Z :=
  match fails c DEL with
  | Some (Redis.Refused e) => Redis.throw e
  | Some (Redis.ReplyLost e) => λ st, (Throw e, (foldl (del_one now) (0, st) ks).2)
  | None => λ st, let out := foldl (del_one now) (0, st) ks in (Ok out.1, out.2)
  end.

Record Cleared : Type := mkCleared {
  cleared : Z;
  mode : string;
}.

(** [src/lib/db.ts], lines 125-142. *)
Definition clearAllData (redis : option Client) (now : Z) : Redis.M Cleared :=
  Redis.bind
    (match redis with
     | Some redis =>
         Redis.bind (keys redis now) (λ keys,
         if bool_decide (keys ≠ []) then del redis now keys else Redis.ret 0)
     | None => Redis.ret 0
     end) (λ removedRedis,
  let removedFile := 0 in
  let cleared := removedRedis + removedFile in
  let usedRedis := bool_decide (is_Some redis) in
  let usedFile := false in
  let mode :=
    if usedRedis && usedFile then "redis|file"
    else if usedRedis then "redis" else "file" in
  Redis.ret {| cleared := cleared; mode := mode |}).

Inductive Body : Type :=
| BodyOk (cleared : Z) (mode : string)
| BodyError (error : string).

Record Response : Type := mkResponse {
  code : Z;
  body : Body;
}.

(** [src/app/api/clean/route.ts], [POST]. *)
Definition POST (redis : option Client) (now : Z) (st : Redis.Store)
  : Response * Redis.Store :=
  match clearAllData redis now st with
  | (Ok result, st') =>
      ({| code := 200; body := BodyOk (cleared result) (mode result) |}, st')
  | (Throw e, st') =>
      ({| code := 500;
          body := BodyError (if string_truthy e then e else "clean failed") |}, st')
  end.

End Clean.

(** ** The page [src/app/youpik/page.tsx]: what it asks and what it notifies *)

Module Page.

Definition MAX_SHOW : Z := 20.

Definition MAX_SEEN_CACHE : nat := 500.

(** [query]: the parameters of the request [/api/deploy?limit=20&projectName=...],
    as the server decodes them. *)
Definition query_params (seg : list string) : list (string * string) :=
  ("limit", pretty MAX_SHOW) :: ((λ s, ("projectName", s)) <$> seg).

(** The item of [localStorage] under [LS_LAST_NOTIFIED_KEY], by what
    [readSeenIds] finds: nothing; a text that starts with a bracket and
    parses, kept as the array it denotes; or any other text. *)
Inductive item : Type :=
| ItemNull
| ItemArray (arr : list value)
| ItemRaw (raw : string).

Definition readSeenIds (stored : item) : list string :=
  match stored with
  | ItemNull => []
  | ItemArray arr => omap (λ x, match x with Str s => Some s | _ => None end) arr
  | ItemRaw raw => [raw]
  end.

(** An identifier as [JSON.stringify] writes it in an array. *)
Definition id_value (i : option string) : value :=
  match i with
  | Some s => Str s
  | None => Null
  end.

Definition writeSeenIds (ids : list (option string)) : item :=
  let unique := Set_values ids in
  let trimmed := take MAX_SEEN_CACHE unique in
  ItemArray (id_value <$> trimmed).

Inductive Permission : Type := Granted | Denied | Default.

(** What the handler reads of its environment: whether the browser has
    [Notification], its permission, and [NEXT_PUBLIC_BARK_BASE]. *)
Record Window : Type := mkWindow {
  has_Notification : bool;
  permission : Permission;
  barkBase : string;
}.

Inductive Effect : Type :=
| NewNotification (title body : string)
| RequestPermission
| Fetch (url : string)
| SetFaviconsToNewMessage
| MessageError (message : string).

Record State : Type := mkState {
  storage : item;
  suppressNotify : bool;
  lastFirstId : option string;
}.

(** [seen.has(id)] *)
Definition has (seen : list string) (i : option string) : bool :=
  match i with
  | Some s => bool_decide (s ∈ seen)
  | None => false
  end.

(** A template literal around a property that may be undefined. *)
Definition template (x : option string) : string := default "undefined" x.

Section WithEncode.

Variable encodeURIComponent : string → string.

(** The effects of the branch that notifies. *)
Definition notify (w : Window) (data : list DeployRecord) (newIds : list (option string))
  : list Effect :=
  let firstNew :=
    match list_find (λ x, id x ∈ newIds) data with
    | Some (_, x) => Some x
    | None => head data
    end in
  (if has_Notification w then
     match permission w with
     | Granted =>
         [NewNotification (template (firstNew ≫= projectName))
            (template (firstNew ≫= commit))]
     | Denied => []
     | Default => [RequestPermission]
     end
   else [])
  ++ (if string_truthy (barkBase w)
      then [Fetch (barkBase w +:+ encodeURIComponent (template (firstNew ≫= projectName)))]
      else []).

(** [poll], lines 84-133, on the outcome of [query]. *)
Definition poll (w : Window) (st : State) (queried : result (list DeployRecord))
  : State * list Effect :=
  match queried with
  | Throw e => (st, [MessageError e])
  | Ok data =>
      if bool_decide (data ≠ []) then
        let ids := id <$> data in
        let seen := Set_values (readSeenIds (storage st)) in
        let merged := (Some <$> seen) ++ ids in
        let last := mjoin (head ids) in
        if bool_decide (seen = []) then
          ({| storage := writeSeenIds ids;
              suppressNotify := suppressNotify st;
              lastFirstId := last |}, [])
        else
          let newIds := filter (λ i, negb (has seen i)) ids in
          if bool_decide (newIds ≠ []) then
            if suppressNotify st then
              ({| storage := writeSeenIds merged;
                  suppressNotify := false;
                  lastFirstId := last |}, [])
            else
              ({| storage := writeSeenIds merged;
                  suppressNotify := suppressNotify st;
                  lastFirstId := last |},
               notify w data newIds ++ [SetFaviconsToNewMessage])
          else
            ({| storage := writeSeenIds merged;
                suppressNotify := suppressNotify st;
                lastFirstId := last |}, [])
      else (st, [])
  end.

End WithEncode.

End Page.

(** ** A concrete engine, to run the code on examples

    [ISO.toISOString] prints the format [YYYY-MM-DDTHH:mm:ss.sssZ] and
    [ISO.parse] reads that format back (an engine accepts more);
    [Decimal.StringToNumber] converts signed decimal integers, the empty
    string and [Infinity]. *)

Module ISO.

Definition days_from_civil (y m d : Z) : Z :=
  let y := if m <=? 2 then y - 1 else y in
  let era := y / 400 in
  let yoe := y - era * 400 in
  let mp := (m + 9) mod 12 in
  let doy := (153 * mp + 2) / 5 + d - 1 in
  let doe := yoe * 365 + yoe / 4 - yoe / 100 + doy in
  era * 146097 + doe - 719468.

Definition civil_from_days (z : Z) : Z * Z * Z :=
  let z := z + 719468 in
  let era := z / 146097 in
  let doe := z - era * 146097 in
  let yoe := (doe - doe / 1460 + doe / 36524 - doe / 146096) / 365 in
  let doy := doe - (365 * yoe + yoe / 4 - yoe / 100) in
  let mp := (5 * doy + 2) / 153 in
  let d := doy - (153 * mp + 2) / 5 + 1 in
  let m := if mp <? 10 then mp + 3 else mp - 9 in
  let y := yoe + era * 400 in
  (if m <=? 2 then y + 1 else y, m, d).

Definition digit (n : Z) : ascii := ascii_of_nat (48 + Z.to_nat (n mod 10)).

Fixpoint pad (width : nat) (n : Z) (acc : string) : string :=
  match width with
  | O => acc
  | S w => pad w (n / 10) (String (digit n) acc)
  end.

Definition toISOString (t : Z) : string :=
  let '(y, m, d) := civil_from_days (t / 86400000) in
  let ms := t mod 86400000 in
  let year :=
    if (0 <=? y) && (y <=? 9999) then pad 4 y ""
    else (if y <? 0 then "-" else "+") +:+ pad 6 (Z.abs y) "" in
  year +:+ "-" +:+ pad 2 m "" +:+ "-" +:+ pad 2 d ""
    +:+ "T" +:+ pad 2 (ms / 3600000) "" +:+ ":" +:+ pad 2 (ms / 60000 mod 60) ""
    +:+ ":" +:+ pad 2 (ms / 1000 mod 60) "" +:+ "." +:+ pad 3 (ms mod 1000) "" +:+ "Z".

Fixpoint digits_go (s : string) (acc : Z) : option Z :=
  match s with
  | EmptyString => Some acc
  | String c s' =>
      let n := Z.of_nat (nat_of_ascii c) in
      if (48 <=? n) && (n <=? 57) then digits_go s' (acc * 10 + (n - 48)) else None
  end.

Definition digits (s : string) : option Z :=
  match s with
  | EmptyString => None
  | _ => digits_go s 0
  end.

Definition days_in_month (y m : Z) : Z :=
  if m =? 2 then
    if ((y mod 4 =? 0) && negb (y mod 100 =? 0)) || (y mod 400 =? 0) then 29 else 28
  else if (m =? 4) || (m =? 6) || (m =? 9) || (m =? 11) then 30 else 31.

Definition parse (s : string) : option Z :=
  if negb (String.length s =? 24)%nat then None
  else if negb (String.eqb (substring 4 1 s +:+ substring 7 1 s +:+ substring 10 1 s
                  +:+ substring 13 1 s +:+ substring 16 1 s +:+ substring 19 1 s
                  +:+ substring 23 1 s) "--T::.Z") then None
  else
    y ← digits (substring 0 4 s);
    m ← digits (substring 5 2 s);
    d ← digits (substring 8 2 s);
    h ← digits (substring 11 2 s);
    mi ← digits (substring 14 2 s);
    sec ← digits (substring 17 2 s);
    ms ← digits (substring 20 3 s);
    if (1 <=? m) && (m <=? 12) && (1 <=? d) && (d <=? days_in_month y m)
       && (h <=? 23) && (mi <=? 59) && (sec <=? 59)
    then Some (days_from_civil y m d * 86400000
               + h * 3600000 + mi * 60000 + sec * 1000 + ms)
    else None.

End ISO.

Module Decimal.

Definition StringToNumber (s : string) : number :=
  let s := trim s in
  match s with
  | EmptyString => of_Z 0
  | String "-" rest =>
      if String.eqb rest "Infinity" then NegInfinity
      else match ISO.digits rest with Some n => of_Z (- n) | None => NaN end
  | String "+" rest =>
      if String.eqb rest "Infinity" then PosInfinity
      else match ISO.digits rest with Some n => of_Z n | None => NaN end
  | _ =>
      if String.eqb s "Infinity" then PosInfinity
      else match ISO.digits s with Some n => of_Z n | None => NaN end
  end.

(** Number::toString, as far as the samples go: on the integers up to
    2^53 in absolute value, where the engine prints every digit. *)
Definition NumberToString (n : Z) : string := pretty n.

End Decimal.

Abbreviation addDeployRecord := (Db.addDeployRecord ISO.parse ISO.toISOString).
Abbreviation getLatestDeployRecords := (Db.getLatestDeployRecords ISO.parse).
Abbreviation POST := (DeployRoute.POST ISO.parse ISO.toISOString Decimal.NumberToString).


(** ** Vocabulary of the specification *)

(** The project filter, as a property of a record. *)
Definition matches (projectNames : option (list string)) (r : DeployRecord) : Prop :=
  match projectNames with
  | Some ((_ :: _) as names) => ∃ p, projectName r = Some p ∧ p ∈ names
  | _ => True
  end.

(** A storage command that the query executes throws. *)
Definition raises (redis : Redis.Reader) : Prop :=
  (∃ e, Redis.zrange redis DEPLOY_ZSET_KEY 0 (Db.MAX_ITEMS - 1) true = Throw e)
  ∨ (∃ e ids, Redis.zrange redis DEPLOY_ZSET_KEY 0 (Db.MAX_ITEMS - 1) true
                = Ok (Redis.ReplyArray ids)
              ∧ ids ≠ []
              ∧ Redis.mget redis (Db.record_key <$> ids) = Throw e)
  ∨ (∃ e, Redis.lrange redis DEPLOY_KEY 0 (Db.MAX_ITEMS - 1) = Throw e).

(** The version of the record [i] that a source holds: the last one, were
    there several. *)
Definition version (i : option string) (source : list DeployRecord)
  : option DeployRecord :=
  last (filter (λ r, id r = i) source).

(** How many records of a list carry the identifier [i]. *)
Definition occurrences (i : option string) (l : list DeployRecord) : nat :=
  length (filter (λ r, id r = i) l).

(** Ascending order on project names as [sort()] arranges them: strings
    by code units, [undefined] after every string. *)
Definition name_lt (a b : option string) : Prop :=
  match a, b with
  | Some x, Some y => String.ltb x y = true
  | Some _, None => True
  | None, _ => False
  end.

(** The same order on values: [a] is listed strictly before [b] when [a]
    is not [undefined] and [b] is, or is printed by [String] as a greater
    string. *)
Definition listed_before (a b : parsed) : Prop :=
  a ≠ PUndefined
  ∧ (b = PUndefined ∨ String.ltb (String_parsed a) (String_parsed b) = true).

(** A value that is a name: a string, or [undefined]. *)
Definition is_name (v : parsed) : Prop := ∃ name, v = of_name name.

(** The white space of the standard among the code units below 256, by
    code: TAB, LF, VT, FF, CR, SP and NBSP. *)
Definition WhiteSpace : list ascii :=
  ascii_of_nat <$> [9; 10; 11; 12; 13; 32; 160]%nat.

(** A text that holds nothing but commas and white space. *)
Definition blank_list (csv : string) : Prop :=
  ∀ c, c ∈ list_ascii_of_string csv → c = ","%char ∨ c ∈ WhiteSpace.

(** [x] brought into the interval from [lo] to [hi]. *)
Definition clamp (lo hi x : number) : number := Math_max lo (Math_min hi x).

(** A required field counts as missing when the handler's test [!body[key]]
    succeeds: the property is absent, null, empty, zero or false. *)
Definition missing (body : gmap string value) (key : string) : Prop :=
  truthy (get body key) = false.

(** The records a store entry yields when it is read. *)
Definition records_of (e : Redis.entry) : list DeployRecord :=
  match e with
  | Redis.EString v _ => option_list (Db.coerceRecord v)
  | Redis.EList l => omap Db.coerceRecord l
  | _ => []
  end.

(** No record in the store carries the identifier [uuid]. *)
Definition fresh (uuid : string) (st : Redis.Store) : Prop :=
  ∀ k e x, st !! k = Some e → x ∈ records_of e → id x ≠ Some uuid.

(** The three keys the code shares hold, if anything, the kind of value
    the code keeps there. *)
Definition well_typed (st : Redis.Store) : Prop :=
  (st !! DEPLOY_ZSET_KEY = None ∨ ∃ z, st !! DEPLOY_ZSET_KEY = Some (Redis.EZset z))
  ∧ (st !! DEPLOY_KEY = None ∨ ∃ l, st !! DEPLOY_KEY = Some (Redis.EList l))
  ∧ (st !! PROJECT_SET_KEY = None ∨ ∃ s, st !! PROJECT_SET_KEY = Some (Redis.ESet s)).

(** A record as the reads accept it: with an identifier and a
    [deployedAt], neither empty. *)
Definition identified (r : DeployRecord) : Prop :=
  ∃ i d, id r = Some i ∧ i ≠ "" ∧ deployedAt r = Some d ∧ d ≠ "".

(** [a] is at least as new as [b], by the [deployedAt] strings as the
    comparator of the query compares them. *)
Definition at_least_as_new (a b : DeployRecord) : Prop :=
  match deployedAt a, deployedAt b with
  | Some x, Some y => String.le y x
  | _, _ => False
  end.

#[global] Instance at_least_as_new_dec : RelDecision at_least_as_new.
Proof.
  intros a b. unfold at_least_as_new.
  destruct (deployedAt a), (deployedAt b); apply _.
Defined.

(** [a] is newer than [b], by the same comparison. *)
Definition newer (a b : DeployRecord) : Prop :=
  match deployedAt a, deployedAt b with
  | Some x, Some y => String.ltb y x = true
  | _, _ => False
  end.

#[global] Instance newer_dec : RelDecision newer.
Proof.
  intros a b. unfold newer.
  destruct (deployedAt a), (deployedAt b); apply _.
Defined.

(** What a key holds at the instant [now], read as a sorted set, as a
    list or as a set; empty when the key holds nothing of that kind. *)
Definition zset_at (st : Redis.Store) (now : Z) (key : string) : gmap string Z :=
  match Redis.find st now key with
  | Some (Redis.EZset z) => z
  | _ => ∅
  end.

Definition list_at (st : Redis.Store) (now : Z) (key : string) : list raw :=
  match Redis.find st now key with
  | Some (Redis.EList l) => l
  | _ => []
  end.

Definition set_at (st : Redis.Store) (now : Z) (key : string) : gset string :=
  match Redis.find st now key with
  | Some (Redis.ESet s) => s
  | _ => ∅
  end.

(** ** Sample data *)

Module Sample.

(** 2023-11-14T22:13:20.000Z *)
Definition T0 : Z := 1700000000000.

Definition DAY : Z := 86400000.

Definition payload (project : string) (at_ : option string) (st : value)
  : CreateDeployPayload := {|
  payload_title := "deploy";
  payload_projectName := project;
  payload_operator := "alice";
  payload_environment := "prod";
  payload_branch := "main";
  payload_commit := "abc123";
  payload_note := None;
  payload_deployedAt := at_;
  payload_status := st;
|}.

Definition record (i project at_ : string) (st : value) : DeployRecord := {|
  id := Some i;
  title := Some "deploy";
  projectName := Some project;
  operator := Some "alice";
  environment := Some "prod";
  branch := Some "main";
  commit := Some "abc123";
  note := None;
  deployedAt := Some at_;
  status := st;
|}.

(** The body of the scenario of the specification, with a chosen status,
    and the same body without its project name. *)
Definition body (st : value) : gmap string value :=
  list_to_map
    [("title", Str "deploy"); ("projectName", Str "svc-a"); ("operator", Str "alice");
     ("environment", Str "prod"); ("branch", Str "main"); ("commit", Str "abc123");
     ("status", st)].

Definition body_without_project : gmap string value :=
  delete "projectName" (body (Str "success")).

(** Record A, deployed at [T0]; record B, deployed a day before [T0];
    record C, deployed forty days before [T0]. *)
Definition record_a : DeployRecord :=
  record "id-a" "svc-a" "2023-11-14T22:13:20.000Z" (Str "success").

Definition record_b : DeployRecord :=
  record "id-b" "svc-b" "2023-11-13T22:13:20.000Z" (Str "success").

Definition record_c : DeployRecord :=
  record "id-c" "svc-c" "2023-10-05T22:13:20.000Z" (Str "success").

(** The store after A is written at [T0] into an empty store; after B is
    then written; after C is written instead of B. *)
Definition store_a : Redis.Store :=
  (addDeployRecord (Some Redis.reliable) T0 "id-a"
     (payload "svc-a" None (Str "success")) ∅).2.

Definition store_ab : Redis.Store :=
  (addDeployRecord (Some Redis.reliable) T0 "id-b"
     (payload "svc-b" (Some "2023-11-13T22:13:20.000Z") (Str "success")) store_a).2.

Definition store_ac : Redis.Store :=
  (addDeployRecord (Some Redis.reliable) T0 "id-c"
     (payload "svc-c" (Some "2023-10-05T22:13:20.000Z") (Str "success")) store_a).2.

(** A client whose LRANGE fails. *)
Definition flaky : Redis.Client :=
  {| Redis.fails := λ cmd,
       match cmd with
       | Redis.LRANGE => Some (Redis.Refused "fetch failed")
       | _ => None
       end;
     Redis.deserialize := Redis.deserialize_sample |}.

(** Record D, deployed a day after [T0], and the store after D is written
    then into the store that holds A. *)
Definition record_d : DeployRecord :=
  record "id-d" "svc-a" "2023-11-15T22:13:20.000Z" (Str "success").

Definition store_ad : Redis.Store :=
  (addDeployRecord (Some Redis.reliable) (T0 + DAY) "id-d"
     (payload "svc-a" None (Str "success")) store_a).2.

(** The store after a record of the project [[]] and a record of the
    project [[ ]] are written into an empty store. *)
Definition store_brackets : Redis.Store :=
  (addDeployRecord (Some Redis.reliable) T0 "id-f"
     (payload "[ ]" None (Str "success"))
     (addDeployRecord (Some Redis.reliable) T0 "id-e"
        (payload "[]" None (Str "success")) ∅).2).2.

(** A client whose LPUSH fails. *)
Definition lpush_down : Redis.Client :=
  {| Redis.fails := λ cmd,
       match cmd with
       | Redis.LPUSH => Some (Redis.Refused "fetch failed")
       | _ => None
       end;
     Redis.deserialize := Redis.deserialize_sample |}.

(** The store A and B were written to, without its project set. *)
Definition store_ab_unregistered : Redis.Store := delete PROJECT_SET_KEY store_ab.

(** A browser that has granted notifications, with a push address. *)
Definition browser : Page.Window := {|
  Page.has_Notification := true;
  Page.permission := Page.Granted;
  Page.barkBase := "https://api.day.app/key/";
|}.

(** A page that has seen record A; a page whose cache is full, with the
    identifiers [0] to [499]. *)
Definition page_seen_a : Page.State := {|
  Page.storage := Page.writeSeenIds [Some "id-a"];
  Page.suppressNotify := false;
  Page.lastFirstId := Some "id-a";
|}.

Definition page_full : Page.State := {|
  Page.storage := Page.ItemArray ((λ n, Str (pretty (Z.of_nat n))) <$> seq 0 500);
  Page.suppressNotify := false;
  Page.lastFirstId := Some "499";
|}.

End Sample.

(** * Properties *)

(** ** Facts about the builtins *)

Section BuiltinFacts.

Context {A : Type}.
Implicit Types l k : list A.

Lemma submseteq_NoDup l k : l ⊆+ k → NoDup k → NoDup l.
Proof.
  induction 1 as [|x l k Hlk IH|x y l|x l k Hlk IH|l k m _ IH1 _ IH2]; intros Hk.
  - constructor.
  - apply NoDup_cons in Hk as [Hx Hk]. apply NoDup_cons. split; [|auto].
    intros Hin. apply Hx. eapply elem_of_submseteq; eauto.
  - eapply NoDup_Permutation_proper; [apply Permutation_swap|done].
  - apply NoDup_cons in Hk as [_ Hk]. auto.
  - auto.
Qed.

Lemma filter_none (P : A → Prop) `{∀ x, Decision (P x)} l :
  (∀ x, x ∈ l → ¬ P x) → filter P l = [].
Proof.
  induction l as [|x l IH]; intros Hl; [done|].
  rewrite filter_cons_False by (apply Hl, elem_of_cons; by left).
  apply IH. intros y Hy. apply Hl, elem_of_cons. by right.
Qed.

Lemma slice0_take l (e : number) : ∃ n, slice0 l e = take n l.
Proof.
  destruct e as [| |q|]; simpl.
  - by exists 0%nat.
  - by exists 0%nat.
  - eauto.
  - exists (length l). by rewrite take_ge.
Qed.

Lemma slice0_sublist l (e : number) : slice0 l e `sublist_of` l.
Proof. destruct (slice0_take l e) as [n ->]. apply sublist_take. Qed.

Lemma slice0_PosInfinity l : slice0 l PosInfinity = l.
Proof. done. Qed.

Lemma truncate_le (q : Q) : (0 <= q)%Q → (inject_Z (truncate q) <= q)%Q.
Proof.
  intros Hq. destruct q as [n d]. unfold truncate. simpl.
  assert (0 ≤ n) as Hn.
  { unfold Qle in Hq. simpl in Hq. lia. }
  rewrite Z.quot_div_nonneg by lia.
  apply (Qfloor_le (n # d)).
Qed.

Lemma truncate_nonneg (q : Q) : (0 <= q)%Q → 0 ≤ truncate q.
Proof.
  intros Hq. destruct q as [n d]. unfold truncate. simpl.
  assert (0 ≤ n) as Hn.
  { unfold Qle in Hq. simpl in Hq. lia. }
  apply Z.quot_pos; lia.
Qed.

(** [slice(0, end)] with [end >= 1] keeps at most [end] elements. *)
Lemma length_slice0 l (e : number) :
  number_le (of_Z 1) e → number_le (of_Z (Z.of_nat (length (slice0 l e)))) e.
Proof.
  unfold number_le. destruct e as [| |q|]; simpl; try done.
  intros H1%Qle_bool_iff. apply Qle_bool_iff.
  assert (0 <= q)%Q as Hq.
  { eapply Qle_trans; [|exact H1]. done. }
  pose proof (truncate_le q Hq) as Hle. pose proof (truncate_nonneg q Hq) as H0.
  eapply Qle_trans; [|exact Hle].
  rewrite <- Zle_Qle. rewrite length_take.
  destruct (truncate q <? 0) eqn:Hneg; [lia|]. lia.
Qed.

Lemma Array_sort_Permutation (comparefn : A → A → Z) l :
  Array_sort comparefn l ≡ₚ l.
Proof. apply merge_sort_Permutation. Qed.

Lemma elem_of_Array_sort (comparefn : A → A → Z) l x :
  x ∈ Array_sort comparefn l ↔ x ∈ l.
Proof. by rewrite Array_sort_Permutation. Qed.

Context `{EqDecision A}.

Lemma Set_values_spec l :
  NoDup (Set_values l) ∧ ∀ x, x ∈ Set_values l ↔ x ∈ l.
Proof.
  unfold Set_values.
  cut (∀ acc, NoDup acc →
         NoDup (foldl (λ acc x, if decide (x ∈ acc) then acc else acc ++ [x]) acc l)
         ∧ ∀ x, x ∈ foldl (λ acc x, if decide (x ∈ acc) then acc else acc ++ [x]) acc l
                ↔ x ∈ acc ∨ x ∈ l).
  { intros H. destruct (H [] (NoDup_nil_2)) as [Hnd Hin]. split; [done|].
    intros x. rewrite Hin, elem_of_nil. tauto. }
  induction l as [|y l IH]; intros acc Hacc; simpl.
  - split; [done|]. intros x. rewrite elem_of_nil. tauto.
  - destruct (decide (y ∈ acc)) as [Hy|Hy].
    + destruct (IH acc Hacc) as [Hnd Hin]. split; [done|].
      intros x. rewrite Hin, elem_of_cons.
      split; [tauto|]. intros [?|[->|?]]; tauto.
    + destruct (IH (acc ++ [y])) as [Hnd Hin].
      { apply NoDup_app. split_and!; [done| |apply NoDup_singleton].
        intros x Hx ->%list_elem_of_singleton. done. }
      split; [done|]. intros x.
      rewrite Hin, elem_of_app, list_elem_of_singleton, elem_of_cons. tauto.
Qed.

Lemma NoDup_Set_values l : NoDup (Set_values l).
Proof. apply Set_values_spec. Qed.

Lemma elem_of_Set_values l x : x ∈ Set_values l ↔ x ∈ l.
Proof. apply Set_values_spec. Qed.

End BuiltinFacts.

Section MapFacts.

Context {K V : Type} `{EqDecision K}.
Implicit Types m : list (K * V).

Lemma Map_get_set k k' v m :
  Map_get k' (Map_set k v m) = if decide (k = k') then Some v else Map_get k' m.
Proof.
  induction m as [|[k0 v0] m IH]; simpl.
  - repeat case_decide; congruence.
  - destruct (decide (k = k0)) as [->|Hne]; simpl.
    + repeat case_decide; congruence.
    + rewrite IH. repeat case_decide; congruence.
Qed.

Lemma Map_set_keys k v m k' :
  k' ∈ (Map_set k v m).*1 ↔ k' = k ∨ k' ∈ m.*1.
Proof.
  induction m as [|[k0 v0] m IH]; simpl.
  - rewrite list_elem_of_singleton, elem_of_nil. tauto.
  - destruct (decide (k = k0)) as [->|Hne]; simpl.
    + rewrite !elem_of_cons. tauto.
    + rewrite !elem_of_cons, IH. tauto.
Qed.

Lemma NoDup_Map_set k v m : NoDup m.*1 → NoDup (Map_set k v m).*1.
Proof.
  induction m as [|[k0 v0] m IH]; simpl; intros Hnd.
  - apply NoDup_singleton.
  - apply NoDup_cons in Hnd as [Hk0 Hnd].
    destruct (decide (k = k0)) as [->|Hne]; simpl.
    + apply NoDup_cons. done.
    + apply NoDup_cons. split; [|auto].
      rewrite Map_set_keys. intros [?|?]; [congruence|done].
Qed.

Lemma elem_of_Map_get k v m :
  NoDup m.*1 → (k, v) ∈ m ↔ Map_get k m = Some v.
Proof.
  induction m as [|[k0 v0] m IH]; simpl; intros Hnd.
  - rewrite elem_of_nil. split; [tauto|discriminate].
  - apply NoDup_cons in Hnd as [Hk0 Hnd]. rewrite elem_of_cons, (IH Hnd).
    destruct (decide (k = k0)) as [->|Hne].
    + split.
      * intros [[= ->]|Hget]; [done|].
        exfalso. apply Hk0. apply (IH Hnd) in Hget.
        apply list_elem_of_fmap. by exists (k0, v).
      * intros [= ->]. by left.
    + split; [intros [[= ? ?]|?]; [congruence|done] | by right].
Qed.

(** A map filled from a list, each element under its key [f r]: a key
    holds the last element that has it. *)
Lemma Map_get_foldl (f : V → K) (L : list V) m k :
  Map_get k (foldl (λ m r, Map_set (f r) r m) m L)
  = match last (filter (λ r, f r = k) L) with
    | Some v => Some v
    | None => Map_get k m
    end.
Proof.
  revert m. induction L as [|x L IH]; intros m; simpl; [done|].
  rewrite IH, Map_get_set, filter_cons.
  destruct (decide (f x = k)) as [Hx|Hx].
  - rewrite last_cons. by destruct (last _).
  - done.
Qed.

Lemma NoDup_foldl_Map_set (f : V → K) (L : list V) m :
  NoDup m.*1 → NoDup (foldl (λ m r, Map_set (f r) r m) m L).*1.
Proof.
  revert m. induction L as [|x L IH]; intros m Hm; simpl; [done|].
  apply IH. by apply NoDup_Map_set.
Qed.

End MapFacts.

(** ** Facts about the Redis model *)

Section RedisFacts.

Import Redis.

Implicit Types st : Store.

Lemma bind_Ok {A B} (m : M A) (k : A → M B) st b st' :
  bind m k st = (Ok b, st') →
  ∃ a st1, m st = (Ok a, st1) ∧ k a st1 = (Ok b, st').
Proof.
  unfold bind. destruct (m st) as [[a|e] st1]; [eauto|done].
Qed.

Lemma guarded_Ok {A} c cmd (m : M A) st a st' :
  guarded c cmd m st = (Ok a, st') → m st = (Ok a, st').
Proof. unfold guarded, throw. by destruct (fails c cmd) as [[e|e]|]. Qed.

Lemma find_Some st now key e : find st now key = Some e → st !! key = Some e.
Proof.
  unfold find. destruct (st !! key) as [[v [t|]| | |]|]; try done.
  by destruct (now <? t).
Qed.

Lemma find_not_string st now key e :
  st !! key = Some e → (∀ v t, e ≠ EString v t) → find st now key = Some e.
Proof.
  unfold find. intros -> He. destruct e as [v [t|]| | |]; try done.
  by destruct (He v (Some t)).
Qed.

Lemma find_None st now key : st !! key = None → find st now key = None.
Proof. unfold find. by intros ->. Qed.

Lemma set_Ok c now key v ex st u st' :
  set c now key v ex st = (Ok u, st') →
  st' = <[key := EString (RawString v) (Some (now + ex * 1000))]> st.
Proof. intros H%guarded_Ok. injection H as _ <-. done. Qed.

Lemma zadd_Ok c now key score member st u st' :
  zadd c now key score member st = (Ok u, st') →
  is_Some score
  ∧ (∃ z, st' !! key = Some (EZset z))
  ∧ ∀ k, k ≠ key → st' !! k = st !! k.
Proof.
  intros H%guarded_Ok. destruct score as [sc|]; [|done].
  split; [done|].
  destruct (find st now key) as [[| z | |]|]; try done; simplify_eq.
  - split; [rewrite lookup_insert_eq; eauto|].
    intros k Hk. by rewrite lookup_insert_ne.
  - split; [rewrite lookup_insert_eq; eauto|].
    intros k Hk. by rewrite lookup_insert_ne.
Qed.

Lemma zremrangebyscore_Ok c now key lo hi st u st' :
  zremrangebyscore c now key lo hi st = (Ok u, st') →
  ∀ k, k ≠ key → st' !! k = st !! k.
Proof.
  intros H%guarded_Ok k Hk. destruct hi as [hi|]; [|done].
  destruct (find st now key) as [[| z | |]|]; try done; cbv zeta in H;
    simplify_eq; [|done].
  case_decide; [by rewrite lookup_delete_ne|by rewrite lookup_insert_ne].
Qed.

Lemma lpush_Ok c now key v st u st' :
  lpush c now key v st = (Ok u, st') →
  ∃ l, st' = <[key := EList (RawString v :: l)]> st
       ∧ ∀ x, x ∈ l → st !! key = Some (EList l).
Proof.
  intros H%guarded_Ok.
  destruct (find st now key) as [[| | l |]|] eqn:Hfind; try done; simplify_eq.
  - exists l. split; [done|]. intros _ _. by eapply find_Some.
  - exists []. split; [done|]. intros x Hx. by apply elem_of_nil in Hx.
Qed.

Lemma range_cons_0 {A} (x : A) (l : list A) (n : nat) :
  range (x :: l) 0 (Z.of_nat n) = x :: take n l.
Proof.
  unfold range. simpl.
  destruct (Z.ltb_spec (Z.of_nat n) 0) as [Hn|Hn]; [lia|].
  replace (Z.to_nat (Z.of_nat n + 1 - 0)) with (S n) by lia. done.
Qed.

Lemma ltrim_Ok c now key (n : nat) v l st u st' :
  st !! key = Some (EList (v :: l)) →
  ltrim c now key 0 (Z.of_nat n) st = (Ok u, st') →
  st' = <[key := EList (v :: take n l)]> st.
Proof.
  intros Hkey H%guarded_Ok.
  rewrite (find_not_string _ _ _ _ Hkey) in H by done.
  cbv zeta in H. rewrite range_cons_0 in H.
  rewrite decide_False in H by done. by simplify_eq.
Qed.

Lemma sadd_Ok c now key member st u st' :
  sadd c now key member st = (Ok u, st') →
  ∀ k, k ≠ key → st' !! k = st !! k.
Proof.
  intros H%guarded_Ok k Hk.
  destruct (find st now key) as [[| | | s]|]; try done; simplify_eq;
    by rewrite lookup_insert_ne.
Qed.

Lemma zremrangebyscore_zset c now key lo hi st u st' :
  zremrangebyscore c now key lo hi st = (Ok u, st') →
  (∃ z, st !! key = Some (EZset z)) →
  st' !! key = None ∨ ∃ z, st' !! key = Some (EZset z).
Proof.
  intros H%guarded_Ok [z Hz]. destruct hi as [hi|]; [|done].
  rewrite (find_not_string _ _ _ _ Hz) in H by done. cbv zeta in H.
  simplify_eq. case_decide.
  - left. apply lookup_delete_eq.
  - right. rewrite lookup_insert_eq. eauto.
Qed.

(** A command of the reliable client returns once the key holds nothing
    or a value of the kind the command works on. *)
Ltac returns_on_kind :=
  let Hk := fresh "Hk" in
  unfold zadd, zremrangebyscore, lpush, ltrim, sadd, guarded; simpl;
  intros [Hk|[? Hk]];
  [rewrite (find_None _ _ _ Hk) | rewrite (find_not_string _ _ _ _ Hk) by done];
  eauto.

Lemma zadd_reliable now key sc member (st : Store) :
  st !! key = None ∨ (∃ z, st !! key = Some (EZset z)) →
  ∃ st', zadd reliable now key (Some sc) member st = (Ok (), st').
Proof. returns_on_kind. Qed.

Lemma zremrangebyscore_reliable now key lo hi (st : Store) :
  st !! key = None ∨ (∃ z, st !! key = Some (EZset z)) →
  ∃ st', zremrangebyscore reliable now key lo (Some hi) st = (Ok (), st').
Proof. returns_on_kind. Qed.

Lemma lpush_reliable now key v (st : Store) :
  st !! key = None ∨ (∃ l, st !! key = Some (EList l)) →
  ∃ st', lpush reliable now key v st = (Ok (), st').
Proof. returns_on_kind. Qed.

Lemma ltrim_reliable now key start stop (st : Store) :
  st !! key = None ∨ (∃ l, st !! key = Some (EList l)) →
  ∃ st', ltrim reliable now key start stop st = (Ok (), st').
Proof. returns_on_kind. Qed.

Lemma sadd_reliable now key member (st : Store) :
  st !! key = None ∨ (∃ s, st !! key = Some (ESet s)) →
  ∃ st', sadd reliable now key member st = (Ok (), st').
Proof. returns_on_kind. Qed.

End RedisFacts.

(** ** Facts about [src/lib/db.ts] *)

Section DbFacts.

Variable Date_parse : string → option Z.

Lemma mergeById_foldl fromList fromZset :
  Db.mergeById fromList fromZset
  = foldl (λ byId r, Map_set (id r) r byId) [] (fromList ++ fromZset).
Proof. unfold Db.mergeById. by rewrite foldl_app. Qed.

Lemma NoDup_mergeById fromList fromZset :
  NoDup (Db.mergeById fromList fromZset).*1.
Proof.
  rewrite mergeById_foldl. apply NoDup_foldl_Map_set. simpl. constructor.
Qed.

(** The merged map holds, under an id, the last record with that id of
    the list followed by the index. *)
Lemma elem_of_mergeById fromList fromZset i r :
  (i, r) ∈ Db.mergeById fromList fromZset
  ↔ last (filter (λ x, id x = i) (fromList ++ fromZset)) = Some r.
Proof.
  rewrite elem_of_Map_get by apply NoDup_mergeById.
  rewrite mergeById_foldl, Map_get_foldl. simpl.
  by destruct (last _).
Qed.

Lemma mergeById_key fromList fromZset i r :
  (i, r) ∈ Db.mergeById fromList fromZset → id r = i.
Proof.
  rewrite elem_of_mergeById. intros Hlast%last_Some_elem_of.
  by apply list_elem_of_filter in Hlast as [? _].
Qed.

Lemma mergeById_ids fromList fromZset :
  id <$> Map_values (Db.mergeById fromList fromZset)
  = (Db.mergeById fromList fromZset).*1.
Proof.
  unfold Map_values. rewrite <- list_fmap_compose.
  apply list_fmap_ext. intros n [i r] Hn. simpl.
  eapply mergeById_key, list_elem_of_lookup_2, Hn.
Qed.

Lemma NoDup_mergeById_ids fromList fromZset :
  NoDup (id <$> Map_values (Db.mergeById fromList fromZset)).
Proof. rewrite mergeById_ids. apply NoDup_mergeById. Qed.

Lemma elem_of_mergeById_values fromList fromZset r :
  r ∈ Map_values (Db.mergeById fromList fromZset)
  ↔ last (filter (λ x, id x = id r) (fromList ++ fromZset)) = Some r.
Proof.
  unfold Map_values. rewrite list_elem_of_fmap. split.
  - intros [[i r'] [-> Hin]]. simpl.
    pose proof (mergeById_key _ _ _ _ Hin) as ->.
    by apply elem_of_mergeById.
  - intros Hlast. exists (id r, r). split; [done|]. by apply elem_of_mergeById.
Qed.

Lemma slice0_nil {A} (e : number) : slice0 (@nil A) e = [].
Proof. destruct (slice0_take (@nil A) e) as [n ->]. by destruct n. Qed.

(** What lines 87-92 select from the merged map: the records that are
    recent and match the filter, in some order ([full]), cut at [limit]. *)
Lemma selectLatest_spec min projectNames byId :
  ∃ full,
    (∀ r, r ∈ full ↔
          r ∈ Map_values byId ∧ Db.recent Date_parse min r = true
          ∧ matches projectNames r)
    ∧ full ⊆+ Map_values byId
    ∧ ∀ limit, default [] (Db.selectLatest Date_parse min limit projectNames byId)
               = slice0 full limit.
Proof.
  unfold Db.selectLatest.
  set (recent := filter (λ r, Db.recent Date_parse min r) (Map_values byId)).
  set (normalized := match projectNames with
                     | Some names =>
                         if bool_decide (names = []) then None
                         else Some (Set_values names)
                     | None => None
                     end).
  set (list := match normalized with
               | Some normalized => filter (λ x, Db.has_project normalized x) recent
               | None => recent
               end).
  exists (Array_sort Db.newest_first list). split_and!.
  - intros r. rewrite elem_of_Array_sort.
    assert (r ∈ recent ↔ r ∈ Map_values byId ∧ Db.recent Date_parse min r = true)
      as Hrecent.
    { unfold recent. rewrite list_elem_of_filter, Is_true_true. tauto. }
    unfold list, normalized, matches.
    destruct projectNames as [[|p0 names]|]; simpl; [tauto| |tauto].
    rewrite list_elem_of_filter, Hrecent, Is_true_true.
    unfold Db.has_project. destruct (projectName r) as [p|].
    + rewrite bool_decide_eq_true, elem_of_Set_values.
      split; [intros [? ?]; split_and!; [tauto..|eauto]|].
      intros (? & ? & q & [= <-] & ?). tauto.
    + split; [intros [[=] _]|]. intros (_ & _ & q & [=] & _).
  - rewrite Array_sort_Permutation. unfold list.
    assert (recent ⊆+ Map_values byId) as Hrecent.
    { apply sublist_submseteq, sublist_filter. }
    destruct normalized; [|done].
    etrans; [|exact Hrecent]. apply sublist_submseteq, sublist_filter.
  - intros limit. case_bool_decide as Hnil; simpl; [|done].
    by rewrite Hnil, slice0_nil.
Qed.

(** The outcome of the query in terms of the two sources it reads. *)
Lemma getLatest_spec redis now projectNames fromZset fromList :
  Db.readZset redis = Ok fromZset →
  Db.readList redis = Ok fromList →
  ∃ full,
    (∀ r, r ∈ full ↔
          r ∈ Map_values (Db.mergeById fromList fromZset)
          ∧ Db.recent Date_parse (now - Db.THIRTY_DAYS_MS) r = true
          ∧ matches projectNames r)
    ∧ full ⊆+ Map_values (Db.mergeById fromList fromZset)
    ∧ ∀ limit, Db.getLatestDeployRecords Date_parse (Some redis) now limit projectNames
               = Ok (slice0 full limit).
Proof.
  intros HZ HL.
  destruct (selectLatest_spec (now - Db.THIRTY_DAYS_MS) projectNames
              (Db.mergeById fromList fromZset)) as (full & Hin & Hsub & Hsel).
  exists full. split_and!; [done..|].
  intros limit. unfold Db.getLatestDeployRecords. rewrite HZ, HL. simpl.
  rewrite <- Hsel. by destruct (Db.selectLatest _ _ _ _ _).
Qed.

(** A throw inside the [try] block is swallowed. *)
Lemma getLatest_catch redis now limit projectNames :
  (∃ e, Db.readZset redis = Throw e) ∨ (∃ e, Db.readList redis = Throw e) →
  Db.getLatestDeployRecords Date_parse (Some redis) now limit projectNames = Ok [].
Proof.
  unfold Db.getLatestDeployRecords.
  intros [[e ->]|[e ->]]; simpl; [done|].
  by destruct (Db.readZset redis).
Qed.

(** With a client, the query always returns, and what it returns is cut
    from the merged, recent, matching records. *)
Lemma getLatest_Some redis now limit projectNames :
  ∃ l, Db.getLatestDeployRecords Date_parse (Some redis) now limit projectNames = Ok l
       ∧ ∃ full, l = slice0 full limit
           ∧ NoDup (id <$> full)
           ∧ ∀ r, r ∈ full → Db.recent Date_parse (now - Db.THIRTY_DAYS_MS) r = true
                             ∧ matches projectNames r.
Proof.
  destruct (Db.readZset redis) as [fromZset|e] eqn:HZ.
  - destruct (Db.readList redis) as [fromList|e] eqn:HL.
    + destruct (getLatest_spec redis now projectNames _ _ HZ HL)
        as (full & Hin & Hsub & Hget).
      exists (slice0 full limit). split; [done|]. exists full. split_and!; [done| |].
      * eapply submseteq_NoDup; [|apply (NoDup_mergeById_ids fromList fromZset)].
        by apply fmap_submseteq.
      * intros r Hr. apply Hin in Hr. tauto.
    + exists []. split; [apply getLatest_catch; eauto|].
      exists []. rewrite slice0_nil. split_and!; [done|constructor|].
      intros r Hr. by apply elem_of_nil in Hr.
  - exists []. split; [apply getLatest_catch; eauto|].
    exists []. rewrite slice0_nil. split_and!; [done|constructor|].
    intros r Hr. by apply elem_of_nil in Hr.
Qed.

End DbFacts.

Section WriteFacts.

Variable Date_parse : string → option Z.
Variable toISOString : Z → string.

Lemma record_key_inj (a b : string) : Db.record_key a = Db.record_key b → a = b.
Proof. unfold Db.record_key. apply (inj _). Qed.

Lemma record_key_not_index (m : string) : Db.record_key m ≠ DEPLOY_ZSET_KEY.
Proof. intros H. vm_compute in H. discriminate. Qed.

Lemma record_key_not_list (m : string) : Db.record_key m ≠ DEPLOY_KEY.
Proof. intros H. vm_compute in H. discriminate. Qed.

Lemma record_key_not_projects (m : string) : Db.record_key m ≠ PROJECT_SET_KEY.
Proof. intros H. vm_compute in H. discriminate. Qed.

(** What a successful [addDeployRecord] returned and left in the store. *)
Lemma addDeployRecord_inv c now uuid payload (st : Redis.Store) r st' :
  Db.addDeployRecord Date_parse toISOString (Some c) now uuid payload st = (Ok r, st') →
  (id r = Some uuid
   ∧ deployedAt r
     = Some (Db.resolveDeployedAt Date_parse toISOString now (payload_deployedAt payload))
   ∧ projectName r = Some (payload_projectName payload)
   ∧ status r = payload_status payload)
  ∧ is_Some (Db.getTime Date_parse (deployedAt r))
  ∧ (∀ m, st' !! Db.record_key m
          = if decide (m = uuid)
            then Some (Redis.EString (RawString (JsonRecord r))
                         (Some (now + 2592000000)))
            else st !! Db.record_key m)
  ∧ (∃ rest, st' !! DEPLOY_KEY = Some (Redis.EList (RawString (JsonRecord r) :: rest))
             ∧ ∀ x, x ∈ rest →
                    ∃ l, st !! DEPLOY_KEY = Some (Redis.EList l) ∧ x ∈ l)
  ∧ (st' !! DEPLOY_ZSET_KEY = None
     ∨ ∃ z, st' !! DEPLOY_ZSET_KEY = Some (Redis.EZset z)).
Proof.
  unfold Db.addDeployRecord.
  set (record := mkDeployRecord _ _ _ _ _ _ _ _ _ _).
  intros H.
  apply bind_Ok in H as (u1 & st1 & H1 & H). apply set_Ok in H1.
  apply bind_Ok in H as (u2 & st2 & H2 & H).
  apply zadd_Ok in H2 as (Hscore & Hz2 & Hf2).
  apply bind_Ok in H as (u3 & st3 & H3 & H).
  pose proof (zremrangebyscore_Ok _ _ _ _ _ _ _ _ H3) as Hf3.
  pose proof (zremrangebyscore_zset _ _ _ _ _ _ _ _ H3 Hz2) as Hz3.
  apply bind_Ok in H as (u4 & st4 & H4 & H).
  apply lpush_Ok in H4 as (l0 & -> & Hl0).
  apply bind_Ok in H as (u5 & st5 & H5 & H).
  change (Db.MAX_ITEMS - 1) with (Z.of_nat 199) in H5.
  eapply ltrim_Ok in H5; [|apply lookup_insert_eq].
  rewrite insert_insert_eq in H5.
  apply bind_Ok in H as (u6 & st6 & H6 & H).
  pose proof (sadd_Ok _ _ _ _ _ _ _ H6) as Hf6.
  unfold Redis.ret in H. injection H as <- <-.
  split_and!; [done..| | |].
  - intros m.
    rewrite Hf6 by apply record_key_not_projects.
    rewrite H5, lookup_insert_ne by (symmetry; apply record_key_not_list).
    rewrite Hf3, Hf2 by apply record_key_not_index.
    rewrite H1, lookup_insert.
    destruct (decide (m = uuid)) as [->|Hm].
    + by rewrite decide_True.
    + rewrite decide_False; [done|]. intros Heq%record_key_inj. congruence.
  - exists (take 199 l0). split.
    + rewrite Hf6 by done. rewrite H5. apply lookup_insert_eq.
    + intros x Hx.
      assert (x ∈ l0) as Hx0 by (eapply elem_of_sublist; [exact Hx|apply sublist_take]).
      exists l0. split; [|done].
      rewrite <- (Hl0 x) by done.
      rewrite Hf3, Hf2 by done. rewrite H1.
      by rewrite lookup_insert_ne by apply record_key_not_list.
  - rewrite Hf6 by done. rewrite H5. by rewrite lookup_insert_ne.
Qed.

(** With a client whose commands do not fail, a store whose shared keys
    hold the right kind of value, and a resolved timestamp that is a date,
    [addDeployRecord] returns. *)
Lemma addDeployRecord_succeeds now uuid payload (st : Redis.Store) :
  well_typed st →
  is_Some (Date_parse (Db.resolveDeployedAt Date_parse toISOString now
                         (payload_deployedAt payload))) →
  ∃ r st',
    Db.addDeployRecord Date_parse toISOString (Some Redis.reliable) now uuid payload st
    = (Ok r, st').
Proof.
  intros (Hz & Hl & Hs) [score Hscore].
  unfold Db.addDeployRecord.
  set (record := mkDeployRecord _ _ _ _ _ _ _ _ _ _).
  assert (Db.getTime Date_parse (deployedAt record) = Some score) as -> by done.
  set (st1 := <[Db.record_key uuid :=
                  Redis.EString (RawString (JSON_stringify record))
                    (Some (now + Db.THIRTY_DAYS_MS / 1000 * 1000))]> st).
  assert (∀ k, k ≠ Db.record_key uuid → st1 !! k = st !! k) as Hf1.
  { intros k Hk. unfold st1. by rewrite lookup_insert_ne. }
  destruct (zadd_reliable now DEPLOY_ZSET_KEY score uuid st1) as [st2 H2].
  { rewrite Hf1 by (symmetry; apply record_key_not_index). done. }
  destruct (zadd_Ok _ _ _ _ _ _ _ _ H2) as (_ & Hz2 & Hf2).
  destruct (zremrangebyscore_reliable now DEPLOY_ZSET_KEY 0
              (score - Db.THIRTY_DAYS_MS - 1) st2) as [st3 H3]; [by right|].
  pose proof (zremrangebyscore_Ok _ _ _ _ _ _ _ _ H3) as Hf3.
  destruct (lpush_reliable now DEPLOY_KEY (JSON_stringify record) st3) as [st4 H4].
  { rewrite Hf3, Hf2 by done.
    rewrite Hf1 by (symmetry; apply record_key_not_list). done. }
  destruct (lpush_Ok _ _ _ _ _ _ _ H4) as (l0 & Hst4 & _).
  destruct (ltrim_reliable now DEPLOY_KEY 0 (Db.MAX_ITEMS - 1) st4) as [st5 H5].
  { right. rewrite Hst4, lookup_insert_eq. eauto. }
  change (Db.MAX_ITEMS - 1) with (Z.of_nat 199) in H5.
  assert (st5 !! PROJECT_SET_KEY = st !! PROJECT_SET_KEY) as Hset.
  { eapply ltrim_Ok in H5 as ->; [|rewrite Hst4; apply lookup_insert_eq].
    rewrite lookup_insert_ne, Hst4, lookup_insert_ne by done.
    rewrite Hf3, Hf2 by done.
    by rewrite Hf1 by (symmetry; apply record_key_not_projects). }
  destruct (sadd_reliable now PROJECT_SET_KEY (payload_projectName payload) st5)
    as [st6 H6]; [by rewrite Hset|].
  exists record, st6. unfold Redis.bind.
  change (Redis.set Redis.reliable now (Db.record_key uuid) (JSON_stringify record)
            (Db.THIRTY_DAYS_MS / 1000) st) with (@Ok unit (), st1).
  simpl. rewrite H2, H3, H4.
  change (Db.MAX_ITEMS - 1) with (Z.of_nat 199). by rewrite H5, H6.
Qed.

End WriteFacts.

(** ** The query [getLatestDeployRecords] *)

(** Claim C2.  Whatever the store answers, whatever the limit and the
    project filter: a record whose [deployedAt] lies more than thirty days
    before [now] is not in the list the query returns. *)
Theorem getLatest_excludes_expired Date_parse redis now limit projectNames l r t :
  Db.getTime Date_parse (deployedAt r) = Some t →
  t < now - Db.THIRTY_DAYS_MS →
  Db.getLatestDeployRecords Date_parse redis now limit projectNames = Ok l →
  r ∉ l.
Proof.
  intros Ht Hold Hget Hin. destruct redis as [redis|]; [|done].
  destruct (getLatest_Some Date_parse redis now limit projectNames)
    as (l' & Hl' & full & -> & _ & Hfull).
  rewrite Hl' in Hget. injection Hget as <-.
  apply (elem_of_sublist _ full) in Hin; [|apply slice0_sublist].
  apply Hfull in Hin as [Hrecent _].
  unfold Db.recent in Hrecent. rewrite Ht in Hrecent.
  apply Z.leb_le in Hrecent. lia.
Qed.

(** Claim C9.  For a limit of at least one, the query returns at most
    [limit] records. *)
Theorem getLatest_length Date_parse redis now limit projectNames l :
  number_le (of_Z 1) limit →
  Db.getLatestDeployRecords Date_parse redis now limit projectNames = Ok l →
  number_le (of_Z (Z.of_nat (length l))) limit.
Proof.
  intros Hlimit Hget. destruct redis as [redis|]; [|done].
  destruct (getLatest_Some Date_parse redis now limit projectNames)
    as (l' & Hl' & full & -> & _).
  rewrite Hl' in Hget. injection Hget as <-.
  by apply length_slice0.
Qed.

Lemma raises_caught redis :
  raises redis →
  (∃ e, Db.readZset redis = Throw e) ∨ (∃ e, Db.readList redis = Throw e).
Proof.
  unfold raises, Db.readZset, Db.readList.
  intros [[e ->]|[(e & ids & -> & Hids & Hmget)|[e ->]]]; simpl; eauto.
  left. rewrite bool_decide_eq_false_2.
  - rewrite Hmget. eauto.
  - by destruct ids.
Qed.

(** Claim C5.  Without a client the query throws; with a client it always
    returns a list, and that list is empty as soon as one of the storage
    commands it executes throws. *)
Theorem getLatest_swallows_failures Date_parse now limit projectNames :
  Db.getLatestDeployRecords Date_parse None now limit projectNames
  = Throw Db.NOT_CONFIGURED
  ∧ ∀ redis,
      (∃ l, Db.getLatestDeployRecords Date_parse (Some redis) now limit projectNames
            = Ok l)
      ∧ (raises redis →
         Db.getLatestDeployRecords Date_parse (Some redis) now limit projectNames
         = Ok []).
Proof.
  split; [done|]. intros redis. split.
  - destruct (getLatest_Some Date_parse redis now limit projectNames)
      as (l & Hl & _). eauto.
  - intros Hraise. by apply getLatest_catch, raises_caught.
Qed.

(** Claim C6, as amended.  When the index and the legacy list both hold a
    record with the identifier [i], the returned list has no two records
    with the same identifier, a record with identifier [i] in it is the
    version of the index, and that version is returned by the unbounded
    query whenever it is recent and matches the project filter; the
    bounded query returns the first [limit] of those. *)
Theorem getLatest_index_wins Date_parse redis now limit projectNames
    fromZset fromList l i :
  Db.readZset redis = Ok fromZset →
  Db.readList redis = Ok fromList →
  (∃ a, a ∈ fromZset ∧ id a = i) →
  (∃ b, b ∈ fromList ∧ id b = i) →
  Db.getLatestDeployRecords Date_parse (Some redis) now limit projectNames = Ok l →
  ∃ z, version i fromZset = Some z
       ∧ NoDup (id <$> l)
       ∧ (occurrences i l ≤ 1)%nat
       ∧ (∀ r, r ∈ l → id r = i → r = z)
       ∧ (Db.recent Date_parse (now - Db.THIRTY_DAYS_MS) z = true →
          matches projectNames z →
          ∃ full,
            Db.getLatestDeployRecords Date_parse (Some redis) now PosInfinity
              projectNames = Ok full
            ∧ occurrences i full = 1%nat
            ∧ l = slice0 full limit).
Proof.
  intros HZ HL (a & Ha & Hia) _ Hget.
  destruct (getLatest_spec Date_parse redis now projectNames _ _ HZ HL)
    as (full & Hin & Hsub & Hfull).
  rewrite Hfull in Hget. injection Hget as <-.
  assert (is_Some (version i fromZset)) as [z Hz].
  { unfold version. apply last_is_Some. intros Hnil.
    assert (a ∈ filter (λ r, id r = i) fromZset) as Hmem
      by by apply list_elem_of_filter.
    rewrite Hnil in Hmem. by apply elem_of_nil in Hmem. }
  assert (version i (fromList ++ fromZset) = Some z) as Hmerged.
  { unfold version in *. by rewrite filter_app, last_app, Hz. }
  assert (id z = i) as Hiz.
  { unfold version in Hz. apply last_Some_elem_of in Hz.
    by apply list_elem_of_filter in Hz as [? _]. }
  assert (NoDup (id <$> full)) as Hnd.
  { eapply submseteq_NoDup; [|apply (NoDup_mergeById_ids fromList fromZset)].
    by apply fmap_submseteq. }
  assert (∀ k, NoDup (id <$> k) → ∀ r, r ∈ k → id r = i → r = z → occurrences i k = 1%nat)
    as Hone.
  { intros k Hk r Hr Hir ->. unfold occurrences.
    apply list_elem_of_split in Hr as (k1 & k2 & ->).
    rewrite fmap_app, fmap_cons in Hk. apply NoDup_app in Hk as (_ & Hk1 & Hk2).
    apply NoDup_cons in Hk2 as [Hk2 _].
    rewrite filter_app, filter_cons_True by done.
    rewrite (filter_none _ k1), (filter_none _ k2); [done| |].
    - intros x Hx Hix. apply Hk2.
      apply list_elem_of_fmap. exists x. split; [congruence|done].
    - intros x Hx Hix. apply (Hk1 (id x)).
      + by apply list_elem_of_fmap_2.
      + rewrite Hix, <- Hir. apply elem_of_cons. by left. }
  assert (∀ r, r ∈ full → id r = i → r = z) as Hversion.
  { intros r Hr Hir. apply Hin in Hr as (Hr & _).
    apply elem_of_mergeById_values in Hr. rewrite Hir in Hr.
    unfold version in Hmerged. congruence. }
  assert (slice0 full limit `sublist_of` full) as Hcut by apply slice0_sublist.
  assert (NoDup (id <$> slice0 full limit)) as Hnd'.
  { apply (sublist_NoDup _ (id <$> full)); [exact Hnd|]. by apply fmap_sublist. }
  exists z. split_and!; [done|done| | |].
  - destruct (filter (λ r, id r = i) (slice0 full limit)) as [|r k] eqn:Hf.
    + unfold occurrences. rewrite Hf. simpl. lia.
    + assert (r ∈ filter (λ r, id r = i) (slice0 full limit)) as Hr.
      { rewrite Hf. apply elem_of_cons. by left. }
      apply list_elem_of_filter in Hr as [Hir Hr].
      rewrite (Hone _ Hnd' r Hr Hir); [lia|].
      apply Hversion; [|done]. eapply elem_of_sublist; eauto.
  - intros r Hr Hir. apply Hversion; [|done]. eapply elem_of_sublist; eauto.
  - intros Hrecent Hmatch. exists full. split_and!; [by rewrite Hfull| |done].
    apply (Hone _ Hnd z); [|done..].
    apply Hin. split_and!; [|done..].
    apply elem_of_mergeById_values. rewrite Hiz. exact Hmerged.
Qed.

(** ** The project list [getAllProjects] *)

Lemma string_le_neq_lt (x y : string) : String.le x y → x ≠ y → String.ltb x y = true.
Proof.
  unfold String.le, String.leb, String.ltb. intros Hle Hne.
  destruct (String.compare x y) eqn:Hc; [|done|done].
  by apply String.compare_eq_iff in Hc.
Qed.

Lemma StronglySorted_strict (l : list string) :
  StronglySorted String.le l → NoDup l →
  StronglySorted (λ x y, String.ltb x y = true) l.
Proof.
  induction 1 as [|x l Hl IH Hx]; intros Hnd; constructor.
  - apply IH. by apply NoDup_cons in Hnd as [_ ?].
  - apply NoDup_cons in Hnd as [Hxl _].
    rewrite Forall_forall in *. intros y Hy.
    apply string_le_neq_lt; [by apply Hx|]. intros ->. done.
Qed.

Lemma name_lt_irrefl (a : option string) : ¬ name_lt a a.
Proof.
  destruct a as [x|]; simpl; [|tauto]. unfold String.ltb.
  destruct (String.compare x x) eqn:Hc; try done.
  pose proof (String.compare_antisym x x) as Ha. rewrite Hc in Ha. done.
Qed.

Lemma StronglySorted_name_lt_NoDup (l : list (option string)) :
  StronglySorted name_lt l → NoDup l.
Proof.
  induction 1 as [|x l Hl IH Hx]; constructor; [|done].
  intros Hin. rewrite Forall_forall in Hx.
  by apply (name_lt_irrefl x), Hx.
Qed.

Lemma NoDup_omap_id {A} (l : list (option A)) : NoDup l → NoDup (omap Datatypes.id l).
Proof.
  induction 1 as [|[x|] l Hx Hl IH]; simpl; [constructor| |done].
  constructor; [|done]. intros Hin.
  apply list_elem_of_omap in Hin as (y & Hy & Hyx). simpl in Hyx. by subst.
Qed.

(** [sort()] puts a duplicate-free list of names in strictly ascending
    order. *)
Lemma Array_sort_default_sorted (l : list (option string)) :
  NoDup l → StronglySorted name_lt (Array_sort_default l).
Proof.
  intros Hnd. unfold Array_sort_default. apply StronglySorted_app_2.
  - intros a b Ha Hb.
    apply list_elem_of_fmap in Ha as (x & -> & _).
    apply list_elem_of_filter in Hb as [-> _]. done.
  - apply (StronglySorted_fmap _ (λ x y, String.ltb x y = true)); [done|].
    apply StronglySorted_strict.
    + apply StronglySorted_merge_sort; apply _.
    + rewrite merge_sort_Permutation. by apply NoDup_omap_id.
  - assert (NoDup (filter (λ o : option string, o = None) l)) as Hnones
      by by apply NoDup_filter.
    assert (∀ o, o ∈ filter (λ o : option string, o = None) l → o = None) as Hall.
    { intros o Ho. by apply list_elem_of_filter in Ho as [? _]. }
    destruct (filter _ l) as [|a [|b k]]; [constructor|repeat constructor|].
    exfalso. apply NoDup_cons in Hnones as [Hab _]. apply Hab.
    rewrite (Hall a), (Hall b); [by left|by right; left|by left].
Qed.

Lemma elem_of_Array_sort_parsed (l : list parsed) (v : parsed) :
  v ∈ Array_sort_parsed l ↔ v ∈ l.
Proof.
  unfold Array_sort_parsed.
  rewrite elem_of_app, merge_sort_Permutation, !list_elem_of_filter.
  destruct (decide (v = PUndefined)); tauto.
Qed.

#[local] Instance parsed_le_total : Total parsed_le.
Proof. intros a b. unfold parsed_le. apply total, _. Qed.

#[local] Instance parsed_le_trans : Transitive parsed_le.
Proof. intros a b c. unfold parsed_le. apply transitivity. Qed.

Lemma String_parsed_name_inj (a b : parsed) :
  is_name a → is_name b → a ≠ PUndefined → b ≠ PUndefined →
  String_parsed a = String_parsed b → a = b.
Proof.
  intros [[x|] ->] [[y|] ->]; simpl; try done. by intros _ _ ->.
Qed.

(** [sort()] puts a duplicate-free list of names in strictly ascending
    order, [undefined] last. *)
Lemma Array_sort_parsed_sorted (l : list parsed) :
  NoDup l → (∀ v, v ∈ l → is_name v) →
  StronglySorted listed_before (Array_sort_parsed l).
Proof.
  intros Hnd Hnames. unfold Array_sort_parsed. apply StronglySorted_app_2.
  - intros a b Ha Hb. rewrite merge_sort_Permutation in Ha.
    apply list_elem_of_filter in Ha as [Ha _].
    apply list_elem_of_filter in Hb as [-> _]. split; [done|by left].
  - set (defined := filter (λ v, v ≠ PUndefined) l).
    assert (NoDup (merge_sort parsed_le defined)) as Hnd'.
    { rewrite merge_sort_Permutation. by apply NoDup_filter. }
    assert (∀ v, v ∈ merge_sort parsed_le defined → is_name v ∧ v ≠ PUndefined)
      as Hall.
    { intros v Hv. rewrite merge_sort_Permutation in Hv.
      apply list_elem_of_filter in Hv as [? ?]. auto. }
    pose proof (StronglySorted_merge_sort parsed_le defined) as Hsorted.
    induction Hsorted as [|x k Hk IH Hx]; constructor.
    + apply IH; [by apply NoDup_cons in Hnd' as [_ ?]|].
      intros v Hv. apply Hall. by right.
    + apply NoDup_cons in Hnd' as [Hxk _]. rewrite Forall_forall in *.
      intros y Hy. destruct (Hall x) as [Hx_name Hx_def]; [by left|].
      destruct (Hall y) as [Hy_name Hy_def]; [by right|].
      split; [done|]. right. apply string_le_neq_lt; [by apply Hx|].
      intros Heq. apply Hxk.
      by rewrite (String_parsed_name_inj x y Hx_name Hy_name Hx_def Hy_def Heq).
  - assert (NoDup (filter (λ v : parsed, v = PUndefined) l)) as Hnones
      by by apply NoDup_filter.
    assert (∀ v, v ∈ filter (λ v : parsed, v = PUndefined) l → v = PUndefined) as Hall.
    { intros v Hv. by apply list_elem_of_filter in Hv as [? _]. }
    destruct (filter _ l) as [|a [|b k]]; [constructor|repeat constructor|].
    exfalso. apply NoDup_cons in Hnones as [Hab _]. apply Hab.
    rewrite (Hall a), (Hall b); [by left|by right; left|by left].
Qed.

Lemma listed_before_irrefl (a : parsed) : ¬ listed_before a a.
Proof.
  intros [Ha [?|Hlt]]; [done|]. unfold String.ltb in Hlt.
  destruct (String.compare (String_parsed a) (String_parsed a)) eqn:Hc; try done.
  pose proof (String.compare_antisym (String_parsed a) (String_parsed a)) as Hanti.
  rewrite Hc in Hanti. done.
Qed.

(** As long as the client hands over strings for the members of the
    project set (no registered name is a JSON text), whatever the store
    answers (a populated project set, an empty one with the legacy list
    behind it, or a failure), [getAllProjects] returns a list of names
    without duplicates and in strictly ascending order. *)
Theorem getAllProjects_names_sorted_nodup (redis : Redis.Reader) :
  (∀ members v, Redis.smembers redis PROJECT_SET_KEY = Ok (Redis.ReplyArray members) →
                v ∈ members → ∃ s, v = PString s) →
  ∃ l, Db.getAllProjects (Some redis) = Ok l
       ∧ (∀ v, v ∈ l → is_name v)
       ∧ NoDup l
       ∧ StronglySorted listed_before l.
Proof.
  intros Hstrings.
  assert (∀ l, NoDup l → (∀ v, v ∈ l → is_name v) →
               (∀ v, v ∈ Array_sort_parsed l → is_name v)
               ∧ NoDup (Array_sort_parsed l)
               ∧ StronglySorted listed_before (Array_sort_parsed l)) as Hsort.
  { intros l Hnd Hnames. split_and!.
    - intros v Hv. by apply Hnames, elem_of_Array_sort_parsed.
    - pose proof (Array_sort_parsed_sorted l Hnd Hnames) as Hs.
      clear -Hs. induction Hs as [|x k Hk IH Hx]; constructor; [|done].
      intros Hin. rewrite Forall_forall in Hx.
      by apply (listed_before_irrefl x), Hx.
    - by apply Array_sort_parsed_sorted. }
  assert ((∀ v, v ∈ @nil parsed → is_name v) ∧ NoDup (@nil parsed)
          ∧ StronglySorted listed_before []) as Hnil.
  { split_and!; [by intros v ?%elem_of_nil|constructor..]. }
  unfold Db.getAllProjects.
  destruct (Redis.smembers redis PROJECT_SET_KEY) as [members|e] eqn:Hmembers; simpl;
    [|by eexists].
  case_bool_decide as Hset.
  { eexists. split; [done|]. apply Hsort; [apply NoDup_Set_values|].
    intros v Hv. rewrite elem_of_Set_values in Hv.
    destruct members as [|members|]; try done.
    destruct (Hstrings members v eq_refl Hv) as [s ->]. by exists (Some s). }
  destruct (Redis.lrange redis DEPLOY_KEY 0 (Db.MAX_ITEMS - 1)) as [items|e]; simpl;
    [|by eexists].
  destruct (Db.array_or_empty items) as [items'|e]; simpl; [|by eexists].
  case_bool_decide as Hinferred; [|by eexists].
  eexists. split; [done|]. apply Hsort; [apply NoDup_Set_values|].
  intros v Hv. rewrite elem_of_Set_values in Hv.
  apply list_elem_of_fmap in Hv as (r & -> & _).
  by exists (projectName r).
Qed.

(** ** The route [GET /api/deploy] *)

Lemma clamp_range (x : number) :
  is_NaN x = false →
  number_le (of_Z 1) (clamp (of_Z 1) (of_Z 50) x)
  ∧ number_le (clamp (of_Z 1) (of_Z 50) x) (of_Z 50).
Proof.
  unfold number_le, clamp, Math_min, Math_max.
  destruct x as [| |q|]; simpl; [done|done| |done].
  intros _. destruct (Qle_bool (inject_Z 50) q) eqn:H50; simpl; [done|].
  destruct (Qle_bool (inject_Z 1) q) eqn:H1; simpl; [|done].
  split; [done|]. apply Qle_bool_iff, Qlt_le_weak, Qnot_le_lt.
  intros Hle%Qle_bool_iff. congruence.
Qed.

Lemma number_truthy_not_NaN (x : number) : number_truthy x = true → is_NaN x = false.
Proof. by destruct x. Qed.

(** Claim C7, as amended.  The limit that [GET] hands to the query is 20
    when the [limit] parameter is absent, is not a number or is zero, and
    otherwise its numeric value brought into [1,50]; in every case it lies
    in [1,50]. *)
Theorem GET_limit_clamped (Date_parse : string → option Z)
    (StringToNumber : string → number) redis now (q : list (string * string)) :
  let n := DeployRoute.Number_ StringToNumber (DeployRoute.searchParams_get q "limit") in
  let limit := if number_truthy n then clamp (of_Z 1) (of_Z 50) n else of_Z 20 in
  DeployRoute.GET Date_parse StringToNumber redis now q
  = (let* data := Db.getLatestDeployRecords Date_parse redis now limit
                    (DeployRoute.GET_projects q) in
     Ok {| DeployRoute.code := 200; DeployRoute.body := DeployRoute.BodyRecords data |})
  ∧ DeployRoute.GET_limit StringToNumber q = limit
  ∧ number_le (of_Z 1) limit
  ∧ number_le limit (of_Z 50)
  ∧ (DeployRoute.searchParams_get q "limit" = None → limit = of_Z 20).
Proof.
  intros n limit.
  assert (DeployRoute.GET_limit StringToNumber q = limit) as Hlimit.
  { unfold DeployRoute.GET_limit, limit. fold n. unfold number_or.
    by destruct (number_truthy n). }
  split; [unfold DeployRoute.GET; by rewrite Hlimit|]. split; [done|].
  unfold limit. destruct (number_truthy n) eqn:Hn.
  - destruct (clamp_range n (number_truthy_not_NaN n Hn)) as [Hlo Hhi].
    split_and!; [done..|].
    intros Habsent. unfold n in Hn. by rewrite Habsent in Hn.
  - by vm_compute.
Qed.

(** ** The route [POST /api/deploy] *)

Lemma first_missing_spec (body : gmap string value) (keys : list string) :
  match DeployRoute.first_missing body keys with
  | Some key =>
      ∃ before after, keys = before ++ key :: after
                      ∧ (∀ k, k ∈ before → ¬ missing body k)
                      ∧ missing body key
  | None => ∀ k, k ∈ keys → ¬ missing body k
  end.
Proof.
  unfold missing. induction keys as [|key keys IH]; simpl.
  - intros k Hk. by apply elem_of_nil in Hk.
  - destruct (truthy (get body key)) eqn:Hkey; simpl.
    + destruct (DeployRoute.first_missing body keys) as [key'|].
      * destruct IH as (before & after & -> & Hbefore & Hmissing).
        exists (key :: before), after. split_and!; [done| |done].
        intros k [->|Hk]%elem_of_cons; [congruence|auto].
      * intros k [->|Hk]%elem_of_cons; [congruence|auto].
    + exists [], keys. split_and!; [done| |done].
      intros k Hk. by apply elem_of_nil in Hk.
Qed.

(** Claim C3.  When a required field of the body is missing, the handler
    answers 400 with the message naming the first missing field, in the
    order of [required], and leaves the store as it was. *)
Theorem POST_missing_field Date_parse toISOString NumberToString redis now uuid
    (body : gmap string value) (st : Redis.Store) :
  (∃ key, key ∈ DeployRoute.required ∧ missing body key) →
  ∃ key before after,
    DeployRoute.required = before ++ key :: after
    ∧ (∀ k, k ∈ before → ¬ missing body k)
    ∧ missing body key
    ∧ DeployRoute.POST Date_parse toISOString NumberToString redis now uuid (Ok body) st
      = ({| DeployRoute.code := 400;
            DeployRoute.body := DeployRoute.BodyError ("missing field: " +:+ key) |},
         st).
Proof.
  intros (key0 & Hreq & Hmissing).
  pose proof (first_missing_spec body DeployRoute.required) as Hspec.
  unfold DeployRoute.POST.
  destruct (DeployRoute.first_missing body DeployRoute.required) as [key|].
  - destruct Hspec as (before & after & Heq & Hbefore & Hkey).
    by exists key, before, after.
  - by destruct (Hspec key0 Hreq).
Qed.

(** ** A write followed by a read *)

Section ReadBack.

Variable Date_parse : string → option Z.






End ReadBack.

(** ** The properties on the sample data *)

Import Sample.

Lemma getLatest_excludes_expired_witness :
  record_c ∉ [record_a].
Proof.
  apply (getLatest_excludes_expired ISO.parse
           (Some (Redis.connect Redis.reliable store_ac T0)) T0 (of_Z 20) None
           [record_a] record_c (T0 - 40 * DAY)).
  - vm_compute. reflexivity.
  - vm_compute. reflexivity.
  - vm_compute. reflexivity.
Defined.

Lemma getLatest_length_witness :
  number_le (of_Z (Z.of_nat (length [record_a]))) (of_Z 1).
Proof.
  apply (getLatest_length ISO.parse
           (Some (Redis.connect Redis.reliable store_ab T0)) T0 (of_Z 1) None
           [record_a]).
  - vm_compute. reflexivity.
  - vm_compute. reflexivity.
Defined.

Lemma getLatest_swallows_failures_witness :
  getLatestDeployRecords (Some (Redis.connect flaky store_ab T0)) T0 (of_Z 20) None
  = Ok [].
Proof.
  apply (getLatest_swallows_failures ISO.parse T0 (of_Z 20) None).
  right. right. exists "fetch failed". vm_compute. reflexivity.
Defined.

(** Claim C6 as stated fails.  Record C, written forty days old, is in the
    index and in the list, and the query returns no record with its
    identifier, not one. *)
Lemma getLatest_index_wins_counterexample :
  Db.readZset (Redis.connect Redis.reliable store_ac T0) = Ok [record_a; record_c]
  ∧ Db.readList (Redis.connect Redis.reliable store_ac T0) = Ok [record_c; record_a]
  ∧ getLatestDeployRecords (Some (Redis.connect Redis.reliable store_ac T0)) T0
      (of_Z 20) None = Ok [record_a]
  ∧ occurrences (id record_c) [record_a] = 0%nat.
Proof. vm_compute. done. Defined.

Lemma getLatest_index_wins_witness :
  ∃ z, version (Some "id-b") [record_a; record_b] = Some z
       ∧ NoDup (id <$> [record_a; record_b])
       ∧ (occurrences (Some "id-b") [record_a; record_b] ≤ 1)%nat
       ∧ (∀ r, r ∈ [record_a; record_b] → id r = Some "id-b" → r = z)
       ∧ (Db.recent ISO.parse (T0 - Db.THIRTY_DAYS_MS) z = true →
          matches None z →
          ∃ full,
            getLatestDeployRecords (Some (Redis.connect Redis.reliable store_ab T0)) T0
              PosInfinity None = Ok full
            ∧ occurrences (Some "id-b") full = 1%nat
            ∧ [record_a; record_b] = slice0 full (of_Z 20)).
Proof.
  apply (getLatest_index_wins ISO.parse (Redis.connect Redis.reliable store_ab T0) T0
           (of_Z 20) None [record_a; record_b] [record_b; record_a]).
  - vm_compute. reflexivity.
  - vm_compute. reflexivity.
  - exists record_b. split; [|reflexivity]. apply elem_of_cons. right. apply elem_of_cons. by left.
  - exists record_b. split; [|reflexivity]. apply elem_of_cons. by left.
  - vm_compute. reflexivity.
Defined.

(** Claim C7 as stated fails.  For [limit=0] the handler passes 20 to the
    query, where bringing 0 into [1,50] gives 1. *)
Lemma GET_limit_clamped_counterexample :
  DeployRoute.GET_limit Decimal.StringToNumber [("limit", "0")] = of_Z 20
  ∧ clamp (of_Z 1) (of_Z 50) (Decimal.StringToNumber "0") = of_Z 1
  ∧ of_Z 20 ≠ of_Z 1.
Proof. vm_compute. split_and!; [done..|]. intros [=]. Defined.

Lemma GET_limit_clamped_witness :
  DeployRoute.GET_limit Decimal.StringToNumber [("projectName", "svc-a")] = of_Z 20.
Proof.
  destruct (GET_limit_clamped ISO.parse Decimal.StringToNumber None T0
              [("projectName", "svc-a")]) as (_ & -> & _ & _ & Habsent).
  apply Habsent. vm_compute. reflexivity.
Defined.

Lemma POST_missing_field_witness :
  ∃ key before after,
    DeployRoute.required = before ++ key :: after
    ∧ (∀ k, k ∈ before → ¬ missing body_without_project k)
    ∧ missing body_without_project key
    ∧ POST (Some Redis.reliable) T0 "id-b" (Ok body_without_project) store_a
      = ({| DeployRoute.code := 400;
            DeployRoute.body := DeployRoute.BodyError ("missing field: " +:+ key) |},
         store_a).
Proof.
  apply (POST_missing_field ISO.parse ISO.toISOString Decimal.NumberToString (Some Redis.reliable) T0 "id-b"
           body_without_project store_a).
  exists "projectName". split.
  - apply elem_of_cons. right. apply elem_of_cons. by left.
  - vm_compute. reflexivity.
Defined.

(** Claim C8 fails on the code.  The claim: every record stored through
    [POST /deploy] has a status among success, failed, running and
    canceled.  The handler only tests that [status] is truthy and casts it:
    a body with the status [deployed] is answered 200 and its record is
    stored with that status. *)
Theorem POST_stores_unchecked_status :
  let r := record "id-x" "svc-a" "2023-11-14T22:13:20.000Z" (Str "deployed") in
  let out := POST (Some Redis.reliable) T0 "id-x" (Ok (body (Str "deployed"))) ∅ in
  out.1 = {| DeployRoute.code := 200; DeployRoute.body := DeployRoute.BodyRecord r |}
  ∧ out.2 !! Db.record_key "id-x"
    = Some (Redis.EString (RawString (JsonRecord r)) (Some (T0 + 30 * DAY)))
  ∧ out.2 !! DEPLOY_KEY = Some (Redis.EList [RawString (JsonRecord r)])
  ∧ status r = Str "deployed"
  ∧ status r ∉ DeployStatus.
Proof.
  split_and!; [vm_compute; reflexivity..|].
  simpl. unfold DeployStatus. rewrite !elem_of_cons, elem_of_nil.
  intros [[=]|[[=]|[[=]|[[=]|[]]]]].
Qed.

(** Claim C4 fails on the code.  The claim: a create request whose
    timestamp cannot be parsed to an instant is stored with the current
    time, and succeeds.  [resolveDeployedAt] does substitute the current
    time for such a timestamp, but the route formats the timestamp with
    [new Date(..).toISOString()] before it calls [addDeployRecord]: for
    one that is not a date this throws, the request is answered 400 and
    nothing is stored. *)
Theorem POST_refuses_unparsable_deployedAt :
  let request := <["deployedAt" := Str "yesterday"]> (body (Str "success")) in
  let out := POST (Some Redis.reliable) T0 "id-b" (Ok request) store_a in
  ISO.parse "yesterday" = None
  ∧ Db.resolveDeployedAt ISO.parse ISO.toISOString T0 (Some "yesterday")
    = ISO.toISOString T0
  ∧ out.1 = {| DeployRoute.code := 400;
               DeployRoute.body := DeployRoute.BodyError "Invalid time value" |}
  ∧ out.2 = store_a.
Proof. split_and!; vm_compute; reflexivity. Qed.

(** Claim C10 fails on the code.  The claim: the list [getAllProjects]
    returns is without duplicates.  The client parses each member of the
    project set as JSON before the code sees it, and the code casts what
    it gets to [string[]] unchecked.  The projects registered as [[]] and
    as [[ ]] both come back as an empty array: two objects, which
    [new Set] keeps apart, and the list holds the empty array twice. *)
Theorem getAllProjects_lists_empty_array_twice :
  let projects :=
    Db.getAllProjects (Some (Redis.connect Redis.reliable store_brackets T0)) in
  elements (set_at store_brackets T0 PROJECT_SET_KEY) = ["[]"; "[ ]"]
  ∧ ∃ i j,
      i ≠ j
      ∧ projects = Ok [PObject i "" "[]"; PObject j "" "[]"]
      ∧ ¬ NoDup (String_parsed <$> [PObject i "" "[]"; PObject j "" "[]"]).
Proof.
  split; [vm_compute; reflexivity|].
  exists 0%nat, 1%nat. split_and!; [done|vm_compute; reflexivity|].
  intros [Hdup _]%NoDup_cons. apply Hdup. by left.
Qed.




(** * Further properties of the code *)

(** ** The query, whatever the store answers *)

Section QueryFacts.

Variable Date_parse : string → option Z.

Lemma coerceRecord_Some (v : raw) (r : DeployRecord) :
  Db.coerceRecord v = Some r → Db.has_id_and_date r = true.
Proof.
  destruct v as [|[o| |]|o|]; simpl; try done.
  - destruct (Db.has_id_and_date o) eqn:Ho; [|done]. by intros [= <-].
  - destruct (Db.has_id_and_date o) eqn:Ho; [|done]. by intros [= <-].
Qed.

Lemma has_id_and_date_identified (r : DeployRecord) :
  Db.has_id_and_date r = true → identified r.
Proof.
  unfold Db.has_id_and_date, identified, string_truthy.
  destruct (id r) as [i|]; [|done]. destruct (deployedAt r) as [d|]; [|done].
  intros [Hi Hd]%andb_true_iff. exists i, d.
  apply negb_true_iff, String.eqb_neq in Hi.
  apply negb_true_iff, String.eqb_neq in Hd. done.
Qed.

Lemma readZset_identified redis fromZset :
  Db.readZset redis = Ok fromZset → ∀ r, r ∈ fromZset → identified r.
Proof.
  unfold Db.readZset.
  destruct (Redis.zrange redis _ _ _ _) as [ids|]; simpl; [|done].
  destruct (Db.array_or_empty ids) as [ids'|]; simpl; [|done].
  destruct (if bool_decide _ then _ else _) as [values|]; simpl; [|done].
  destruct (Db.array_or_empty values) as [values'|]; simpl; [|done].
  intros [= <-] r (v & _ & Hv)%list_elem_of_omap.
  by eapply has_id_and_date_identified, coerceRecord_Some.
Qed.

Lemma readList_identified redis fromList :
  Db.readList redis = Ok fromList → ∀ r, r ∈ fromList → identified r.
Proof.
  unfold Db.readList.
  destruct (Redis.lrange redis _ _ _) as [items|]; simpl; [|done].
  destruct (Db.array_or_empty items) as [items'|]; simpl; [|done].
  intros [= <-] r (v & _ & Hv)%list_elem_of_omap.
  by eapply has_id_and_date_identified, coerceRecord_Some.
Qed.

Lemma ltb_false_le (x y : string) : String.ltb x y = false → String.le y x.
Proof.
  unfold String.ltb, String.le, String.leb. rewrite (String.compare_antisym y x).
  by destruct (String.compare x y).
Qed.

Lemma ltb_asym (x y : string) : String.ltb x y = true → String.ltb y x = false.
Proof.
  unfold String.ltb. rewrite (String.compare_antisym y x).
  by destruct (String.compare x y).
Qed.

#[local] Instance newest_first_total : Total (sorts_before Db.newest_first).
Proof.
  intros a b. unfold sorts_before, Db.newest_first.
  destruct (Db.date_lt a b) eqn:Hab; [|left; lia].
  right. assert (Db.date_lt b a = false) as ->; [|lia].
  unfold Db.date_lt in *.
  destruct (deployedAt a) as [x|], (deployedAt b) as [y|]; try done.
  by apply ltb_asym.
Qed.

#[local] Instance at_least_as_new_trans : Transitive at_least_as_new.
Proof.
  intros a b c. unfold at_least_as_new.
  destruct (deployedAt a) as [x|], (deployedAt b) as [y|], (deployedAt c) as [z|];
    try done.
  intros Hyx Hzy. by transitivity y.
Qed.

Lemma sorts_before_at_least_as_new (a b : DeployRecord) :
  identified a → identified b →
  sorts_before Db.newest_first a b → at_least_as_new a b.
Proof.
  intros (_ & x & _ & _ & Hx & _) (_ & y & _ & _ & Hy & _).
  unfold sorts_before, Db.newest_first, Db.date_lt, at_least_as_new.
  rewrite Hx, Hy. destruct (String.ltb x y) eqn:Hlt; [lia|].
  intros _. by apply ltb_false_le.
Qed.

Lemma Sorted_newest_first (l : list DeployRecord) :
  Sorted (sorts_before Db.newest_first) l →
  (∀ r, r ∈ l → identified r) →
  StronglySorted at_least_as_new l.
Proof.
  intros Hsorted Hid. apply Sorted_StronglySorted; [apply _|].
  induction Hsorted as [|a l Hl IH Hhd]; constructor.
  - apply IH. intros r Hr. apply Hid. by right.
  - destruct Hhd as [|b l Hab]; constructor.
    apply sorts_before_at_least_as_new; [| |done]; apply Hid.
    + by left.
    + right. by left.
Qed.

Lemma selectLatest_sorted min projectNames byId :
  Sorted (sorts_before Db.newest_first)
    (default [] (Db.selectLatest Date_parse min PosInfinity projectNames byId)).
Proof.
  unfold Db.selectLatest. cbv zeta.
  case_bool_decide; simpl; [constructor|]. apply Sorted_merge_sort, _.
Qed.

Lemma StronglySorted_take {A} (R : relation A) (l : list A) n :
  StronglySorted R l → StronglySorted R (take n l).
Proof.
  intros Hl. rewrite <- (take_drop n l) in Hl.
  by apply StronglySorted_app_1_l in Hl.
Qed.

(** The query ranks a list of records, the same for every limit, and
    returns its first [limit] records. *)
Lemma getLatest_ranked redis now projectNames :
  ∃ ranked,
    (∀ limit, Db.getLatestDeployRecords Date_parse (Some redis) now limit projectNames
              = Ok (slice0 ranked limit))
    ∧ NoDup (id <$> ranked)
    ∧ (∀ r, r ∈ ranked →
            identified r
            ∧ Db.recent Date_parse (now - Db.THIRTY_DAYS_MS) r = true
            ∧ matches projectNames r)
    ∧ StronglySorted at_least_as_new ranked.
Proof.
  assert (∃ ranked : list DeployRecord,
            (∀ limit, Ok (@nil DeployRecord) = Ok (slice0 ranked limit))
            ∧ NoDup (id <$> ranked)
            ∧ (∀ r, r ∈ ranked →
                    identified r
                    ∧ Db.recent Date_parse (now - Db.THIRTY_DAYS_MS) r = true
                    ∧ matches projectNames r)
            ∧ StronglySorted at_least_as_new ranked) as Hempty.
  { exists []. split_and!; [intros; by rewrite slice0_nil|constructor| |constructor].
    intros r Hr. by apply elem_of_nil in Hr. }
  destruct (Db.readZset redis) as [fromZset|e] eqn:HZ; cycle 1.
  { destruct Hempty as (ranked & Hget & Hrest). exists ranked. split; [|done].
    intros limit. rewrite <- Hget. apply getLatest_catch. eauto. }
  destruct (Db.readList redis) as [fromList|e] eqn:HL; cycle 1.
  { destruct Hempty as (ranked & Hget & Hrest). exists ranked. split; [|done].
    intros limit. rewrite <- Hget. apply getLatest_catch. eauto. }
  destruct (getLatest_spec Date_parse redis now projectNames _ _ HZ HL)
    as (ranked & Hin & Hsub & Hget).
  assert (∀ r, r ∈ ranked → identified r) as Hid.
  { intros r Hr. apply Hin in Hr as [Hr _].
    apply elem_of_mergeById_values, last_Some_elem_of in Hr.
    apply list_elem_of_filter in Hr as [_ [Hr|Hr]%elem_of_app].
    - by eapply readList_identified.
    - by eapply readZset_identified. }
  exists ranked. split_and!; [done| | |].
  - eapply submseteq_NoDup; [|apply (NoDup_mergeById_ids fromList fromZset)].
    by apply fmap_submseteq.
  - intros r Hr. split; [by apply Hid|]. by apply Hin.
  - apply Sorted_newest_first; [|done].
    pose proof (Hget PosInfinity) as Hall. rewrite slice0_PosInfinity in Hall.
    unfold Db.getLatestDeployRecords in Hall. rewrite HZ, HL in Hall. simpl in Hall.
    pose proof (selectLatest_sorted (now - Db.THIRTY_DAYS_MS) projectNames
                  (Db.mergeById fromList fromZset)) as Hsorted.
    destruct (Db.selectLatest _ _ _ _ _); simpl in *; by injection Hall as <-.
Qed.

(** Every record the query returns has passed the test of [coerceRecord]
    (its [id] and its [deployedAt] are truthy), whichever of the two
    sources it comes from, and its [deployedAt] is a date of the last
    thirty days. *)
Theorem getLatest_records_well_formed redis now limit projectNames l r :
  Db.getLatestDeployRecords Date_parse redis now limit projectNames = Ok l →
  r ∈ l →
  Db.has_id_and_date r = true
  ∧ ∃ t, Db.getTime Date_parse (deployedAt r) = Some t ∧ now - Db.THIRTY_DAYS_MS ≤ t.
Proof.
  intros Hget Hr. destruct redis as [redis|]; [|done].
  destruct (getLatest_ranked redis now projectNames) as (ranked & Hranked & _ & Hall & _).
  rewrite Hranked in Hget. injection Hget as <-.
  apply (elem_of_sublist _ ranked) in Hr; [|apply slice0_sublist].
  destruct (Hall r Hr) as (Hid & Hrecent & _). split.
  { destruct Hid as (i & d & Hi & Hi_ne & Hd & Hd_ne).
    unfold Db.has_id_and_date, string_truthy. rewrite Hi, Hd.
    destruct (String.eqb_spec i ""); [done|]. by destruct (String.eqb_spec d ""). }
  unfold Db.recent in Hrecent.
  destruct (Db.getTime Date_parse (deployedAt r)) as [t|]; [|done].
  exists t. split; [done|]. by apply Z.leb_le.
Qed.

Lemma getLatest_matches_filter redis now limit names l r :
  names ≠ [] →
  Db.getLatestDeployRecords Date_parse redis now limit (Some names) = Ok l →
  r ∈ l →
  ∃ p, projectName r = Some p ∧ p ∈ names.
Proof.
  intros Hnames Hget Hr. destruct redis as [redis|]; [|done].
  destruct (getLatest_ranked redis now (Some names)) as (ranked & Hranked & _ & Hall & _).
  rewrite Hranked in Hget. injection Hget as <-.
  apply (elem_of_sublist _ ranked) in Hr; [|apply slice0_sublist].
  destruct (Hall r Hr) as (_ & _ & Hmatch). by destruct names.
Qed.

(** With a project filter that is not empty, every record the query
    returns carries one of the names of the filter; a record without a
    project name is never returned under a filter. *)
Theorem getLatest_filters_projects redis now limit names l r :
  names ≠ [] →
  Db.getLatestDeployRecords Date_parse redis now limit (Some names) = Ok l →
  r ∈ l →
  projectName r ≠ None ∧ ∃ p, projectName r = Some p ∧ p ∈ names.
Proof.
  intros Hnames Hget Hr.
  destruct (getLatest_matches_filter _ _ _ _ _ _ Hnames Hget Hr) as (p & Hp & Hin).
  split; [by rewrite Hp|]. by exists p.
Qed.

(** The answer is ordered newest first: every record is at least as new,
    by its [deployedAt] string, as each record after it. *)
Theorem getLatest_newest_first redis now limit projectNames l :
  Db.getLatestDeployRecords Date_parse redis now limit projectNames = Ok l →
  StronglySorted at_least_as_new l.
Proof.
  intros Hget. destruct redis as [redis|]; [|done].
  destruct (getLatest_ranked redis now projectNames) as (ranked & Hranked & _ & _ & Hs).
  rewrite Hranked in Hget. injection Hget as <-.
  destruct (slice0_take ranked limit) as [n ->]. by apply StronglySorted_take.
Qed.

Lemma slice0_of_nat {A} (l : list A) (n : nat) : slice0 l (of_Z (Z.of_nat n)) = take n l.
Proof.
  unfold of_Z, slice0, truncate. simpl. rewrite Z.quot_1_r.
  destruct (Z.ltb_spec (Z.of_nat n) 0) as [?|_]; [lia|].
  destruct (decide (n ≤ length l)%nat).
  - f_equal. lia.
  - rewrite !take_ge by lia. done.
Qed.

(** The answer for a limit is a prefix of the answer without bound; for a
    whole number [n] it is its first [n] records, and it is empty for the
    limit 0 and for NaN. *)
Theorem getLatest_pages redis now limit projectNames l :
  Db.getLatestDeployRecords Date_parse (Some redis) now limit projectNames = Ok l →
  ∃ ranked,
    Db.getLatestDeployRecords Date_parse (Some redis) now PosInfinity projectNames
    = Ok ranked
    ∧ l `prefix_of` ranked
    ∧ (∀ n : nat, limit = of_Z (Z.of_nat n) → l = take n ranked)
    ∧ (limit = NaN → l = []).
Proof.
  intros Hget.
  destruct (getLatest_ranked redis now projectNames) as (ranked & Hranked & _).
  rewrite Hranked in Hget. injection Hget as <-.
  exists ranked. split_and!.
  - by rewrite Hranked.
  - destruct (slice0_take ranked limit) as [n ->]. apply prefix_take.
  - intros n ->. apply slice0_of_nat.
  - by intros ->.
Qed.

End QueryFacts.

(** ** A write followed by a read: where the record ranks *)

Section ReadBackRanked.

Variable Date_parse : string → option Z.










End ReadBackRanked.

(** ** The route [GET /api/deploy] and the page that calls it *)

Section GetFacts.

Variable Date_parse : string → option Z.
Variable StringToNumber : string → number.

(** When [projectName] parameters are given they are the filter, whatever
    [projects] says: every record of the answer carries one of them. *)
Theorem GET_filters_by_projectName redis now (q : list (string * string)) response :
  DeployRoute.searchParams_getAll q "projectName" ≠ [] →
  DeployRoute.GET Date_parse StringToNumber redis now q = Ok response →
  ∃ data,
    DeployRoute.body response = DeployRoute.BodyRecords data
    ∧ ∀ r, r ∈ data →
           ∃ p, projectName r = Some p
                ∧ p ∈ DeployRoute.searchParams_getAll q "projectName".
Proof.
  intros Hmulti. unfold DeployRoute.GET, DeployRoute.GET_projects.
  rewrite bool_decide_eq_true_2 by done.
  destruct (Db.getLatestDeployRecords _ _ _ _ _) as [data|] eqn:Hget; simpl; [|done].
  intros [= <-]. exists data. split; [done|]. intros r Hr.
  by eapply getLatest_matches_filter.
Qed.

Lemma getLatest_empty_filter redis now limit :
  Db.getLatestDeployRecords Date_parse redis now limit (Some [])
  = Db.getLatestDeployRecords Date_parse redis now limit None.
Proof. done. Qed.

Lemma is_white_WhiteSpace (c : ascii) : c ∈ WhiteSpace → is_white c = true.
Proof.
  unfold WhiteSpace. cbn. intros Hc.
  repeat (apply elem_of_cons in Hc as [->|Hc]); [reflexivity..|].
  by apply elem_of_nil in Hc.
Qed.

Lemma chars_rev_app (s acc : string) (c : ascii) :
  c ∈ list_ascii_of_string (String.rev_app s acc) →
  c ∈ list_ascii_of_string s ∨ c ∈ list_ascii_of_string acc.
Proof.
  revert acc. induction s as [|c0 s IH]; simpl; intros acc Hc; [by right|].
  destruct (IH _ Hc) as [?|[->|?]%elem_of_cons].
  - left. by right.
  - left. by left.
  - by right.
Qed.

Lemma chars_rev (s : string) (c : ascii) :
  c ∈ list_ascii_of_string (String.rev s) → c ∈ list_ascii_of_string s.
Proof.
  intros [?|Hc]%chars_rev_app; [done|]. by apply elem_of_nil in Hc.
Qed.

Lemma trim_start_white (s : string) :
  (∀ c, c ∈ list_ascii_of_string s → is_white c = true) → trim_start s = "".
Proof.
  induction s as [|c s IH]; simpl; intros Hall; [done|].
  rewrite (Hall c) by by left. apply IH. intros c' Hc'. apply Hall. by right.
Qed.

Lemma trim_white (s : string) :
  (∀ c, c ∈ list_ascii_of_string s → is_white c = true) → trim s = "".
Proof. intros Hall. unfold trim. by rewrite (trim_start_white s Hall). Qed.

Lemma split_go_white (sep : ascii) (s cur seg : string) :
  (∀ c, c ∈ list_ascii_of_string cur → is_white c = true) →
  (∀ c, c ∈ list_ascii_of_string s → c = sep ∨ is_white c = true) →
  seg ∈ split_go sep cur s →
  ∀ c, c ∈ list_ascii_of_string seg → is_white c = true.
Proof.
  revert cur. induction s as [|c0 s IH]; simpl; intros cur Hcur Hs Hseg c Hc.
  - apply list_elem_of_singleton in Hseg as ->. by apply Hcur, chars_rev.
  - destruct (Ascii.eqb_spec c0 sep) as [->|Hne].
    + apply elem_of_cons in Hseg as [->|Hseg]; [by apply Hcur, chars_rev|].
      apply (IH "" ); [by intros ? ?%elem_of_nil| |done|done].
      intros c' Hc'. apply Hs. by right.
    + apply (IH (String c0 cur)); [| |done|done].
      * intros c' [->|Hc']%elem_of_cons; [|by apply Hcur].
        destruct (Hs c0) as [?|?]; [by left|done|done].
      * intros c' Hc'. apply Hs. by right.
Qed.

(** A [projects] parameter that holds nothing but commas and white space
    (with no [projectName] parameter beside it) selects no name, and the
    handler answers as without a filter. *)
Theorem GET_blank_projects_unfiltered redis now (q : list (string * string)) csv :
  DeployRoute.searchParams_getAll q "projectName" = [] →
  DeployRoute.searchParams_get q "projects" = Some csv →
  blank_list csv →
  DeployRoute.GET Date_parse StringToNumber redis now q
  = (let* data := Db.getLatestDeployRecords Date_parse redis now
                    (DeployRoute.GET_limit StringToNumber q) None in
     Ok {| DeployRoute.code := 200; DeployRoute.body := DeployRoute.BodyRecords data |}).
Proof.
  intros Hmulti Hcsv Hblank. unfold DeployRoute.GET.
  assert (Db.getLatestDeployRecords Date_parse redis now
            (DeployRoute.GET_limit StringToNumber q) (DeployRoute.GET_projects q)
          = Db.getLatestDeployRecords Date_parse redis now
              (DeployRoute.GET_limit StringToNumber q) None) as ->; [|done].
  unfold DeployRoute.GET_projects. rewrite Hmulti, Hcsv.
  rewrite bool_decide_eq_false_2 by (intros H; by apply H).
  destruct (string_truthy csv); [|done].
  rewrite (filter_none (λ s, string_truthy s) (trim <$> split "," csv)).
  { apply getLatest_empty_filter. }
  intros seg Hseg. apply list_elem_of_fmap in Hseg as (raw_seg & -> & Hseg).
  rewrite trim_white; [by compute|].
  apply (split_go_white "," csv "" raw_seg); [by intros ? ?%elem_of_nil| |done].
  intros c Hc. destruct (Hblank c Hc) as [->|Hw]; [by left|].
  right. by apply is_white_WhiteSpace.
Qed.

Lemma getAll_query_params (seg : list string) :
  DeployRoute.searchParams_getAll (Page.query_params seg) "projectName" = seg.
Proof.
  unfold DeployRoute.searchParams_getAll, Page.query_params.
  rewrite filter_cons_False by (simpl; discriminate).
  induction seg as [|s seg IH]; [done|].
  rewrite fmap_cons, filter_cons_True by done. rewrite fmap_cons. simpl.
  f_equal. exact IH.
Qed.

(** The request the page sends is served with the limit 20 and with the
    selected projects as the filter, no filter when none is selected. *)
Theorem page_query_served redis now (seg : list string) :
  StringToNumber "20" = of_Z 20 →
  DeployRoute.GET Date_parse StringToNumber redis now (Page.query_params seg)
  = (let* data := Db.getLatestDeployRecords Date_parse redis now (of_Z 20)
                    (if bool_decide (seg = []) then None else Some seg) in
     Ok {| DeployRoute.code := 200; DeployRoute.body := DeployRoute.BodyRecords data |}).
Proof.
  intros H20. unfold DeployRoute.GET.
  assert (DeployRoute.GET_limit StringToNumber (Page.query_params seg) = of_Z 20) as ->.
  { unfold DeployRoute.GET_limit.
    replace (DeployRoute.searchParams_get (Page.query_params seg) "limit")
      with (Some "20") by done.
    simpl. rewrite H20. by vm_compute. }
  assert (DeployRoute.GET_projects (Page.query_params seg)
          = if bool_decide (seg = []) then None else Some seg) as ->; [|done].
  unfold DeployRoute.GET_projects. rewrite getAll_query_params.
  destruct seg as [|s seg]; [|done].
  by vm_compute.
Qed.

End GetFacts.

(** ** The project list and the [/api/projects] route *)

Lemma elem_of_Array_sort_default (l : list (option string)) (o : option string) :
  o ∈ Array_sort_default l ↔ o ∈ l.
Proof.
  unfold Array_sort_default. rewrite elem_of_app, list_elem_of_filter, list_elem_of_fmap.
  split.
  - intros [(x & -> & Hx)|[_ Ho]]; [|done].
    rewrite merge_sort_Permutation in Hx.
    apply list_elem_of_omap in Hx as (y & Hy & Hyx).
    change (y = Some x) in Hyx. by subst y.
  - intros Ho. destruct o as [x|]; [left|by right].
    exists x. split; [done|]. rewrite merge_sort_Permutation.
    apply list_elem_of_omap. by exists (Some x).
Qed.

(** When the project set answers with members, the route lists exactly
    those members; the legacy list is not consulted. *)
Theorem projects_GET_lists_set (redis : Redis.Reader) (members : list parsed) :
  Redis.smembers redis PROJECT_SET_KEY = Ok (Redis.ReplyArray members) →
  members ≠ [] →
  ∃ l, ProjectsRoute.GET (Some redis)
       = Ok {| ProjectsRoute.code := 200; ProjectsRoute.data := l |}
       ∧ ∀ o, o ∈ l ↔ o ∈ members.
Proof.
  intros Hset Hne. unfold ProjectsRoute.GET, Db.getAllProjects. rewrite Hset. simpl.
  rewrite bool_decide_eq_true_2 by done. simpl.
  eexists. split; [done|]. intros o.
  by rewrite elem_of_Array_sort_parsed, elem_of_Set_values.
Qed.

(** When the project set answers with no member (or not with an array),
    the route lists the project names of the records of the legacy list. *)
Theorem projects_GET_infers_from_list (redis : Redis.Reader) reply (items : list raw) :
  Redis.smembers redis PROJECT_SET_KEY = Ok reply →
  (∀ members, reply = Redis.ReplyArray members → members = []) →
  Redis.lrange redis DEPLOY_KEY 0 (Db.MAX_ITEMS - 1) = Ok (Redis.ReplyArray items) →
  ∃ l, ProjectsRoute.GET (Some redis)
       = Ok {| ProjectsRoute.code := 200; ProjectsRoute.data := l |}
       ∧ ∀ o, o ∈ l ↔ ∃ r, r ∈ omap Db.coerceRecord items ∧ of_name (projectName r) = o.
Proof.
  intros Hset Hempty Hlist. unfold ProjectsRoute.GET, Db.getAllProjects.
  rewrite Hset. simpl.
  assert (match reply with Redis.ReplyArray l => l | _ => [] end = []) as ->.
  { destruct reply as [|members|]; [done| |done]. by apply Hempty. }
  rewrite bool_decide_eq_false_2 by (intros H; by apply H).
  rewrite Hlist. simpl.
  set (inferred := Set_values ((λ r, of_name (projectName r))
                                 <$> omap Db.coerceRecord items)).
  assert (∀ o, o ∈ inferred
               ↔ ∃ r, r ∈ omap Db.coerceRecord items ∧ of_name (projectName r) = o)
    as Hinferred.
  { intros o. unfold inferred. rewrite elem_of_Set_values, list_elem_of_fmap.
    split; intros (r & ? & ?); exists r; done. }
  case_bool_decide as Hne; simpl.
  - eexists. split; [done|]. intros o. by rewrite elem_of_Array_sort_parsed.
  - exists []. split; [done|]. intros o. rewrite <- Hinferred.
    by rewrite Hne.
Qed.

(** A storage failure never reaches the caller of [/api/projects]: when
    the project set cannot be read, or when it is empty and the legacy
    list cannot be read, the route answers 200 with no project. *)
Theorem projects_GET_swallows_failures (redis : Redis.Reader) :
  (∃ e, Redis.smembers redis PROJECT_SET_KEY = Throw e)
  ∨ (∃ reply e,
       Redis.smembers redis PROJECT_SET_KEY = Ok reply
       ∧ (∀ members, reply = Redis.ReplyArray members → members = [])
       ∧ Redis.lrange redis DEPLOY_KEY 0 (Db.MAX_ITEMS - 1) = Throw e) →
  ProjectsRoute.GET (Some redis)
  = Ok {| ProjectsRoute.code := 200; ProjectsRoute.data := [] |}.
Proof.
  unfold ProjectsRoute.GET, Db.getAllProjects.
  intros [[e ->]|(reply & e & -> & Hempty & Hlist)]; simpl; [done|].
  assert (match reply with Redis.ReplyArray l => l | _ => [] end = []) as ->.
  { destruct reply as [|members|]; [done| |done]. by apply Hempty. }
  rewrite bool_decide_eq_false_2 by (intros H; by apply H).
  by rewrite Hlist.
Qed.

Section LegacyProjects.

Variable Date_parse : string → option Z.
Variable StringToNumber : string → number.

Lemma clamp_range_1000 (x : number) :
  is_NaN x = false →
  number_le (of_Z 1) (clamp (of_Z 1) (of_Z 1000) x)
  ∧ number_le (clamp (of_Z 1) (of_Z 1000) x) (of_Z 1000).
Proof.
  unfold number_le, clamp, Math_min, Math_max.
  destruct x as [| |q|]; simpl; [done|done| |done].
  intros _. destruct (Qle_bool (inject_Z 1000) q) eqn:Hhi; simpl; [done|].
  destruct (Qle_bool (inject_Z 1) q) eqn:Hlo; simpl; [|done].
  split; [done|]. apply Qle_bool_iff, Qlt_le_weak, Qnot_le_lt.
  intros Hle%Qle_bool_iff. congruence.
Qed.

(** The earlier handler of [/api/projects] asks the query for between 1
    and 1000 records and lists, in ascending order and without duplicates,
    the project names of the records it gets. *)
Theorem legacy_projects_GET redis now (q : list (string * string)) response :
  ProjectsRoute.legacy_GET Date_parse StringToNumber redis now q = Ok response →
  ∃ records,
    Db.getLatestDeployRecords Date_parse redis now
      (ProjectsRoute.legacy_limit StringToNumber q) None = Ok records
    ∧ number_le (of_Z 1) (ProjectsRoute.legacy_limit StringToNumber q)
    ∧ number_le (ProjectsRoute.legacy_limit StringToNumber q) (of_Z 1000)
    ∧ StronglySorted name_lt (ProjectsRoute.data response)
    ∧ ∀ o, o ∈ ProjectsRoute.data response ↔ ∃ r, r ∈ records ∧ projectName r = o.
Proof.
  unfold ProjectsRoute.legacy_GET.
  destruct (Db.getLatestDeployRecords _ _ _ _ _) as [records|] eqn:Hget; simpl; [|done].
  intros [= <-]. exists records. simpl. split; [done|].
  assert (number_le (of_Z 1) (ProjectsRoute.legacy_limit StringToNumber q)
          ∧ number_le (ProjectsRoute.legacy_limit StringToNumber q) (of_Z 1000))
    as [Hlo Hhi].
  { unfold ProjectsRoute.legacy_limit, number_or.
    set (n := DeployRoute.Number_ _ _).
    destruct (number_truthy n) eqn:Hn.
    - apply (clamp_range_1000 n), number_truthy_not_NaN, Hn.
    - by vm_compute. }
  split_and!; [done..| |].
  - apply Array_sort_default_sorted, NoDup_Set_values.
  - intros o. rewrite elem_of_Array_sort_default, elem_of_Set_values, list_elem_of_fmap.
    split; intros (r & ? & ?); exists r; done.
Qed.

End LegacyProjects.

(** ** What a write leaves in the store *)

Section WriteExtras.

Import Redis.

Variable Date_parse : string → option Z.
Variable toISOString : Z → string.

Implicit Types st : Store.

Lemma find_ext st1 st2 now key :
  st1 !! key = st2 !! key → find st1 now key = find st2 now key.
Proof. unfold find. by intros ->. Qed.

Lemma zadd_Ok_exact c now key sc member st u st' :
  zadd c now key (Some sc) member st = (Ok u, st') →
  st' = <[key := EZset (<[member := sc]> (zset_at st now key))]> st.
Proof.
  intros H%guarded_Ok. unfold zset_at.
  destruct (find st now key) as [[| z | |]|]; try done; simplify_eq; [done|].
  by rewrite insert_empty.
Qed.

Lemma zremrangebyscore_Ok_exact c now key lo hi z st u st' :
  zremrangebyscore c now key lo (Some hi) st = (Ok u, st') →
  st !! key = Some (EZset z) →
  st' = if decide (filter (λ kv, ¬ (lo ≤ kv.2 ≤ hi)) z = ∅) then delete key st
        else <[key := EZset (filter (λ kv, ¬ (lo ≤ kv.2 ≤ hi)) z)]> st.
Proof.
  intros H%guarded_Ok Hz.
  rewrite (find_not_string _ _ _ _ Hz) in H by done. cbv zeta in H. by simplify_eq.
Qed.

Lemma lpush_Ok_exact c now key v st u st' :
  lpush c now key v st = (Ok u, st') →
  st' = <[key := EList (RawString v :: list_at st now key)]> st.
Proof.
  intros H%guarded_Ok. unfold list_at.
  destruct (find st now key) as [[| | l |]|]; try done; by simplify_eq.
Qed.

Lemma sadd_Ok_exact c now key member st u st' :
  sadd c now key member st = (Ok u, st') →
  st' = <[key := ESet ({[member]} ∪ set_at st now key)]> st.
Proof.
  intros H%guarded_Ok. unfold set_at.
  destruct (find st now key) as [[| | | s]|]; try done; simplify_eq; [done|].
  by rewrite (right_id_L ∅ (∪)).
Qed.

(** The index, the list and the project set after a write that
    returned. *)
Lemma addDeployRecord_post c now uuid payload st r st' :
  Db.addDeployRecord Date_parse toISOString (Some c) now uuid payload st = (Ok r, st') →
  ∃ score,
    Db.getTime Date_parse (deployedAt r) = Some score
    ∧ st' !! DEPLOY_ZSET_KEY
      = Some (EZset (filter (λ kv, ¬ (0 ≤ kv.2 ≤ score - Db.THIRTY_DAYS_MS - 1))
                       (<[uuid := score]> (zset_at st now DEPLOY_ZSET_KEY))))
    ∧ st' !! DEPLOY_KEY
      = Some (EList (RawString (JsonRecord r) :: take 199 (list_at st now DEPLOY_KEY)))
    ∧ st' !! PROJECT_SET_KEY
      = Some (ESet ({[payload_projectName payload]} ∪ set_at st now PROJECT_SET_KEY)).
Proof.
  unfold Db.addDeployRecord.
  set (record := mkDeployRecord _ _ _ _ _ _ _ _ _ _).
  intros H.
  apply bind_Ok in H as (u1 & st1 & H1 & H). apply set_Ok in H1.
  apply bind_Ok in H as (u2 & st2 & H2 & H).
  destruct (zadd_Ok _ _ _ _ _ _ _ _ H2) as ([score Hscore] & _ & _).
  rewrite Hscore in H2, H. apply zadd_Ok_exact in H2.
  assert (∀ k, k ≠ Db.record_key uuid → find st1 now k = find st now k) as Hf1.
  { intros k Hk. apply find_ext. rewrite H1. by apply lookup_insert_ne. }
  unfold zset_at in H2.
  rewrite Hf1 in H2 by (symmetry; apply record_key_not_index).
  fold (zset_at st now DEPLOY_ZSET_KEY) in H2.
  set (indexed := <[uuid := score]> (zset_at st now DEPLOY_ZSET_KEY)) in *.
  apply bind_Ok in H as (u3 & st3 & H3 & H). simpl in H3.
  eapply zremrangebyscore_Ok_exact in H3; [|rewrite H2; apply lookup_insert_eq].
  set (pruned := filter _ indexed) in H3.
  assert (pruned !! uuid = Some score) as Hkept.
  { apply map_lookup_filter_Some. split; [apply lookup_insert_eq|].
    simpl. unfold Db.THIRTY_DAYS_MS. lia. }
  rewrite decide_False in H3 by (intros Hnil; by rewrite Hnil in Hkept).
  rewrite H2, insert_insert_eq in H3.
  apply bind_Ok in H as (u4 & st4 & H4 & H). apply lpush_Ok_exact in H4.
  assert (list_at st3 now DEPLOY_KEY = list_at st now DEPLOY_KEY) as Hlist.
  { unfold list_at. rewrite <- (Hf1 DEPLOY_KEY) by (symmetry; apply record_key_not_list).
    erewrite (find_ext st3 st1); [done|]. rewrite H3. by apply lookup_insert_ne. }
  rewrite Hlist in H4.
  apply bind_Ok in H as (u5 & st5 & H5 & H).
  change (Db.MAX_ITEMS - 1) with (Z.of_nat 199) in H5.
  eapply ltrim_Ok in H5; [|rewrite H4; apply lookup_insert_eq].
  rewrite H4, insert_insert_eq in H5.
  apply bind_Ok in H as (u6 & st6 & H6 & H). apply sadd_Ok_exact in H6.
  assert (set_at st5 now PROJECT_SET_KEY = set_at st now PROJECT_SET_KEY) as Hset.
  { unfold set_at.
    rewrite <- (Hf1 PROJECT_SET_KEY) by (symmetry; apply record_key_not_projects).
    erewrite (find_ext st5 st1); [done|].
    rewrite H5, lookup_insert_ne, H3, lookup_insert_ne by done. done. }
  rewrite Hset in H6.
  unfold ret in H. injection H as <- <-.
  exists score. split; [done|]. rewrite H6, H5, H3. split_and!.
  - rewrite !lookup_insert_ne by done. apply lookup_insert_eq.
  - rewrite lookup_insert_ne by done. apply lookup_insert_eq.
  - apply lookup_insert_eq.
Qed.

Lemma getAllProjects_of_set (redis : Reader) (members : list parsed) :
  smembers redis PROJECT_SET_KEY = Ok (ReplyArray members) →
  members ≠ [] →
  Db.getAllProjects (Some redis) = Ok (Array_sort_parsed (Set_values members)).
Proof.
  intros Hset Hne. unfold Db.getAllProjects. rewrite Hset. simpl.
  by rewrite bool_decide_eq_true_2 by done.
Qed.

(** After a write that returned, the route [/api/projects] lists the
    project of the record together with the projects registered before,
    and nothing else, at whatever later instant it is asked, as long as
    the client hands these names over as the strings they are (none of
    them is a JSON text). *)
Theorem addDeployRecord_registers_project c c' now now' uuid payload st r st' :
  Db.addDeployRecord Date_parse toISOString (Some c) now uuid payload st = (Ok r, st') →
  fails c' SMEMBERS = None →
  (∀ p, p = payload_projectName payload ∨ p ∈ set_at st now PROJECT_SET_KEY →
        deserialize c' p = PString p) →
  ∃ l, ProjectsRoute.GET (Some (connect c' st' now'))
       = Ok {| ProjectsRoute.code := 200; ProjectsRoute.data := l |}
       ∧ ∀ o, o ∈ l ↔ ∃ p, o = PString p
                           ∧ (p = payload_projectName payload
                              ∨ p ∈ set_at st now PROJECT_SET_KEY).
Proof.
  intros (score & _ & _ & _ & Hset)%addDeployRecord_post Hc' Hstrings.
  set (registered := {[payload_projectName payload]} ∪ set_at st now PROJECT_SET_KEY)
    in Hset.
  assert (∀ p, p ∈ registered
               ↔ p = payload_projectName payload ∨ p ∈ set_at st now PROJECT_SET_KEY)
    as Hregistered.
  { intros p. unfold registered. by rewrite elem_of_union, elem_of_singleton. }
  set (members := imap (λ i text, at_ref i (deserialize c' text)) (elements registered)).
  assert (smembers (connect c' st' now') PROJECT_SET_KEY = Ok (ReplyArray members))
    as Hmembers.
  { simpl. rewrite Hc'. by rewrite (find_not_string _ _ _ _ Hset). }
  assert (∀ o, o ∈ members ↔ ∃ p, o = PString p ∧ p ∈ registered) as Hin.
  { intros o. unfold members. rewrite elem_of_lookup_imap. split.
    - intros (i & p & -> & Hp). apply list_elem_of_lookup_2, elem_of_elements in Hp.
      exists p. split; [|done]. by rewrite Hstrings by by apply Hregistered.
    - intros (p & -> & Hp). pose proof Hp as Hp'.
      apply elem_of_elements, list_elem_of_lookup_1 in Hp as [i Hi].
      exists i, p. split; [|done]. by rewrite Hstrings by by apply Hregistered. }
  assert (members ≠ []) as Hne.
  { intros Hnil. assert (PString (payload_projectName payload) ∈ members) as Hp.
    { apply Hin. eexists. split; [done|]. apply Hregistered. by left. }
    rewrite Hnil in Hp. by apply elem_of_nil in Hp. }
  unfold ProjectsRoute.GET.
  rewrite (getAllProjects_of_set _ _ Hmembers Hne). simpl.
  eexists. split; [done|]. intros o.
  rewrite elem_of_Array_sort_parsed, elem_of_Set_values, Hin.
  by setoid_rewrite Hregistered.
Qed.

(** After a write that returned, the legacy list is the new record
    followed by the first [MAX_ITEMS - 1] items it held before: it never
    holds more than [MAX_ITEMS] items. *)
Theorem addDeployRecord_bounds_list c now uuid payload st r st' :
  Db.addDeployRecord Date_parse toISOString (Some c) now uuid payload st = (Ok r, st') →
  ∃ l, st' !! DEPLOY_KEY = Some (EList l)
       ∧ l = RawString (JsonRecord r)
               :: take (Z.to_nat (Db.MAX_ITEMS - 1)) (list_at st now DEPLOY_KEY)
       ∧ Z.of_nat (length l) ≤ Db.MAX_ITEMS.
Proof.
  intros (score & _ & _ & Hlist & _)%addDeployRecord_post.
  eexists. split; [exact Hlist|]. split; [done|].
  simpl. rewrite length_take. unfold Db.MAX_ITEMS. lia.
Qed.

(** After a write that returned, the index holds the new identifier with
    the time of the record as score; of the other members it keeps those
    whose score is negative or at most thirty days older than the record,
    and drops the rest.  The bound is taken from the record, not from the
    clock. *)
Theorem addDeployRecord_prunes_index c now uuid payload st r st' :
  Db.addDeployRecord Date_parse toISOString (Some c) now uuid payload st = (Ok r, st') →
  ∃ score z,
    Db.getTime Date_parse (deployedAt r) = Some score
    ∧ st' !! DEPLOY_ZSET_KEY = Some (EZset z)
    ∧ z !! uuid = Some score
    ∧ ∀ m s, m ≠ uuid →
        z !! m = Some s
        ↔ zset_at st now DEPLOY_ZSET_KEY !! m = Some s
          ∧ (s < 0 ∨ score - Db.THIRTY_DAYS_MS ≤ s).
Proof.
  intros (score & Hscore & Hz & _)%addDeployRecord_post.
  eexists score, _. split; [done|]. split; [exact Hz|]. split.
  - apply map_lookup_filter_Some. split; [apply lookup_insert_eq|].
    simpl. unfold Db.THIRTY_DAYS_MS. lia.
  - intros m s Hm. rewrite map_lookup_filter_Some, lookup_insert_ne by done.
    simpl. split; intros [? ?]; (split; [done|lia]).
Qed.

Lemma guarded_frame {A} c cmd (m : M A) st res st' (K : string) :
  (∀ res0 st0, m st = (res0, st0) → st0 !! K = st !! K) →
  guarded c cmd m st = (res, st') → st' !! K = st !! K.
Proof.
  unfold guarded, throw. intros Hm.
  destruct (fails c cmd) as [[e|e]|]; intros H; simplify_eq; [done| |by eapply Hm].
  destruct (m st) as [res0 st0] eqn:Hrun. simpl. by eapply Hm.
Qed.

Lemma zadd_frame c now key score member st res st' K :
  zadd c now key score member st = (res, st') → K ≠ key → st' !! K = st !! K.
Proof.
  unfold zadd. intros H HK. eapply guarded_frame; [|exact H].
  intros res0 st0 Hrun. cbv beta in Hrun. destruct score; [|by simplify_eq].
  destruct (find st now key) as [[]|]; simplify_eq; by rewrite ?lookup_insert_ne.
Qed.

Lemma zremrangebyscore_frame c now key lo hi st res st' K :
  zremrangebyscore c now key lo hi st = (res, st') → K ≠ key → st' !! K = st !! K.
Proof.
  unfold zremrangebyscore. intros H HK. eapply guarded_frame; [|exact H].
  intros res0 st0 Hrun. cbv beta in Hrun. destruct hi; [|by simplify_eq].
  destruct (find st now key) as [[]|]; cbv zeta in Hrun; simplify_eq; try done.
  case_decide; by rewrite ?lookup_insert_ne, ?lookup_delete_ne.
Qed.

Lemma lpush_frame c now key v st res st' K :
  lpush c now key v st = (res, st') → K ≠ key → st' !! K = st !! K.
Proof.
  unfold lpush. intros H HK. eapply guarded_frame; [|exact H].
  intros res0 st0 Hrun. cbv beta in Hrun.
  destruct (find st now key) as [[]|]; simplify_eq; by rewrite ?lookup_insert_ne.
Qed.

Lemma ltrim_frame c now key start stop st res st' K :
  ltrim c now key start stop st = (res, st') → K ≠ key → st' !! K = st !! K.
Proof.
  unfold ltrim. intros H HK. eapply guarded_frame; [|exact H].
  intros res0 st0 Hrun. cbv beta in Hrun.
  destruct (find st now key) as [[]|]; cbv zeta in Hrun; simplify_eq; try done.
  case_decide; by rewrite ?lookup_insert_ne, ?lookup_delete_ne.
Qed.

Lemma sadd_frame c now key member st res st' K :
  sadd c now key member st = (res, st') → K ≠ key → st' !! K = st !! K.
Proof.
  unfold sadd. intros H HK. eapply guarded_frame; [|exact H].
  intros res0 st0 Hrun. cbv beta in Hrun.
  destruct (find st now key) as [[]|]; simplify_eq; by rewrite ?lookup_insert_ne.
Qed.

(** Nothing is rolled back: when [SET] went through and a later step of
    the write throws, the record stays in the store under its key, with
    its thirty days to live. *)
Theorem addDeployRecord_no_rollback c now uuid payload st e st' :
  fails c SET = None →
  Db.addDeployRecord Date_parse toISOString (Some c) now uuid payload st = (Throw e, st') →
  ∃ r, id r = Some uuid
       ∧ projectName r = Some (payload_projectName payload)
       ∧ st' !! Db.record_key uuid
         = Some (EString (RawString (JsonRecord r)) (Some (now + 2592000000))).
Proof.
  intros HSET. unfold Db.addDeployRecord.
  set (record := mkDeployRecord _ _ _ _ _ _ _ _ _ _).
  intros H. exists record. split; [done|]. split; [done|].
  unfold bind at 1 in H. unfold set, guarded in H. rewrite HSET in H.
  set (st1 := <[Db.record_key uuid := _]> st) in H.
  assert (st1 !! Db.record_key uuid
          = Some (EString (RawString (JsonRecord record)) (Some (now + 2592000000))))
    as Hkey by apply lookup_insert_eq.
  clearbody st1.
  unfold bind at 1 in H.
  destruct (zadd _ _ _ _ _ st1) as [[u2|e2] st2] eqn:H2;
    apply zadd_frame with (K := Db.record_key uuid) in H2;
    try apply record_key_not_index; rewrite <- H2 in Hkey; [|by simplify_eq].
  unfold bind at 1 in H.
  destruct (zremrangebyscore _ _ _ _ _ st2) as [[u3|e3] st3] eqn:H3;
    apply zremrangebyscore_frame with (K := Db.record_key uuid) in H3;
    try apply record_key_not_index; rewrite <- H3 in Hkey; [|by simplify_eq].
  unfold bind at 1 in H.
  destruct (lpush _ _ _ _ st3) as [[u4|e4] st4] eqn:H4;
    apply lpush_frame with (K := Db.record_key uuid) in H4;
    try apply record_key_not_list; rewrite <- H4 in Hkey; [|by simplify_eq].
  unfold bind at 1 in H.
  destruct (ltrim _ _ _ _ _ st4) as [[u5|e5] st5] eqn:H5;
    apply ltrim_frame with (K := Db.record_key uuid) in H5;
    try apply record_key_not_list; rewrite <- H5 in Hkey; [|by simplify_eq].
  unfold bind at 1 in H.
  destruct (sadd _ _ _ _ st5) as [[u6|e6] st6] eqn:H6;
    apply sadd_frame with (K := Db.record_key uuid) in H6;
    try apply record_key_not_projects; rewrite <- H6 in Hkey; [|by simplify_eq].
  unfold ret in H. by simplify_eq.
Qed.

End WriteExtras.

(** ** The route [POST /api/deploy], whatever the request *)

Section PostExtras.

Variable Date_parse : string → option Z.
Variable toISOString : Z → string.
Variable NumberToString : Z → string.

Lemma message_or_nonempty (e : string) : DeployRoute.message_or e ≠ "".
Proof.
  unfold DeployRoute.message_or. destruct (string_truthy e) eqn:He; [|done].
  intros ->. done.
Qed.

Lemma first_missing_None (body : gmap string value) (keys : list string) :
  (∀ k, k ∈ keys → ¬ missing body k) → DeployRoute.first_missing body keys = None.
Proof.
  intros Hall. pose proof (first_missing_spec body keys) as Hspec.
  destruct (DeployRoute.first_missing body keys) as [key|]; [|done].
  destruct Hspec as (before & after & -> & _ & Hkey).
  destruct (Hall key); [|done]. apply elem_of_app. right. by left.
Qed.

(** The handler answers every request, with 200 and the saved record
    under the generated identifier, or with 400 and an error message that
    is not empty; it has no other answer. *)
Theorem POST_answers_200_or_400 redis now uuid (req_json : result (gmap string value))
    (st : Redis.Store) :
  let out := DeployRoute.POST Date_parse toISOString NumberToString redis now uuid req_json st in
  (DeployRoute.code out.1 = 200
   ∧ ∃ saved, DeployRoute.body out.1 = DeployRoute.BodyRecord saved
              ∧ id saved = Some uuid)
  ∨ (DeployRoute.code out.1 = 400
     ∧ ∃ msg, DeployRoute.body out.1 = DeployRoute.BodyError msg ∧ msg ≠ "").
Proof.
  unfold DeployRoute.POST. destruct req_json as [body|e].
  2:{ right. split; [done|]. eexists. split; [done|]. apply message_or_nonempty. }
  destruct (DeployRoute.first_missing body DeployRoute.required) as [key|].
  { right. split; [done|]. eexists. split; [done|]. discriminate. }
  destruct (if truthy (get body "deployedAt") then _ else _) as [at_|e].
  2:{ right. split; [done|]. eexists. split; [done|]. apply message_or_nonempty. }
  destruct (Db.addDeployRecord _ _ _ _ _ _ _) as [[saved|e] st'] eqn:Hadd.
  - left. split; [done|]. exists saved. split; [done|].
    destruct redis as [c|]; [|done].
    by destruct (addDeployRecord_inv _ _ _ _ _ _ _ _ _ Hadd) as ((? & _) & _).
  - right. split; [done|]. eexists. split; [done|]. apply message_or_nonempty.
Qed.

(** An answer 200 means: a client is configured, no required field of
    the body was missing, the saved record carries the text of each
    required field and the status as sent, and it is in the store under
    its key. *)
Theorem POST_200_saved redis now uuid (req_json : result (gmap string value))
    (st : Redis.Store) resp st' :
  DeployRoute.POST Date_parse toISOString NumberToString redis now uuid req_json st = (resp, st') →
  DeployRoute.code resp = 200 →
  ∃ body saved,
    req_json = Ok body
    ∧ is_Some redis
    ∧ DeployRoute.body resp = DeployRoute.BodyRecord saved
    ∧ (∀ k, k ∈ DeployRoute.required → ¬ missing body k)
    ∧ (title saved = Some (String_ NumberToString (get body "title"))
       ∧ projectName saved = Some (String_ NumberToString (get body "projectName"))
       ∧ operator saved = Some (String_ NumberToString (get body "operator"))
       ∧ environment saved = Some (String_ NumberToString (get body "environment"))
       ∧ branch saved = Some (String_ NumberToString (get body "branch"))
       ∧ commit saved = Some (String_ NumberToString (get body "commit"))
       ∧ status saved = get body "status")
    ∧ st' !! Db.record_key uuid
      = Some (Redis.EString (RawString (JsonRecord saved)) (Some (now + 2592000000))).
Proof.
  unfold DeployRoute.POST. destruct req_json as [body|e]; [|by intros [= <- <-]].
  pose proof (first_missing_spec body DeployRoute.required) as Hspec.
  destruct (DeployRoute.first_missing body DeployRoute.required) as [key|];
    [by intros [= <- <-]|].
  destruct (if truthy (get body "deployedAt") then _ else _) as [at_|e];
    [|by intros [= <- <-]].
  destruct (Db.addDeployRecord _ _ _ _ _ _ _) as [[saved|e] st1] eqn:Hadd;
    [|by intros [= <- <-]].
  intros [= <- <-] _. destruct redis as [c|]; [|done].
  exists body, saved. split; [done|]. split; [done|]. split; [done|]. split; [done|].
  destruct (addDeployRecord_inv _ _ _ _ _ _ _ _ _ Hadd) as (_ & _ & Hkey & _).
  specialize (Hkey uuid). rewrite decide_True in Hkey by done.
  split; [|done].
  revert Hadd. unfold Db.addDeployRecord.
  set (record := mkDeployRecord _ _ _ _ _ _ _ _ _ _). intros Hadd.
  assert (saved = record) as ->; [|done].
  repeat (apply bind_Ok in Hadd as (? & ? & _ & Hadd)).
  unfold Redis.ret in Hadd. by simplify_eq.
Qed.

(** Without a configured client the handler answers 400 to every request
    and stores nothing. *)
Theorem POST_without_redis now uuid (req_json : result (gmap string value))
    (st : Redis.Store) :
  let out := DeployRoute.POST Date_parse toISOString NumberToString None now uuid req_json st in
  DeployRoute.code out.1 = 400 ∧ out.2 = st.
Proof.
  unfold DeployRoute.POST. destruct req_json as [body|e]; [|done].
  destruct (DeployRoute.first_missing body DeployRoute.required) as [key|]; [done|].
  by destruct (if truthy (get body "deployedAt") then _ else _) as [at_|e].
Qed.

(** A body with every required field and a [deployedAt] that is truthy
    but not a date is refused with the message of the RangeError of
    [toISOString], and nothing is stored: the fallback of
    [resolveDeployedAt] to the current time is not reached from the
    route. *)
Theorem POST_rejects_non_date redis now uuid (body : gmap string value)
    (st : Redis.Store) :
  (∀ k, k ∈ DeployRoute.required → ¬ missing body k) →
  truthy (get body "deployedAt") = true →
  DeployRoute.Date_of Date_parse (get body "deployedAt") = None →
  DeployRoute.POST Date_parse toISOString NumberToString redis now uuid (Ok body) st
  = (DeployRoute.bad "Invalid time value", st).
Proof.
  intros Hall Htruthy Hdate. unfold DeployRoute.POST.
  rewrite (first_missing_None _ _ Hall), Htruthy.
  unfold DeployRoute.Date_toISOString. by rewrite Hdate.
Qed.

(** With a client whose commands do not fail and a store whose shared
    keys hold the right kind of value, a body with every required field
    and no [deployedAt] is answered 200; the record is dated with the
    current time. *)
Theorem POST_succeeds now uuid (body : gmap string value) (st : Redis.Store) :
  well_typed st →
  (∀ k, k ∈ DeployRoute.required → ¬ missing body k) →
  truthy (get body "deployedAt") = false →
  is_Some (Date_parse (toISOString now)) →
  ∃ saved st',
    DeployRoute.POST Date_parse toISOString NumberToString (Some Redis.reliable) now uuid (Ok body) st
    = ({| DeployRoute.code := 200; DeployRoute.body := DeployRoute.BodyRecord saved |},
       st')
    ∧ id saved = Some uuid
    ∧ deployedAt saved = Some (toISOString now).
Proof.
  intros Htyped Hall Hfalsy Hnow. unfold DeployRoute.POST.
  rewrite (first_missing_None _ _ Hall), Hfalsy.
  set (payload := mkCreateDeployPayload _ _ _ _ _ _ _ _ _).
  destruct (addDeployRecord_succeeds Date_parse toISOString now uuid payload st
              Htyped Hnow) as (r & st' & Hadd).
  rewrite Hadd. exists r, st'. split; [done|].
  by destruct (addDeployRecord_inv _ _ _ _ _ _ _ _ _ Hadd) as ((? & ? & _) & _).
Qed.

End PostExtras.

(** ** [clearAllData] and the route [POST /api/clean] *)

Section CleanExtras.

Import Redis.

Variable Date_parse : string → option Z.

Implicit Types st : Store.

Lemma find_later st now now' key :
  find st now key = None → now ≤ now' → find st now' key = None.
Proof.
  unfold find. destruct (st !! key) as [[v [t|]| | |]|]; try done.
  destruct (Z.ltb_spec now t); [done|]. intros _ Hle.
  destruct (Z.ltb_spec now' t); [lia|done].
Qed.

Lemma find_delete st now key k :
  find (delete key st) now k = if decide (k = key) then None else find st now k.
Proof.
  unfold find. case_decide as Hk.
  - subst k. by rewrite lookup_delete_eq.
  - by rewrite lookup_delete_ne.
Qed.

Lemma del_one_shrinks now acc key k :
  (Clean.del_one now acc key).2 !! k = None
  ∨ (Clean.del_one now acc key).2 !! k = acc.2 !! k.
Proof.
  unfold Clean.del_one. destruct (find acc.2 now key); simpl; [|by right].
  destruct (decide (k = key)) as [->|Hk].
  - left. apply lookup_delete_eq.
  - right. by apply lookup_delete_ne.
Qed.

Lemma del_fold_shrinks now ks acc k :
  (foldl (Clean.del_one now) acc ks).2 !! k = None
  ∨ (foldl (Clean.del_one now) acc ks).2 !! k = acc.2 !! k.
Proof.
  revert acc. induction ks as [|x ks IH]; intros acc; simpl; [by right|].
  destruct (IH (Clean.del_one now acc x)) as [H|H]; [by left|].
  rewrite H. apply del_one_shrinks.
Qed.

Lemma del_fold_removes now ks acc k :
  k ∈ ks → find (foldl (Clean.del_one now) acc ks).2 now k = None.
Proof.
  revert acc. induction ks as [|x ks IH]; intros acc Hk; simpl.
  { by apply elem_of_nil in Hk. }
  apply elem_of_cons in Hk as [->|Hk]; [|by apply IH].
  assert (find (Clean.del_one now acc x).2 now x = None) as Hx.
  { unfold Clean.del_one. destruct (find acc.2 now x) eqn:Hfind; simpl; [|done].
    by rewrite find_delete, decide_True. }
  destruct (del_fold_shrinks now ks (Clean.del_one now acc x) x) as [H|H].
  - by apply find_None.
  - by rewrite (find_ext _ _ _ _ H).
Qed.

Lemma del_fold_counts now ks acc :
  NoDup ks →
  (∀ k, k ∈ ks → is_Some (find acc.2 now k)) →
  (foldl (Clean.del_one now) acc ks).1 = acc.1 + Z.of_nat (length ks).
Proof.
  revert acc. induction ks as [|x ks IH]; intros acc Hnd Hlive; simpl; [lia|].
  apply NoDup_cons in Hnd as [Hx Hnd]. rewrite IH; [|done|].
  - unfold Clean.del_one. destruct (Hlive x) as [e ->]; [by left|]. simpl. lia.
  - intros k Hk. unfold Clean.del_one at 1.
    destruct (Hlive x) as [e ->]; [by left|]. simpl.
    rewrite find_delete, decide_False by (intros ->; done).
    apply Hlive. by right.
Qed.

Lemma keys_spec now st (live := filter (λ k, is_Some (find st now k)) (map_to_list st).*1) :
  NoDup live ∧ ∀ k, k ∈ live ↔ is_Some (find st now k).
Proof.
  split.
  - apply NoDup_filter, NoDup_fst_map_to_list.
  - intros k. unfold live. rewrite list_elem_of_filter, list_elem_of_fmap. split.
    + by intros [? _].
    + intros [e He]. split; [by exists e|].
      exists (k, e). split; [done|]. apply elem_of_map_to_list.
      by eapply find_Some.
Qed.

(** DEL of the keys that hold something leaves nothing behind. *)
Lemma del_fold_clears now st live :
  (∀ k, k ∈ live ↔ is_Some (find st now k)) →
  ∀ k now', now ≤ now' → find (foldl (Clean.del_one now) (0, st) live).2 now' k = None.
Proof.
  intros Hlive k now' Hle. apply find_later with (now := now); [|done].
  destruct (del_fold_shrinks now live (0, st) k) as [Hk|Hk].
  { by apply find_None. }
  destruct (find st now k) as [e|] eqn:Hfind.
  - apply del_fold_removes, Hlive. by exists e.
  - by rewrite (find_ext _ _ _ _ Hk).
Qed.

(** What a [clearAllData] that returned with a client left behind. *)
Lemma clearAllData_post c now st res st' :
  Clean.clearAllData (Some c) now st = (Ok res, st') →
  Clean.mode res = "redis"
  ∧ (∃ live, NoDup live
             ∧ (∀ k, k ∈ live ↔ is_Some (find st now k))
             ∧ Clean.cleared res = Z.of_nat (length live))
  ∧ ∀ k now', now ≤ now' → find st' now' k = None.
Proof.
  unfold Clean.clearAllData. intros H.
  apply bind_Ok in H as (n & st1 & H & Hret). unfold ret in Hret.
  injection Hret as <- <-.
  apply bind_Ok in H as (ks & st0 & Hkeys & H).
  unfold Clean.keys in Hkeys. destruct (Clean.fails c Clean.KEYS); [done|].
  injection Hkeys as <- <-.
  destruct (keys_spec now st) as [Hnd Hlive].
  set (live := filter _ _) in *.
  split; [done|]. case_bool_decide as Hne.
  - unfold Clean.del in H. destruct (Clean.fails c Clean.DEL) as [[e|e]|]; [done..|].
    cbv zeta in H. injection H as <- <-. split.
    + exists live. split; [done|]. split; [done|]. simpl.
      rewrite del_fold_counts; [simpl; lia|done|]. intros k. apply Hlive.
    + by apply del_fold_clears.
  - unfold ret in H. injection H as <- <-.
    assert (live = []) as Hnil by (destruct live; [done|by destruct Hne]).
    split.
    + exists live. split; [done|]. split; [done|]. by rewrite Hnil.
    + intros k now' Hle. apply find_later with (now := now); [|done].
      destruct (find st now k) as [e|] eqn:Hfind; [|done].
      assert (k ∈ live) as Hk by (apply Hlive; by exists e).
      rewrite Hnil in Hk. by apply elem_of_nil in Hk.
Qed.

(** With a client whose commands do not fail, [clearAllData] returns the
    number of keys that held something, in mode "redis", and leaves a
    store in which no key holds anything, now or later. *)
Theorem clearAllData_clears now st :
  ∃ live st',
    Clean.clearAllData (Some Clean.reliable) now st
    = (Ok {| Clean.cleared := Z.of_nat (length live); Clean.mode := "redis" |}, st')
    ∧ NoDup live
    ∧ (∀ k, k ∈ live ↔ is_Some (find st now k))
    ∧ ∀ k now', now ≤ now' → find st' now' k = None.
Proof.
  destruct (Clean.clearAllData (Some Clean.reliable) now st) as [[res|e] st'] eqn:H.
  - destruct (clearAllData_post _ _ _ _ _ H) as (Hmode & (live & Hnd & Hlive & Hn) & Hgone).
    exists live, st'. split; [|done].
    destruct res as [n m]. simpl in Hmode, Hn. by subst.
  - exfalso. revert H. unfold Clean.clearAllData, bind, Clean.keys, Clean.del, ret.
    simpl. by case_bool_decide.
Qed.

Lemma reads_of_empty c' st now' :
  (∀ k, find st now' k = None) →
  (Db.readZset (connect c' st now') = Ok [] ∨ ∃ e, Db.readZset (connect c' st now') = Throw e)
  ∧ (Db.readList (connect c' st now') = Ok [] ∨ ∃ e, Db.readList (connect c' st now') = Throw e).
Proof.
  intros Hgone. unfold Db.readZset, Db.readList. simpl. rewrite !Hgone. split.
  - destruct (fails c' ZRANGE); [right; by eexists|]. by left.
  - destruct (fails c' LRANGE); [right; by eexists|]. by left.
Qed.

(** Once [clearAllData] has returned, the query and the project list are
    empty, whichever instant and client they are asked with, until
    something is written. *)
Theorem clearAllData_empties_reads c c' now now' now_ limit projectNames st res st' :
  Clean.clearAllData (Some c) now st = (Ok res, st') →
  now ≤ now' →
  Db.getLatestDeployRecords Date_parse (Some (connect c' st' now')) now_ limit projectNames
  = Ok []
  ∧ Db.getAllProjects (Some (connect c' st' now')) = Ok [].
Proof.
  intros (_ & _ & Hgone)%clearAllData_post Hle.
  assert (∀ k, find st' now' k = None) as Hnone by (intros k; by apply Hgone).
  split.
  - destruct (reads_of_empty c' st' now' Hnone) as [[HZ|HZ] [HL|HL]];
      try (apply getLatest_catch; by auto).
    destruct (getLatest_spec Date_parse _ now_ projectNames _ _ HZ HL)
      as (full & _ & Hsub & ->).
    apply submseteq_nil_r in Hsub as ->. by rewrite slice0_nil.
  - unfold Db.getAllProjects. simpl. rewrite !Hnone.
    destruct (fails c' SMEMBERS); [done|]. simpl.
    by destruct (fails c' LRANGE).
Qed.

(** The route answers 200 with the count, or 500 with an error message
    that is not empty.  On 200 with a client nothing is left in the store.
    On 500 the store is as it was, unless it was DEL whose reply was lost:
    then nothing is left in it.  There is nothing in between.  Without a
    client the route answers 200, zero and mode "file". *)
Theorem clean_POST_all_or_nothing redis now st :
  let out := Clean.POST redis now st in
  match redis with
  | None =>
      out = ({| Clean.code := 200; Clean.body := Clean.BodyOk 0 "file" |}, st)
  | Some c =>
      (Clean.code out.1 = 200
       ∧ (∃ n, Clean.body out.1 = Clean.BodyOk n "redis" ∧ 0 ≤ n)
       ∧ ∀ k, find out.2 now k = None)
      ∨ (Clean.code out.1 = 500
         ∧ (∃ msg, Clean.body out.1 = Clean.BodyError msg ∧ msg ≠ "")
         ∧ (out.2 = st
            ∨ (∃ e, Clean.fails c Clean.DEL = Some (ReplyLost e))
              ∧ ∀ k, find out.2 now k = None))
  end.
Proof.
  destruct redis as [c|]; [|done]. unfold Clean.POST.
  destruct (Clean.clearAllData (Some c) now st) as [[res|e] st'] eqn:H.
  - left. destruct (clearAllData_post _ _ _ _ _ H) as (Hmode & (live & _ & _ & Hn) & Hgone).
    split; [done|]. split.
    + exists (Clean.cleared res). simpl. rewrite Hmode. split; [done|]. lia.
    + intros k. by apply Hgone.
  - right. split; [done|]. split.
    + eexists. split; [done|]. destruct (string_truthy e) eqn:He; [|done].
      by intros ->.
    + simpl. revert H. unfold Clean.clearAllData, bind, Clean.keys, Clean.del, ret, throw.
      destruct (Clean.fails c Clean.KEYS); [intros [= _ <-]; by left|].
      destruct (keys_spec now st) as [_ Hlive].
      case_bool_decide; [|done].
      destruct (Clean.fails c Clean.DEL) as [[e'|e']|]; [| |done].
      * intros [= _ <-]. by left.
      * intros [= _ <-]. right. split; [by exists e'|].
        intros k. apply del_fold_clears; [done|lia].
Qed.

End CleanExtras.

(** ** The page: the cache of seen identifiers and the notifications *)

Section PageExtras.

Variable encodeURIComponent : string → string.

Lemma Set_values_foldl_NoDup {A} `{EqDecision A} (acc l : list A) :
  NoDup (acc ++ l) →
  foldl (λ acc x, if decide (x ∈ acc) then acc else acc ++ [x]) acc l = acc ++ l.
Proof.
  revert acc. induction l as [|x l IH]; intros acc Hnd; simpl.
  { by rewrite app_nil_r. }
  assert (x ∉ acc) as Hx.
  { apply NoDup_app in Hnd as (_ & Hdisj & _). intros Hin.
    apply (Hdisj x Hin). by left. }
  rewrite decide_False by done. rewrite IH; rewrite <- app_assoc; done.
Qed.

Lemma Set_values_NoDup_id {A} `{EqDecision A} (l : list A) :
  NoDup l → Set_values l = l.
Proof. intros Hnd. unfold Set_values. by rewrite Set_values_foldl_NoDup. Qed.

Lemma Set_values_foldl_prefix {A} `{EqDecision A} (acc l : list A) :
  ∃ k, foldl (λ acc x, if decide (x ∈ acc) then acc else acc ++ [x]) acc l = acc ++ k.
Proof.
  revert acc. induction l as [|x l IH]; intros acc; simpl.
  { exists []. by rewrite app_nil_r. }
  case_decide; [apply IH|].
  destruct (IH (acc ++ [x])) as [k ->]. exists ([x] ++ k). by rewrite app_assoc.
Qed.

Lemma Set_values_app_prefix {A} `{EqDecision A} (l1 l2 : list A) :
  NoDup l1 → ∃ k, Set_values (l1 ++ l2) = l1 ++ k.
Proof.
  intros Hnd. unfold Set_values. rewrite foldl_app.
  fold (Set_values l1). rewrite (Set_values_NoDup_id l1 Hnd).
  apply Set_values_foldl_prefix.
Qed.

Lemma strings_of_id_values (l : list (option string)) :
  omap (λ x, match x with Str s => Some s | _ => None end) (Page.id_value <$> l)
  = omap Datatypes.id l.
Proof.
  induction l as [|[s|] l IH]; [done| |]; rewrite fmap_cons; simpl.
  - change (omap Datatypes.id (Some s :: l)) with (s :: omap Datatypes.id l).
    by f_equal.
  - exact IH.
Qed.

Lemma readSeenIds_writeSeenIds (ids : list (option string)) :
  Page.readSeenIds (Page.writeSeenIds ids)
  = omap Datatypes.id (take Page.MAX_SEEN_CACHE (Set_values ids)).
Proof. unfold Page.readSeenIds, Page.writeSeenIds. apply strings_of_id_values. Qed.

Lemma omap_id_sublist (l : list (option string)) :
  sublist (Some <$> omap Datatypes.id l) l.
Proof.
  induction l as [|[s|] l IH]; [done| |].
  - change (omap Datatypes.id (Some s :: l)) with (s :: omap Datatypes.id l).
    rewrite fmap_cons. by apply sublist_skip.
  - change (omap Datatypes.id (None :: l)) with (omap Datatypes.id l).
    by apply sublist_cons.
Qed.

Lemma omap_id_Some (l : list string) : omap Datatypes.id (Some <$> l) = l.
Proof.
  induction l as [|s l IH]; [done|]. rewrite fmap_cons.
  change (omap Datatypes.id (Some s :: (Some <$> l)))
    with (s :: omap Datatypes.id (Some <$> l)).
  by f_equal.
Qed.

Lemma elem_of_omap_id (l : list (option string)) (s : string) :
  s ∈ omap Datatypes.id l ↔ Some s ∈ l.
Proof.
  rewrite list_elem_of_omap. split.
  - intros (o & Ho & Hs). change (o = Some s) in Hs. by subst o.
  - intros Hs. by exists (Some s).
Qed.

Lemma seen_complete (ids : list (option string)) (s : string) :
  (length (Set_values ids) ≤ Page.MAX_SEEN_CACHE)%nat →
  Some s ∈ ids → s ∈ Page.readSeenIds (Page.writeSeenIds ids).
Proof.
  intros Hfit Hs. rewrite readSeenIds_writeSeenIds, take_ge by done.
  by rewrite elem_of_omap_id, elem_of_Set_values.
Qed.

(** What [writeSeenIds] stores, [readSeenIds] reads back without
    duplicates, with at most [MAX_SEEN_CACHE] entries, and only
    identifiers that were written. *)
Theorem seen_cache_bounded (ids : list (option string)) :
  let back := Page.readSeenIds (Page.writeSeenIds ids) in
  NoDup back
  ∧ (length back ≤ Page.MAX_SEEN_CACHE)%nat
  ∧ ∀ s, s ∈ back → Some s ∈ ids.
Proof.
  intros back. unfold back. rewrite readSeenIds_writeSeenIds.
  set (kept := take Page.MAX_SEEN_CACHE (Set_values ids)).
  pose proof (omap_id_sublist kept) as Hsub.
  assert (NoDup kept) as Hnd.
  { eapply sublist_NoDup; [apply (NoDup_Set_values ids)|apply sublist_take]. }
  split_and!.
  - apply (NoDup_fmap_1 Some). by eapply sublist_NoDup.
  - apply sublist_length in Hsub. rewrite length_fmap in Hsub.
    etrans; [exact Hsub|]. unfold kept. rewrite length_take. lia.
  - intros s Hs%elem_of_omap_id. apply (elem_of_Set_values ids).
    eapply elem_of_sublist; [exact Hs|apply sublist_take].
Qed.

(** As long as the distinct identifiers fit the cache, every string
    identifier written is read back. *)
Theorem seen_cache_complete (ids : list (option string)) :
  (length (Set_values ids) ≤ Page.MAX_SEEN_CACHE)%nat →
  ∀ s, s ∈ Page.readSeenIds (Page.writeSeenIds ids) ↔ Some s ∈ ids.
Proof.
  intros Hfit s. rewrite readSeenIds_writeSeenIds, take_ge by done.
  by rewrite elem_of_omap_id, elem_of_Set_values.
Qed.

(** [poll] does something the user notices (a notification, a request
    for permission, a push, the favicon, an error message) only when the
    query failed, or when the cache is not empty, the change of filter is
    not being absorbed, and some record shown has an identifier the cache
    does not hold. *)
Theorem poll_effects_only_when_new w st queried :
  (Page.poll encodeURIComponent w st queried).2 ≠ [] →
  (∃ e, queried = Throw e)
  ∨ ∃ data x,
      queried = Ok data
      ∧ Page.suppressNotify st = false
      ∧ Page.readSeenIds (Page.storage st) ≠ []
      ∧ x ∈ data
      ∧ ∀ s, id x = Some s → s ∉ Page.readSeenIds (Page.storage st).
Proof.
  unfold Page.poll. destruct queried as [data|e]; [|left; by exists e].
  intros H. right.
  case_bool_decide as Hdata; [|done]. cbv zeta in H.
  case_bool_decide as Hseen; [done|].
  case_bool_decide as Hnew; [|done].
  destruct (Page.suppressNotify st) eqn:Hsuppress; [done|]. clear H.
  destruct (filter _ _) as [|i rest] eqn:Hfilter; [done|].
  assert (i ∈ filter (λ i, negb (Page.has (Set_values (Page.readSeenIds (Page.storage st))) i))
                (id <$> data)) as Hi by (rewrite Hfilter; by left).
  apply list_elem_of_filter in Hi as [Hunseen Hi].
  apply list_elem_of_fmap in Hi as (x & -> & Hx).
  exists data, x. split_and!; [done..| by intros Hnil; rewrite Hnil in Hseen|done|].
  intros s Hs Hin. rewrite Hs in Hunseen. simpl in Hunseen.
  rewrite bool_decide_eq_true_2 in Hunseen; [done|]. by apply elem_of_Set_values.
Qed.

Lemma poll_storage w st data :
  data ≠ [] →
  Page.storage (Page.poll encodeURIComponent w st (Ok data)).1
  = Page.writeSeenIds ((Some <$> Set_values (Page.readSeenIds (Page.storage st)))
                         ++ (id <$> data)).
Proof.
  intros Hdata. unfold Page.poll. rewrite bool_decide_eq_true_2 by done. cbv zeta.
  case_bool_decide as Hseen; [by rewrite Hseen|].
  case_bool_decide; [by destruct (Page.suppressNotify st)|done].
Qed.

Lemma poll_silent w st data :
  (∀ x, x ∈ data → ∃ s, id x = Some s
                        ∧ s ∈ Set_values (Page.readSeenIds (Page.storage st))) →
  (Page.poll encodeURIComponent w st (Ok data)).2 = [].
Proof.
  intros Hall. unfold Page.poll. case_bool_decide as Hdata; [|done]. cbv zeta.
  case_bool_decide as Hseen; [done|].
  destruct (filter _ _) as [|i rest] eqn:Hfilter; [done|].
  assert (i ∈ filter (λ i, negb (Page.has (Set_values (Page.readSeenIds (Page.storage st))) i))
                (id <$> data)) as Hi by (rewrite Hfilter; by left).
  apply list_elem_of_filter in Hi as [Hunseen Hi].
  apply list_elem_of_fmap in Hi as (x & -> & Hx).
  destruct (Hall x Hx) as (s & Hs & Hin). rewrite Hs in Hunseen. simpl in Hunseen.
  by rewrite bool_decide_eq_true_2 in Hunseen.
Qed.

Lemma poll_notifies w st data x s :
  Page.suppressNotify st = false →
  Set_values (Page.readSeenIds (Page.storage st)) ≠ [] →
  x ∈ data → id x = Some s →
  s ∉ Set_values (Page.readSeenIds (Page.storage st)) →
  Page.SetFaviconsToNewMessage ∈ (Page.poll encodeURIComponent w st (Ok data)).2
  ∧ Page.suppressNotify (Page.poll encodeURIComponent w st (Ok data)).1 = false.
Proof.
  intros Hsuppress Hseen Hx Hs Hunseen. unfold Page.poll.
  rewrite bool_decide_eq_true_2 by (intros Hnil; rewrite Hnil in Hx; by apply elem_of_nil in Hx).
  cbv zeta. rewrite (bool_decide_eq_false_2 _ Hseen).
  rewrite bool_decide_eq_true_2.
  - rewrite Hsuppress. simpl. split; [|done]. apply elem_of_app. right. by left.
  - intros Hnil.
    assert (Some s ∈ filter (λ i, negb (Page.has (Set_values (Page.readSeenIds (Page.storage st))) i))
                       (id <$> data)) as Hin.
    { apply list_elem_of_filter. split.
      - simpl. by rewrite bool_decide_eq_false_2.
      - apply list_elem_of_fmap. by exists x. }
    rewrite Hnil in Hin. by apply elem_of_nil in Hin.
Qed.

(** When every record has a string identifier and the distinct
    identifiers, cached and shown, fit the cache, a second [poll] that
    gets the same records does nothing the user notices. *)
Theorem poll_twice_silent w st data :
  (∀ x, x ∈ data → is_Some (id x)) →
  (length (Set_values ((Some <$> Set_values (Page.readSeenIds (Page.storage st)))
                         ++ (id <$> data))) ≤ Page.MAX_SEEN_CACHE)%nat →
  (Page.poll encodeURIComponent w
     (Page.poll encodeURIComponent w st (Ok data)).1 (Ok data)).2 = [].
Proof.
  intros Hids Hfit. destruct (decide (data = [])) as [->|Hdata]; [done|].
  apply poll_silent. intros x Hx. destruct (Hids x Hx) as [s Hs].
  exists s. split; [done|]. rewrite poll_storage by done.
  apply elem_of_Set_values, seen_complete; [done|].
  apply elem_of_app. right. apply list_elem_of_fmap. by exists x.
Qed.

(** Once the cache holds [MAX_SEEN_CACHE] identifiers, [poll] records
    no further one: the cache stays as it is, so a record whose
    identifier it does not hold is announced by this [poll] and again by
    the next one that gets the same records. *)
Theorem poll_full_cache_repeats w st data x s :
  (Page.MAX_SEEN_CACHE ≤ length (Set_values (Page.readSeenIds (Page.storage st))))%nat →
  Page.suppressNotify st = false →
  x ∈ data → id x = Some s →
  s ∉ Page.readSeenIds (Page.storage st) →
  let first := Page.poll encodeURIComponent w st (Ok data) in
  Page.SetFaviconsToNewMessage ∈ first.2
  ∧ Page.readSeenIds (Page.storage first.1)
    = take Page.MAX_SEEN_CACHE (Set_values (Page.readSeenIds (Page.storage st)))
  ∧ Page.SetFaviconsToNewMessage ∈ (Page.poll encodeURIComponent w first.1 (Ok data)).2.
Proof.
  intros Hfull Hsuppress Hx Hs Hunseen first.
  set (seen := Set_values (Page.readSeenIds (Page.storage st))) in *.
  assert (s ∉ seen) as Hs_seen by (unfold seen; by rewrite elem_of_Set_values).
  assert (seen ≠ []) as Hne.
  { intros Hnil. rewrite Hnil in Hfull. unfold Page.MAX_SEEN_CACHE in Hfull.
    simpl in Hfull. lia. }
  assert (data ≠ []) as Hdata.
  { intros Hnil. rewrite Hnil in Hx. by apply elem_of_nil in Hx. }
  destruct (poll_notifies w st data x s Hsuppress Hne Hx Hs Hs_seen) as [Hfirst Hflag].
  assert (Page.readSeenIds (Page.storage first.1) = take Page.MAX_SEEN_CACHE seen) as Hkept.
  { unfold first. rewrite poll_storage, readSeenIds_writeSeenIds by done. fold seen.
    destruct (Set_values_app_prefix (Some <$> seen) (id <$> data)) as [k ->].
    { apply (NoDup_fmap_2 Some), NoDup_Set_values. }
    rewrite take_app_le by (rewrite length_fmap; done).
    by rewrite <- fmap_take, omap_id_Some. }
  split; [done|]. split; [done|].
  assert (NoDup (take Page.MAX_SEEN_CACHE seen)) as Hnd.
  { eapply sublist_NoDup; [apply NoDup_Set_values|apply sublist_take]. }
  apply (poll_notifies w first.1 data x s); [done| |done|done|].
  - rewrite Hkept, Set_values_NoDup_id by done.
    destruct seen as [|y seen']; [done|]. done.
  - rewrite Hkept, Set_values_NoDup_id by done.
    intros Hin. apply Hs_seen. eapply elem_of_sublist; [exact Hin|apply sublist_take].
Qed.

(** A notification shown by [poll] is about a record of the answer whose
    identifier the cache does not hold: its title is the project and its
    text the commit of that record, and the permission is granted. *)
Theorem poll_notification_names_new_record w st data title body :
  Page.NewNotification title body ∈ (Page.poll encodeURIComponent w st (Ok data)).2 →
  ∃ x, x ∈ data
       ∧ (∀ s, id x = Some s → s ∉ Page.readSeenIds (Page.storage st))
       ∧ title = Page.template (projectName x)
       ∧ body = Page.template (commit x)
       ∧ Page.permission w = Page.Granted.
Proof.
  unfold Page.poll. case_bool_decide as Hdata; [|by intros ?%elem_of_nil]. cbv zeta.
  case_bool_decide as Hseen; [by intros ?%elem_of_nil|].
  set (seen := Set_values (Page.readSeenIds (Page.storage st))).
  set (newIds := filter (λ i, negb (Page.has seen i)) (id <$> data)).
  case_bool_decide as Hnew; [|by intros ?%elem_of_nil].
  destruct (Page.suppressNotify st); [by intros ?%elem_of_nil|]. simpl.
  assert (∃ x, x ∈ data ∧ id x ∈ newIds) as (x0 & Hx0 & Hx0new).
  { destruct newIds as [|i rest] eqn:Hfilter; [done|].
    assert (i ∈ newIds) as Hi by (rewrite Hfilter; by left).
    unfold newIds in Hi. apply list_elem_of_filter in Hi as [_ Hi].
    apply list_elem_of_fmap in Hi as (x & -> & Hx). exists x. split; [done|].
    by left. }
  unfold Page.notify.
  destruct (list_find (λ x, id x ∈ newIds) data) as [[n x]|] eqn:Hfind.
  2:{ apply list_find_None in Hfind. rewrite Forall_forall in Hfind.
      by destruct (Hfind x0 Hx0). }
  apply list_find_Some in Hfind as (Hn & Hx & _). simpl.
  intros Hin. exists x. split; [by eapply list_elem_of_lookup_2|].
  assert (∀ s, id x = Some s → s ∉ Page.readSeenIds (Page.storage st)) as Hunseen.
  { intros s Hs Hs_in. unfold newIds in Hx.
    apply list_elem_of_filter in Hx as [Hx _]. rewrite Hs in Hx. simpl in Hx.
    rewrite bool_decide_eq_true_2 in Hx; [done|]. by apply elem_of_Set_values. }
  split; [done|].
  rewrite !elem_of_app in Hin. destruct Hin as [[Hin|Hin]|Hin].
  - destruct (Page.has_Notification w); [|by apply elem_of_nil in Hin].
    destruct (Page.permission w); [|by apply elem_of_nil in Hin|].
    + apply list_elem_of_singleton in Hin. by injection Hin as -> ->.
    + apply list_elem_of_singleton in Hin. discriminate Hin.
  - destruct (string_truthy (Page.barkBase w)); [|by apply elem_of_nil in Hin].
    apply list_elem_of_singleton in Hin. discriminate Hin.
  - apply list_elem_of_singleton in Hin. discriminate Hin.
Qed.

End PageExtras.

(** ** The further properties on the sample data *)

Ltac each_required :=
  let k := fresh "k" in
  let Hk := fresh "Hk" in
  let H := fresh "H" in
  intros k Hk;
  repeat (apply elem_of_cons in Hk as [->|Hk]);
  [intros H; vm_compute in H; discriminate H..|by apply elem_of_nil in Hk].

Lemma getLatest_records_well_formed_witness :
  Db.has_id_and_date record_b = true
  ∧ ∃ t, Db.getTime ISO.parse (deployedAt record_b) = Some t
         ∧ T0 - Db.THIRTY_DAYS_MS ≤ t.
Proof.
  apply (getLatest_records_well_formed ISO.parse
           (Some (Redis.connect Redis.reliable store_ab T0)) T0 (of_Z 20) None
           [record_a; record_b] record_b).
  - vm_compute. reflexivity.
  - apply elem_of_cons. right. apply elem_of_cons. by left.
Defined.

Lemma getLatest_filters_projects_witness :
  projectName record_b ≠ None ∧ ∃ p, projectName record_b = Some p ∧ p ∈ ["svc-b"].
Proof.
  apply (getLatest_filters_projects ISO.parse
           (Some (Redis.connect Redis.reliable store_ab T0)) T0 (of_Z 20) ["svc-b"]
           [record_b] record_b).
  - discriminate.
  - vm_compute. reflexivity.
  - apply elem_of_cons. by left.
Defined.

Lemma getLatest_newest_first_witness :
  StronglySorted at_least_as_new [record_a; record_b].
Proof.
  apply (getLatest_newest_first ISO.parse
           (Some (Redis.connect Redis.reliable store_ab T0)) T0 (of_Z 20) None).
  vm_compute. reflexivity.
Defined.

Lemma getLatest_pages_witness :
  ∃ ranked,
    Db.getLatestDeployRecords ISO.parse (Some (Redis.connect Redis.reliable store_ab T0))
      T0 PosInfinity None = Ok ranked
    ∧ [record_a] `prefix_of` ranked
    ∧ (∀ n : nat, of_Z 1 = of_Z (Z.of_nat n) → [record_a] = take n ranked)
    ∧ (of_Z 1 = NaN → [record_a] = []).
Proof.
  apply (getLatest_pages ISO.parse (Redis.connect Redis.reliable store_ab T0) T0
           (of_Z 1) None [record_a]).
  vm_compute. reflexivity.
Defined.

Lemma GET_filters_by_projectName_witness :
  ∃ data,
    DeployRoute.body
      {| DeployRoute.code := 200; DeployRoute.body := DeployRoute.BodyRecords [record_b] |}
    = DeployRoute.BodyRecords data
    ∧ ∀ r, r ∈ data →
           ∃ p, projectName r = Some p
                ∧ p ∈ DeployRoute.searchParams_getAll
                        [("limit", "5"); ("projectName", "svc-b")] "projectName".
Proof.
  apply (GET_filters_by_projectName ISO.parse Decimal.StringToNumber
           (Some (Redis.connect Redis.reliable store_ab T0)) T0
           [("limit", "5"); ("projectName", "svc-b")]).
  - intros H. vm_compute in H. discriminate H.
  - vm_compute. reflexivity.
Defined.

Lemma GET_blank_projects_unfiltered_witness :
  DeployRoute.GET ISO.parse Decimal.StringToNumber
    (Some (Redis.connect Redis.reliable store_ab T0)) T0
    [("projects", String " " (String "," (String (ascii_of_nat 160) "")))]
  = (let* data := Db.getLatestDeployRecords ISO.parse
                    (Some (Redis.connect Redis.reliable store_ab T0)) T0
                    (DeployRoute.GET_limit Decimal.StringToNumber
                       [("projects",
                         String " " (String "," (String (ascii_of_nat 160) "")))])
                    None in
     Ok {| DeployRoute.code := 200; DeployRoute.body := DeployRoute.BodyRecords data |}).
Proof.
  apply (GET_blank_projects_unfiltered ISO.parse Decimal.StringToNumber
           (Some (Redis.connect Redis.reliable store_ab T0)) T0
           [("projects", String " " (String "," (String (ascii_of_nat 160) "")))]
           (String " " (String "," (String (ascii_of_nat 160) "")))).
  - vm_compute. reflexivity.
  - vm_compute. reflexivity.
  - intros c Hc. cbn in Hc.
    repeat (apply elem_of_cons in Hc as [->|Hc]).
    + right. unfold WhiteSpace. cbn. do 5 apply list_elem_of_further. by left.
    + by left.
    + right. unfold WhiteSpace. cbn. do 6 apply list_elem_of_further. by left.
    + by apply elem_of_nil in Hc.
Defined.

Lemma page_query_served_witness :
  DeployRoute.GET ISO.parse Decimal.StringToNumber
    (Some (Redis.connect Redis.reliable store_ab T0)) T0 (Page.query_params ["svc-a"])
  = (let* data := Db.getLatestDeployRecords ISO.parse
                    (Some (Redis.connect Redis.reliable store_ab T0)) T0 (of_Z 20)
                    (if bool_decide (["svc-a"] = []) then None else Some ["svc-a"]) in
     Ok {| DeployRoute.code := 200; DeployRoute.body := DeployRoute.BodyRecords data |}).
Proof.
  apply (page_query_served ISO.parse Decimal.StringToNumber
           (Some (Redis.connect Redis.reliable store_ab T0)) T0 ["svc-a"]).
  vm_compute. reflexivity.
Defined.

Lemma projects_GET_lists_set_witness :
  ∃ l, ProjectsRoute.GET (Some (Redis.connect Redis.reliable store_ab T0))
       = Ok {| ProjectsRoute.code := 200; ProjectsRoute.data := l |}
       ∧ ∀ o, o ∈ l ↔ o ∈ [PString "svc-a"; PString "svc-b"].
Proof.
  apply (projects_GET_lists_set (Redis.connect Redis.reliable store_ab T0)
           [PString "svc-a"; PString "svc-b"]).
  - vm_compute. reflexivity.
  - discriminate.
Defined.

Lemma projects_GET_infers_from_list_witness :
  ∃ l, ProjectsRoute.GET (Some (Redis.connect Redis.reliable store_ab_unregistered T0))
       = Ok {| ProjectsRoute.code := 200; ProjectsRoute.data := l |}
       ∧ ∀ o, o ∈ l ↔
              ∃ r, r ∈ omap Db.coerceRecord
                         [RawString (JsonRecord record_b); RawString (JsonRecord record_a)]
                   ∧ of_name (projectName r) = o.
Proof.
  apply (projects_GET_infers_from_list
           (Redis.connect Redis.reliable store_ab_unregistered T0) (Redis.ReplyArray [])).
  - vm_compute. reflexivity.
  - intros members [= <-]. reflexivity.
  - vm_compute. reflexivity.
Defined.

Lemma legacy_projects_GET_witness :
  ∃ records,
    Db.getLatestDeployRecords ISO.parse (Some (Redis.connect Redis.reliable store_ab T0)) T0
      (ProjectsRoute.legacy_limit Decimal.StringToNumber [("limit", "5000")]) None
    = Ok records
    ∧ number_le (of_Z 1)
        (ProjectsRoute.legacy_limit Decimal.StringToNumber [("limit", "5000")])
    ∧ number_le (ProjectsRoute.legacy_limit Decimal.StringToNumber [("limit", "5000")])
        (of_Z 1000)
    ∧ StronglySorted name_lt
        (ProjectsRoute.data
           {| ProjectsRoute.code := 200;
              ProjectsRoute.data := [Some "svc-a"; Some "svc-b"] |})
    ∧ ∀ o, o ∈ ProjectsRoute.data
                 {| ProjectsRoute.code := 200;
                    ProjectsRoute.data := [Some "svc-a"; Some "svc-b"] |}
           ↔ ∃ r, r ∈ records ∧ projectName r = o.
Proof.
  apply (legacy_projects_GET ISO.parse Decimal.StringToNumber
           (Some (Redis.connect Redis.reliable store_ab T0)) T0 [("limit", "5000")]).
  vm_compute. reflexivity.
Defined.

Lemma addDeployRecord_registers_project_witness :
  ∃ l, ProjectsRoute.GET (Some (Redis.connect Redis.reliable store_ab (T0 + DAY)))
       = Ok {| ProjectsRoute.code := 200; ProjectsRoute.data := l |}
       ∧ ∀ o, o ∈ l ↔
              ∃ p, o = PString p
                   ∧ (p = payload_projectName
                            (payload "svc-b" (Some "2023-11-13T22:13:20.000Z")
                               (Str "success"))
                      ∨ p ∈ set_at store_a T0 PROJECT_SET_KEY).
Proof.
  apply (addDeployRecord_registers_project ISO.parse ISO.toISOString
           Redis.reliable Redis.reliable T0 (T0 + DAY) "id-b"
           (payload "svc-b" (Some "2023-11-13T22:13:20.000Z") (Str "success"))
           store_a record_b store_ab).
  - vm_compute. reflexivity.
  - reflexivity.
  - assert (elements (set_at store_a T0 PROJECT_SET_KEY) = ["svc-a"]) as Hregistered
      by (vm_compute; reflexivity).
    intros p [->|Hp]; [vm_compute; reflexivity|].
    apply elem_of_elements in Hp. rewrite Hregistered in Hp.
    apply list_elem_of_singleton in Hp as ->. vm_compute. reflexivity.
Defined.

Lemma addDeployRecord_bounds_list_witness :
  ∃ l, store_ab !! DEPLOY_KEY = Some (Redis.EList l)
       ∧ l = RawString (JsonRecord record_b)
               :: take (Z.to_nat (Db.MAX_ITEMS - 1)) (list_at store_a T0 DEPLOY_KEY)
       ∧ Z.of_nat (length l) ≤ Db.MAX_ITEMS.
Proof.
  apply (addDeployRecord_bounds_list ISO.parse ISO.toISOString Redis.reliable T0 "id-b"
           (payload "svc-b" (Some "2023-11-13T22:13:20.000Z") (Str "success"))
           store_a record_b store_ab).
  vm_compute. reflexivity.
Defined.

Lemma addDeployRecord_prunes_index_witness :
  ∃ score z,
    Db.getTime ISO.parse (deployedAt record_b) = Some score
    ∧ store_ab !! DEPLOY_ZSET_KEY = Some (Redis.EZset z)
    ∧ z !! "id-b" = Some score
    ∧ ∀ m s, m ≠ "id-b" →
        z !! m = Some s
        ↔ zset_at store_a T0 DEPLOY_ZSET_KEY !! m = Some s
          ∧ (s < 0 ∨ score - Db.THIRTY_DAYS_MS ≤ s).
Proof.
  apply (addDeployRecord_prunes_index ISO.parse ISO.toISOString Redis.reliable T0 "id-b"
           (payload "svc-b" (Some "2023-11-13T22:13:20.000Z") (Str "success"))
           store_a record_b store_ab).
  vm_compute. reflexivity.
Defined.

Lemma addDeployRecord_no_rollback_witness :
  ∃ r, id r = Some "id-b"
       ∧ projectName r = Some (payload_projectName (payload "svc-b" None (Str "success")))
       ∧ (Db.addDeployRecord ISO.parse ISO.toISOString (Some lpush_down) T0 "id-b"
            (payload "svc-b" None (Str "success")) store_a).2 !! Db.record_key "id-b"
         = Some (Redis.EString (RawString (JsonRecord r)) (Some (T0 + 2592000000))).
Proof.
  apply (addDeployRecord_no_rollback ISO.parse ISO.toISOString lpush_down T0 "id-b"
           (payload "svc-b" None (Str "success")) store_a "fetch failed").
  - reflexivity.
  - vm_compute. reflexivity.
Defined.

Lemma POST_200_saved_witness :
  ∃ body0 saved,
    Ok (body (Str "success")) = Ok body0
    ∧ is_Some (Some Redis.reliable)
    ∧ DeployRoute.body
        (DeployRoute.POST ISO.parse ISO.toISOString Decimal.NumberToString (Some Redis.reliable) T0 "id-x"
           (Ok (body (Str "success"))) ∅).1
      = DeployRoute.BodyRecord saved
    ∧ (∀ k, k ∈ DeployRoute.required → ¬ missing body0 k)
    ∧ (title saved = Some (String_ Decimal.NumberToString (get body0 "title"))
       ∧ projectName saved = Some (String_ Decimal.NumberToString (get body0 "projectName"))
       ∧ operator saved = Some (String_ Decimal.NumberToString (get body0 "operator"))
       ∧ environment saved = Some (String_ Decimal.NumberToString (get body0 "environment"))
       ∧ branch saved = Some (String_ Decimal.NumberToString (get body0 "branch"))
       ∧ commit saved = Some (String_ Decimal.NumberToString (get body0 "commit"))
       ∧ status saved = get body0 "status")
    ∧ (DeployRoute.POST ISO.parse ISO.toISOString Decimal.NumberToString (Some Redis.reliable) T0 "id-x"
         (Ok (body (Str "success"))) ∅).2 !! Db.record_key "id-x"
      = Some (Redis.EString (RawString (JsonRecord saved)) (Some (T0 + 2592000000))).
Proof.
  apply (POST_200_saved ISO.parse ISO.toISOString Decimal.NumberToString (Some Redis.reliable) T0 "id-x"
           (Ok (body (Str "success"))) ∅).
  - apply surjective_pairing.
  - vm_compute. reflexivity.
Defined.

Lemma POST_rejects_non_date_witness :
  DeployRoute.POST ISO.parse ISO.toISOString Decimal.NumberToString (Some Redis.reliable) T0 "id-x"
    (Ok (<["deployedAt" := Str "tomorrow"]> (body (Str "success")))) ∅
  = (DeployRoute.bad "Invalid time value", ∅).
Proof.
  apply (POST_rejects_non_date ISO.parse ISO.toISOString Decimal.NumberToString (Some Redis.reliable) T0 "id-x"
           (<["deployedAt" := Str "tomorrow"]> (body (Str "success"))) ∅).
  - each_required.
  - vm_compute. reflexivity.
  - vm_compute. reflexivity.
Defined.

Lemma POST_succeeds_witness :
  ∃ saved st',
    DeployRoute.POST ISO.parse ISO.toISOString Decimal.NumberToString (Some Redis.reliable) T0 "id-b"
      (Ok (body (Str "running"))) store_a
    = ({| DeployRoute.code := 200; DeployRoute.body := DeployRoute.BodyRecord saved |},
       st')
    ∧ id saved = Some "id-b"
    ∧ deployedAt saved = Some (ISO.toISOString T0).
Proof.
  apply (POST_succeeds ISO.parse ISO.toISOString Decimal.NumberToString T0 "id-b" (body (Str "running")) store_a).
  - split_and!; right; eexists; vm_compute; reflexivity.
  - each_required.
  - vm_compute. reflexivity.
  - vm_compute. eexists. reflexivity.
Defined.

Lemma clearAllData_empties_reads_witness :
  Db.getLatestDeployRecords ISO.parse
    (Some (Redis.connect Redis.reliable
             (Clean.clearAllData (Some Clean.reliable) T0 store_ab).2 (T0 + DAY)))
    (T0 + DAY) (of_Z 20) None
  = Ok []
  ∧ Db.getAllProjects
      (Some (Redis.connect Redis.reliable
               (Clean.clearAllData (Some Clean.reliable) T0 store_ab).2 (T0 + DAY)))
    = Ok [].
Proof.
  apply (clearAllData_empties_reads ISO.parse Clean.reliable Redis.reliable T0 (T0 + DAY)
           (T0 + DAY) (of_Z 20) None store_ab
           {| Clean.cleared := 5; Clean.mode := "redis" |}).
  - vm_compute. reflexivity.
  - vm_compute. discriminate.
Defined.

Lemma seen_cache_complete_witness :
  "id-b" ∈ Page.readSeenIds
             (Page.writeSeenIds [Some "id-a"; None; Some "id-a"; Some "id-b"])
  ↔ Some "id-b" ∈ [Some "id-a"; None; Some "id-a"; Some "id-b"].
Proof.
  apply (seen_cache_complete [Some "id-a"; None; Some "id-a"; Some "id-b"]).
  apply Nat.leb_le. vm_compute. reflexivity.
Defined.

Lemma poll_effects_only_when_new_witness :
  (∃ e, Ok [record_b; record_a] = Throw e)
  ∨ ∃ data x,
      Ok [record_b; record_a] = Ok data
      ∧ Page.suppressNotify page_seen_a = false
      ∧ Page.readSeenIds (Page.storage page_seen_a) ≠ []
      ∧ x ∈ data
      ∧ ∀ s, id x = Some s → s ∉ Page.readSeenIds (Page.storage page_seen_a).
Proof.
  apply (poll_effects_only_when_new (λ s, s) browser page_seen_a
           (Ok [record_b; record_a])).
  intros H. vm_compute in H. discriminate H.
Defined.

Lemma poll_twice_silent_witness :
  (Page.poll (λ s, s) browser
     (Page.poll (λ s, s) browser page_seen_a (Ok [record_b; record_a])).1
     (Ok [record_b; record_a])).2 = [].
Proof.
  apply (poll_twice_silent (λ s, s) browser page_seen_a [record_b; record_a]).
  - intros x Hx. repeat (apply elem_of_cons in Hx as [->|Hx]).
    + eexists. reflexivity.
    + eexists. reflexivity.
    + by apply elem_of_nil in Hx.
  - apply Nat.leb_le. vm_compute. reflexivity.
Defined.

Lemma poll_full_cache_repeats_witness :
  Page.SetFaviconsToNewMessage
    ∈ (Page.poll (λ s, s) browser page_full (Ok [record_a])).2
  ∧ Page.readSeenIds
      (Page.storage (Page.poll (λ s, s) browser page_full (Ok [record_a])).1)
    = take Page.MAX_SEEN_CACHE (Set_values (Page.readSeenIds (Page.storage page_full)))
  ∧ Page.SetFaviconsToNewMessage
      ∈ (Page.poll (λ s, s) browser
           (Page.poll (λ s, s) browser page_full (Ok [record_a])).1
           (Ok [record_a])).2.
Proof.
  apply (poll_full_cache_repeats (λ s, s) browser page_full [record_a] record_a "id-a").
  - apply Nat.leb_le. vm_compute. reflexivity.
  - reflexivity.
  - apply elem_of_cons. by left.
  - reflexivity.
  - apply (bool_decide_eq_false_1 _). vm_compute. reflexivity.
Defined.

Lemma projects_GET_swallows_failures_witness :
  ProjectsRoute.GET (Some (Redis.connect flaky store_ab_unregistered T0))
  = Ok {| ProjectsRoute.code := 200; ProjectsRoute.data := [] |}.
Proof.
  apply (projects_GET_swallows_failures (Redis.connect flaky store_ab_unregistered T0)).
  right. exists (Redis.ReplyArray []), "fetch failed". split_and!.
  - vm_compute. reflexivity.
  - intros members [= <-]. reflexivity.
  - vm_compute. reflexivity.
Defined.

Lemma poll_notification_names_new_record_witness :
  ∃ x, x ∈ [record_b; record_a]
       ∧ (∀ s, id x = Some s → s ∉ Page.readSeenIds (Page.storage page_seen_a))
       ∧ "svc-b" = Page.template (projectName x)
       ∧ "abc123" = Page.template (commit x)
       ∧ Page.permission browser = Page.Granted.
Proof.
  apply (poll_notification_names_new_record (λ s, s) browser page_seen_a
           [record_b; record_a] "svc-b" "abc123").
  vm_compute. apply elem_of_cons. by left.
Defined.

Lemma getAllProjects_names_sorted_nodup_witness :
  ∃ l, Db.getAllProjects (Some (Redis.connect Redis.reliable store_ab T0)) = Ok l
       ∧ (∀ v, v ∈ l → is_name v)
       ∧ NoDup l
       ∧ StronglySorted listed_before l.
Proof.
  apply (getAllProjects_names_sorted_nodup (Redis.connect Redis.reliable store_ab T0)).
  intros members v Hmembers Hv. vm_compute in Hmembers. injection Hmembers as <-.
  repeat (apply elem_of_cons in Hv as [->|Hv]); [by eexists..|].
  by apply elem_of_nil in Hv.
Defined.


(** Record D, the newest, is what the query for one record returns; a
    record that ranks second, as B does behind A, is not. *)
Example newest_written_is_returned :
  getLatestDeployRecords (Some (Redis.connect Redis.reliable store_ad (T0 + DAY)))
    (T0 + DAY) (of_Z 1) None
  = Ok [record_d].
Proof. vm_compute. reflexivity. Qed.
